(** * RuneStone library: the runestone encoder and decoder of [index.ts]

    The development embeds [encodeRunestone], [isRunestone] and
    [tryDecodeRunestone] of [index.ts] together with the helpers they are
    built from.  [index.ts] imports its codec ([Runestone.encipher],
    [Runestone.decipher], [SpacedRune], [Rune], the bounded integers) from
    the modules [src/runestone], [src/spacedrune], [src/rune] and
    [src/integer] of the library; these are modelled from the protocol
    specification, and every such definition says so in its doc comment.

    Conventions.
    - A JavaScript [bigint] is a [Z].  A JavaScript [number] that reaches a
      [BigInt(..)] conversion is an integral [Z] as well.
    - A JavaScript string is the list of its UTF-16 code units.
    - A byte buffer is a list of [Z], each byte written by the encoder being
      in [0, 255].
    - An optional property [p?: T] of an object type is an [option T];
      [None] is the absent (undefined) property.
    - Code that throws returns [Throw e]; code that returns, [Ok v]. *)

From Stdlib Require Import String ZArith List Bool Lia.
Import ListNotations.
Local Open Scope Z_scope.

(* ================================================================== *)
(** * Errors and results *)

(** The errors [encodeRunestone] can raise.  The first seven are thrown by
    [index.ts] itself; [RuneNameError] stands for the errors of
    [SpacedRune.fromString]. *)
Inductive Error : Type :=
| U8Overflow
| U32Overflow
| U64Overflow
| U128Overflow
| SymbolNotOneCodePoint
| DivisibilityTooLarge
| TermsOverflow
| RuneNameError.

(** The message carried by each [Error(..)] of the source. *)
Definition errorMessage (e : Error) : string :=
  match e with
  | U8Overflow => "u8 overflow"
  | U32Overflow => "u32 overflow"
  | U64Overflow => "u64 overflow"
  | U128Overflow => "u128 overflow"
  | SymbolNotOneCodePoint => "Symbol must be one code point"
  | DivisibilityTooLarge => "Divisibility is greater than protocol max 38"
  | TermsOverflow => "Terms overflow with amount times cap"
  | RuneNameError => "invalid rune name"
  end.

Inductive Result (A : Type) : Type :=
| Ok (a : A)
| Throw (e : Error).
Arguments Ok {A} a.
Arguments Throw {A} e.

Definition bind {A B : Type} (m : Result A) (k : A -> Result B) : Result B :=
  match m with
  | Ok a => k a
  | Throw e => Throw e
  end.

Declare Scope result_scope.
Delimit Scope result_scope with result.
Notation "x <- m ;; k" := (bind m (fun x => k))
  (at level 61, m at next level, right associativity) : result_scope.
Notation "' p <- m ;; k" := (bind m (fun x => match x with p => k end))
  (at level 61, p pattern, m at next level, right associativity) : result_scope.
Local Open Scope result_scope.

(** [Some(x).map(f)] where [f] may throw, and the conditional
    [x !== undefined ? Some(x).map(f) : None]. *)
Definition mapOption {A B : Type} (f : A -> Result B) (o : option A)
  : Result (option B) :=
  match o with
  | Some a => b <- f a ;; Ok (Some b)
  | None => Ok None
  end.

(** [xs.map(f)] where [f] may throw: elements are converted in order and the
    first failure aborts the whole map. *)
Fixpoint mapResult {A B : Type} (f : A -> Result B) (l : list A)
  : Result (list B) :=
  match l with
  | [] => Ok []
  | a :: l' => b <- f a ;; bs <- mapResult f l' ;; Ok (b :: bs)
  end.

(* ================================================================== *)
(** * src/integer: bounded unsigned integers *)

(** Modelled from the spec: the maxima [u8.MAX], [u32.MAX], [u64.MAX] and
    [u128.MAX] of [src/integer] (section 2, component A: "Bounded unsigned
    integers (8/32/64/128-bit)"). *)
Definition u8_MAX : Z := 2 ^ 8 - 1.
Definition u32_MAX : Z := 2 ^ 32 - 1.
Definition u64_MAX : Z := 2 ^ 64 - 1.
Definition u128_MAX : Z := 2 ^ 128 - 1.

(** Modelled from the spec: the constructors [u8(..)], [u32(..)], [u64(..)]
    and [u128(..)] of [src/integer] (component A, bounded unsigned integers
    of 8, 32, 64 and 128 bits).  The constructor keeps the low bits of its
    argument. *)
Definition u8 (n : Z) : Z := n mod 2 ^ 8.
Definition u32 (n : Z) : Z := n mod 2 ^ 32.
Definition u64 (n : Z) : Z := n mod 2 ^ 64.
Definition u128 (n : Z) : Z := n mod 2 ^ 128.

(** Modelled from the spec: [MAX_DIVISIBILITY] of [src/constants]
    ("MAX_DIVISIBILITY = 38"). *)
Definition MAX_DIVISIBILITY : Z := 38.

(* ================================================================== *)
(** * JavaScript strings *)

(** A string is the sequence of its UTF-16 code units. *)
Definition JsString : Type := list Z.

Definition isHighSurrogate (u : Z) : bool := (0xD800 <=? u) && (u <=? 0xDBFF).
Definition isLowSurrogate (u : Z) : bool := (0xDC00 <=? u) && (u <=? 0xDFFF).

(** [s.codePointAt(0)]: a high surrogate followed by a low one is read as a
    single code point above the basic plane; any other unit stands for
    itself.  [None] is [undefined] (empty string). *)
Definition codePointAt0 (s : JsString) : option Z :=
  match s with
  | [] => None
  | hi :: rest =>
      match rest with
      | lo :: _ =>
          if isHighSurrogate hi && isLowSurrogate lo
          then Some ((hi - 0xD800) * 0x400 + (lo - 0xDC00) + 0x10000)
          else Some hi
      | [] => Some hi
      end
  end.

(** [String.fromCodePoint(cp)] for [0 <= cp <= 0x10FFFF]. *)
Definition fromCodePoint (cp : Z) : JsString :=
  if cp <? 0x10000 then [cp]
  else [0xD800 + (cp - 0x10000) / 0x400; 0xDC00 + (cp - 0x10000) mod 0x400].

(** The code points of a string, as the string iterator ([for .. of],
    [[...s]]) yields them. *)
Fixpoint codePoints (s : JsString) : list Z :=
  match s with
  | [] => []
  | hi :: rest =>
      match rest with
      | lo :: rest' =>
          if isHighSurrogate hi && isLowSurrogate lo
          then ((hi - 0xD800) * 0x400 + (lo - 0xDC00) + 0x10000)
                 :: codePoints rest'
          else hi :: codePoints rest
      | [] => [hi]
      end
  end.

(* ================================================================== *)
(** * src/rune and src/spacedrune: rune names *)

(** Modelled from the spec: the alphabet of rune names (section 3: "a
    base-26 string over letters A-Z") and the separator U+2022 of a spaced
    name ("render a separator"), as UTF-16 code units. *)
Definition letter_A : Z := 65.
Definition letter_Z : Z := 90.
Definition BULLET : Z := 0x2022.

Definition isLetter (c : Z) : bool := (letter_A <=? c) && (c <=? letter_Z).

Module Rune.

(** Modelled from the spec: the maximum rune name length
    ("maximum rune name length (28 letters)"). *)
Definition MAX_LENGTH : nat := 28.

(** Modelled from the spec: [Rune.toString] of [src/rune] (section 4.B:
    "produces letters by repeatedly taking n % 26 as letter index, then
    n = n/26 - 1, terminating when n becomes below zero").  The letter
    taken first is the last letter of the name. *)
Fixpoint letters (fuel : nat) (n : Z) (acc : JsString) : JsString :=
  match fuel with
  | O => acc
  | S f =>
      if n <? 0 then acc
      else letters f (n / 26 - 1) ((letter_A + n mod 26) :: acc)
  end.

(** Modelled from the spec: [Rune.toString], by [letters]; 28 steps reach
    every 128-bit value. *)
Definition toString (n : Z) : JsString := letters MAX_LENGTH n [].

(** Modelled from the spec: one step of the reverse direction (section
    4.B, "Reverse for name->number"): the value of a name extended by one
    letter. *)
Definition step (x c : Z) : Z := (x + 1) * 26 + (c - letter_A).

(** Modelled from the spec: [Rune.fromString] of [src/rune] (section 4.B,
    "Reverse for name->number"; section 3, "Name length is bounded (1-28
    letters)", a rune is "a non-negative 128-bit integer").  [None] is a
    thrown error. *)
Definition fromString (s : JsString) : option Z :=
  if forallb isLetter s
     && (1 <=? List.length s)%nat && (List.length s <=? MAX_LENGTH)%nat
  then
    let v := fold_left step s (-1) in
    if v <=? u128_MAX then Some v else None
  else None.

(** Modelled from the spec: the little-endian bytes of the low [8 * n]
    bits of [v] (section 4.G, "serialized little-endian"). *)
Fixpoint leBytes (n : nat) (v : Z) : list Z :=
  match n with
  | O => []
  | S k => (v mod 256) :: leBytes k (v / 256)
  end.

(** Modelled from the spec: the trimming of section 4.G ("with leading zero
    bytes trimmed"): drops the zero bytes at the most significant end of a
    little-endian byte string. *)
Fixpoint trimZeros (l : list Z) : list Z :=
  match l with
  | [] => []
  | b :: r =>
      match trimZeros r with
      | [] => if b =? 0 then [] else [b]
      | r' => b :: r'
      end
  end.

(** Modelled from the spec: the getter [Rune.commitment] of [src/rune]
    (section 4.G: "the 128-bit rune value serialized little-endian with
    leading zero bytes trimmed"; scenario S7: the rune 0 has the empty
    commitment).  The trimmed bytes are the numerically leading ones. *)
Definition commitment (v : Z) : list Z := trimZeros (leBytes 16 v).

End Rune.

Module SpacedRune.

(** Modelled from the spec: the objects [new SpacedRune(rune, spacers)] of
    [src/spacedrune] (section 3: "pairs a Rune with a spacer bitmask"). *)
Record t : Type := mk { rune : Z; spacers : Z }.

(** Modelled from the spec: the reading of a spaced name (section 3), as
    its letters, each with the mark "a separator follows".  [None]: a
    character that is neither a letter nor a separator, a leading
    separator or a doubled separator. *)
Fixpoint split (s : JsString) : option (list (Z * bool)) :=
  match s with
  | [] => Some []
  | c :: rest =>
      if isLetter c then
        match rest with
        | b :: rest' =>
            if b =? BULLET
            then option_map (cons (c, true)) (split rest')
            else option_map (cons (c, false)) (split rest)
        | [] => Some [(c, false)]
        end
      else None
  end.

(** Modelled from the spec: the spacer bitmask (section 3: "Bit i set
    means render a separator between letters i and i+1"); [i] is the index
    of the head of the list. *)
Fixpoint mask (i : Z) (marks : list bool) : Z :=
  match marks with
  | [] => 0
  | b :: r => Z.lor (if b then Z.shiftl 1 i else 0) (mask (i + 1) r)
  end.

(** Modelled from the spec: [SpacedRune.fromString] of [src/spacedrune]
    (section 3: "pairs a Rune with a spacer bitmask (32-bit).  Bit i set
    means render a separator between letters i and i+1.  Significant bits
    beyond the name length are invalid").  [None] is a thrown error. *)
Definition fromString (s : JsString) : option t :=
  match split s with
  | None => None
  | Some pairs =>
      if snd (last pairs (0, false)) then None
      else
        match Rune.fromString (map fst pairs) with
        | None => None
        | Some v => Some (mk v (mask 0 (map snd pairs)))
        end
  end.

(** Modelled from the spec: the rendering of section 3, from the letter of
    index [i] on; the last letter is never followed by a separator. *)
Fixpoint render (i : Z) (spacers : Z) (ls : JsString) : JsString :=
  match ls with
  | [] => []
  | c :: rest =>
      match rest with
      | [] => [c]
      | _ :: _ =>
          c :: (if Z.testbit spacers i then [BULLET] else [])
            ++ render (i + 1) spacers rest
      end
  end.

(** Modelled from the spec: [SpacedRune.toString] of [src/spacedrune]
    (section 3, as for [fromString]). *)
Definition toString (sr : t) : JsString :=
  render 0 (spacers sr) (Rune.toString (rune sr)).

End SpacedRune.

(* ================================================================== *)
(** * The objects of the library: rune ids, edicts, etchings, artifacts *)

(** Modelled from the spec: [new RuneId(block, tx)] of [src/runeid]
    (section 3: "(block: u64, tx: u32)"). *)
Record RuneId : Type := mkRuneId { block : Z; tx : Z }.

(** Modelled from the spec: the edict objects [{ id, amount, output }]
    handed to [new Runestone] (section 3, Edict). *)
Record Edict : Type := mkEdict { id : RuneId; amount : Z; output : Z }.

(** Modelled from the spec: [Terms] of [src/terms] (section 3, Terms), with
    the properties [encodeRunestone] writes: [{ amount, cap, height,
    offset }], the last two being pairs of options. *)
Record Terms : Type := mkTerms {
  terms_amount : option Z;
  terms_cap : option Z;
  terms_height : option Z * option Z;
  terms_offset : option Z * option Z
}.

(** Modelled from the spec: [new Etching(divisibility, rune, spacers,
    symbol, terms, premine, turbo)] of [src/etching] (section 3, Etching),
    with the arguments [encodeRunestone] passes; the symbol is kept as a
    string. *)
Record Etching : Type := mkEtching {
  divisibility : option Z;
  rune : option Z;
  spacers : option Z;
  symbol : option JsString;
  terms : option Terms;
  premine : option Z;
  turbo : bool
}.

(** Modelled from the spec: [new Runestone(mint, pointer, edicts, etching)]
    of [src/runestone] (section 3, Runestone). *)
Record Runestone : Type := mkRunestone {
  mint : option RuneId;
  pointer : option Z;
  edicts : list Edict;
  etching : option Etching
}.

(** Modelled from the spec: the enumeration [Flaw] of [src/flaw], imported
    as [FlawEnum] (section 3, "Recognized flaws"); its ten members are the
    cases of [getFlawString]. *)
Inductive FlawEnum : Type :=
| EDICT_OUTPUT
| EDICT_RUNE_ID
| INVALID_SCRIPT
| OPCODE
| SUPPLY_OVERFLOW
| TRAILING_INTEGERS
| TRUNCATED_FIELD
| UNRECOGNIZED_EVEN_TAG
| UNRECOGNIZED_FLAG
| VARINT.

(** Modelled from the spec: the cenotaph of the library (section 3,
    Cenotaph), as [tryDecodeRunestone] reads it: [flaws], [etching] (a
    rune) and [mint]. *)
Record LibCenotaph : Type := mkLibCenotaph {
  lib_flaws : list FlawEnum;
  lib_etching : option Z;
  lib_mint : option RuneId
}.

(** Modelled from the spec: the artifact returned by [Runestone.decipher]
    (section 9: "a three-way sum None | Runestone | Cenotaph");
    [artifact.type] is ['runestone'] for the first constructor. *)
Inductive Artifact : Type :=
| ArtifactRunestone (r : Runestone)
| ArtifactCenotaph (c : LibCenotaph).

(** Modelled from the spec: the transaction handed to the decoder
    ([RunestoneTx] of [src/runestone]; section 4.D, "a transaction's output
    scripts"): the scripts of its outputs, in order, as bytes. *)
Definition RunestoneTx : Type := list (list Z).

(* ================================================================== *)
(** * Varints *)

Module Varint.

(** Modelled from the spec: the varint encoder (section 4.C: "while
    v >= 0x80, emit (v & 0x7F) | 0x80, then v >>= 7; emit final byte with
    the high bit clear").  Nineteen bytes hold every 128-bit value. *)
Fixpoint encode_aux (fuel : nat) (v : Z) : list Z :=
  match fuel with
  | O => []
  | S f =>
      if 0x80 <=? v
      then Z.lor (Z.land v 0x7F) 0x80 :: encode_aux f (Z.shiftr v 7)
      else [v]
  end.

(** Modelled from the spec: the varint of a 128-bit value, and of a list
    of values. *)
Definition encode (v : Z) : list Z := encode_aux 19 v.

Definition encodeAll (vs : list Z) : list Z := concat (map encode vs).

(** Modelled from the spec: the varint decoder applied to a whole payload
    (section 4.C: "Decoding reads up to 19 bytes; on the 19th byte bits
    above the representable range must be zero, otherwise varint flaw.
    Overlong forms ARE permitted [...]; premature end-of-stream is varint
    flaw").  [acc] is the value read so far of the current varint and [i]
    the number of its bytes already read.  [None] is the varint flaw. *)
Fixpoint integers_aux (bs : list Z) (acc : Z) (i : nat) : option (list Z) :=
  match bs with
  | [] => match i with O => Some [] | S _ => None end
  | b :: rest =>
      if (i =? 18)%nat && negb (Z.land b 0xFC =? 0) then None
      else
        let acc' := acc + Z.shiftl (Z.land b 0x7F) (7 * Z.of_nat i) in
        if Z.land b 0x80 =? 0
        then option_map (cons acc') (integers_aux rest 0 O)
        else integers_aux rest acc' (S i)
  end.

(** Modelled from the spec: section 4.E, "Decode payload as a sequence of
    varints". *)
Definition integers (payload : list Z) : option (list Z) :=
  integers_aux payload 0 O.

End Varint.

(* ================================================================== *)
(** * Output scripts *)

Module Script.

(** Modelled from the spec: the opcodes of the wire format (section 6:
    "OP_RETURN OP_13", "Magic opcode OP_13 = 0x5d") and the push opcodes
    and largest data push of Bitcoin script. *)
Definition OP_RETURN : Z := 0x6a.
Definition MAGIC_NUMBER : Z := 0x5d.
Definition OP_PUSHDATA1 : Z := 0x4c.
Definition OP_PUSHDATA2 : Z := 0x4d.
Definition OP_PUSHDATA4 : Z := 0x4e.
Definition MAX_SCRIPT_ELEMENT_SIZE : nat := 520.

(** Modelled from the spec: one data push (section 4.D, "data-pushes"):
    the shortest push opcode for the length, then the data. *)
Definition push (chunk : list Z) : list Z :=
  let n := Z.of_nat (length chunk) in
  if n <=? 75 then n :: chunk
  else if n <=? 255 then OP_PUSHDATA1 :: n :: chunk
  else OP_PUSHDATA2 :: n mod 256 :: n / 256 :: chunk.

(** Modelled from the spec: the payload cut into the data of successive
    pushes. *)
Fixpoint chunks (fuel : nat) (p : list Z) : list (list Z) :=
  match fuel with
  | O => []
  | S f =>
      match p with
      | [] => []
      | _ :: _ =>
          firstn MAX_SCRIPT_ELEMENT_SIZE p
            :: chunks f (skipn MAX_SCRIPT_ELEMENT_SIZE p)
      end
  end.

(** Modelled from the spec: the opcode framing of [Runestone.encipher]
    (section 6, wire format: the payload "occupies the data pushes of a
    Bitcoin output script starting with OP_RETURN OP_13").  The payload
    is cut into pushes of at most [MAX_SCRIPT_ELEMENT_SIZE] bytes; the
    spec fixes no size limit for the script, so none is enforced. *)
Definition frame (payload : list Z) : list Z :=
  OP_RETURN :: MAGIC_NUMBER
    :: concat (map push (chunks (length payload) payload)).

(** Modelled from the spec: the instructions after the magic opcode
    (section 4.D): the data of all pushes, concatenated, or the flaw of the
    first instruction that is not a well-formed push.  Every instruction
    takes at least one byte, so the length of the script is fuel
    enough. *)
Fixpoint pushes (fuel : nat) (s : list Z) : FlawEnum + list Z :=
  match fuel with
  | O => inr []
  | S f =>
      let data (n : Z) (rest : list Z) : FlawEnum + list Z :=
        if (length rest <? Z.to_nat n)%nat then inl INVALID_SCRIPT
        else
          match pushes f (skipn (Z.to_nat n) rest) with
          | inr p => inr (firstn (Z.to_nat n) rest ++ p)
          | inl flaw => inl flaw
          end in
      match s with
      | [] => inr []
      | op :: rest =>
          if (0 <=? op) && (op <=? 75) then data op rest
          else if op =? OP_PUSHDATA1 then
            match rest with
            | n :: rest' => data n rest'
            | _ => inl INVALID_SCRIPT
            end
          else if op =? OP_PUSHDATA2 then
            match rest with
            | n0 :: n1 :: rest' => data (n0 + 256 * n1) rest'
            | _ => inl INVALID_SCRIPT
            end
          else if op =? OP_PUSHDATA4 then
            match rest with
            | n0 :: n1 :: n2 :: n3 :: rest' =>
                data (n0 + 256 * (n1 + 256 * (n2 + 256 * n3))) rest'
            | _ => inl INVALID_SCRIPT
            end
          else inl OPCODE
      end
  end.

(** Modelled from the spec: a script that (section 4.D) "(i) begins with
    OP_RETURN, (ii) is immediately followed by the magic opcode OP_13"; the
    result is the rest of the script. *)
Definition runestoneBody (script : list Z) : option (list Z) :=
  match script with
  | a :: b :: body =>
      if (a =? OP_RETURN) && (b =? MAGIC_NUMBER) then Some body else None
  | _ => None
  end.

(** Modelled from the spec: [Runestone.payload] (section 4.D: "Scan each
    output script for the first one that (i) begins with OP_RETURN,
    (ii) is immediately followed by the magic opcode OP_13.  [...]
    Concatenate all subsequent data-pushes in that script as the payload.
    Any non-data opcode inside the runestone output => opcode flaw [...].
    A push that fails to parse => invalid_script flaw"; "failure in it
    does not allow trying later outputs"). *)
Fixpoint payload (tx : RunestoneTx) : option (FlawEnum + list Z) :=
  match tx with
  | [] => None
  | script :: rest =>
      match runestoneBody script with
      | Some body => Some (pushes (length body) body)
      | None => payload rest
      end
  end.

End Script.

(* ================================================================== *)
(** * Rune id arithmetic *)

(** Modelled from the spec: [delta] of section 4.H ("block_delta =
    next.block - prev.block; if block_delta = 0 then tx_delta = next.tx -
    prev.tx else tx_delta = next.tx"). *)
Definition RuneId_delta (prev next : RuneId) : Z * Z :=
  let blockDelta := block next - block prev in
  (blockDelta, if blockDelta =? 0 then tx next - tx prev else tx next).

(** Modelled from the spec: [apply_delta] of section 4.H, the inverse of
    [RuneId_delta]; [None] when a component leaves its domain ("Deltas must
    not overflow"). *)
Definition RuneId_next (prev : RuneId) (blockDelta txDelta : Z)
  : option RuneId :=
  let b := block prev + blockDelta in
  let t := if blockDelta =? 0 then tx prev + txDelta else txDelta in
  if (b <=? u64_MAX) && (t <=? u32_MAX) then Some (mkRuneId b t) else None.

(** Modelled from the spec: the order of rune ids (section 3: "Total order
    is lexicographic"). *)
Definition RuneId_leb (a b : RuneId) : bool :=
  (block a <? block b) || ((block a =? block b) && (tx a <=? tx b)).

(** Modelled from the spec: the insertion of an edict into edicts in
    ascending order of their ids. *)
Fixpoint insertEdict (e : Edict) (l : list Edict) : list Edict :=
  match l with
  | [] => [e]
  | x :: r => if RuneId_leb (id e) (id x) then e :: l else x :: insertEdict e r
  end.

(** Modelled from the spec: section 4.G, "edicts sorted by RuneId
    ascending"; edicts of one id keep their relative order. *)
Definition sortEdicts (l : list Edict) : list Edict :=
  fold_right insertEdict [] l.

(* ================================================================== *)
(** * Tags and flags *)

Module Tag.
(** Modelled from the spec: the tag numbers of section 4.E ("Recognized
    tags (exact numeric codes fixed by the protocol)"). *)
Definition BODY : Z := 0.
Definition FLAGS : Z := 2.
Definition RUNE : Z := 4.
Definition PREMINE : Z := 6.
Definition CAP : Z := 8.
Definition AMOUNT : Z := 10.
Definition HEIGHT_START : Z := 12.
Definition HEIGHT_END : Z := 14.
Definition OFFSET_START : Z := 16.
Definition OFFSET_END : Z := 18.
Definition MINT : Z := 20.
Definition POINTER : Z := 22.
Definition CENOTAPH : Z := 126.
Definition DIVISIBILITY : Z := 1.
Definition SPACERS : Z := 3.
Definition SYMBOL : Z := 5.
Definition NOP : Z := 127.

(** Modelled from the spec: the recognized tags of section 4.E. *)
Definition recognized : list Z :=
  [BODY; FLAGS; RUNE; PREMINE; CAP; AMOUNT; HEIGHT_START; HEIGHT_END;
   OFFSET_START; OFFSET_END; MINT; POINTER; CENOTAPH; DIVISIBILITY;
   SPACERS; SYMBOL; NOP].

(** Modelled from the spec: a tag that the implementation recognizes. *)
Definition isRecognized (tag : Z) : bool := existsb (Z.eqb tag) recognized.
End Tag.

Module Flag.
(** Modelled from the spec: the flag bits of section 4.E. *)
Definition ETCHING : Z := 0.
Definition TERMS : Z := 1.
Definition TURBO : Z := 2.
Definition CENOTAPH : Z := 7.

(** Modelled from the spec: the flags as a bitfield (section 4.E: "The
    Flags tag is a bitfield"). *)
Definition mask (bit : Z) : Z := Z.shiftl 1 bit.
Definition isSet (flags bit : Z) : bool := Z.testbit flags bit.
End Flag.

(* ================================================================== *)
(** * Messages *)

Module Message.

(** Modelled from the spec: the parsed message (section 2, component E: "a
    structured Message of tag->values and edicts"): the flaws met while
    parsing, the edicts of the body and the tag/value pairs met before the
    body, in order. *)
Record t : Type := mk {
  flaws : list FlawEnum;
  edicts : list Edict;
  fields : list (Z * Z)
}.

(** Modelled from the spec: the edicts of the body (section 4.E: "a
    sequence of edicts encoded as four varints each (id.block_delta,
    id.tx_delta, amount, output)", "Bytes after the body that do not form
    a multiple of four varints => trailing_integers"; section 4.F step 1:
    "Resolve edicts by folding deltas; if any edict's output is strictly
    greater than the transaction's output count => edict_output.  If any
    RuneId component is zero inappropriately (block=0 with tx<>0) =>
    edict_rune_id"; section 4.H: "overflow => edict_rune_id").  A flawed
    edict is left out and the remaining ones are still read. *)
Fixpoint resolveEdicts (numOutputs : Z) (prev : RuneId) (ints : list Z)
  : list FlawEnum * list Edict :=
  match ints with
  | [] => ([], [])
  | blockDelta :: txDelta :: amount :: output :: rest =>
      match RuneId_next prev blockDelta txDelta with
      | None =>
          let '(fl, es) := resolveEdicts numOutputs prev rest in
          (EDICT_RUNE_ID :: fl, es)
      | Some next =>
          let '(fl, es) := resolveEdicts numOutputs next rest in
          if (block next =? 0) && negb (tx next =? 0)
          then (EDICT_RUNE_ID :: fl, es)
          else if numOutputs <? output then (EDICT_OUTPUT :: fl, es)
          else (fl, mkEdict next amount output :: es)
      end
  | _ => ([TRAILING_INTEGERS], [])
  end.

(** Modelled from the spec: [Message.fromIntegers] (section 4.E:
    "Interpret pairs (tag, value); tag 0 is the body sentinel, after
    which the remainder is a sequence of edicts [...].  Before the body,
    duplicate tags collect values in order.  [...] A tag consumed without
    a following value => truncated_field"). *)
Fixpoint fromIntegers (numOutputs : Z) (ints : list Z) : t :=
  match ints with
  | [] => mk [] [] []
  | tag :: rest =>
      if tag =? Tag.BODY then
        let '(fl, es) := resolveEdicts numOutputs (mkRuneId 0 0) rest in
        mk fl es []
      else
        match rest with
        | [] => mk [TRUNCATED_FIELD] [] []
        | value :: rest' =>
            let m := fromIntegers numOutputs rest' in
            mk (flaws m) (edicts m) ((tag, value) :: fields m)
        end
  end.

(** Modelled from the spec: the values collected for a tag, in order
    (section 4.E: "duplicate tags collect values in order"). *)
Definition values (tag : Z) (fs : list (Z * Z)) : list Z :=
  map snd (filter (fun p => fst p =? tag) fs).

(** Modelled from the spec: the first value of a tag, kept when it lies in
    the domain [0 .. max] of the field (section 4.A: "overflow in decoding
    [...] is a hard error (for parsing: a flaw)").  The spec names no flaw
    for a value outside the domain of its field; the model reports it as
    [VARINT]. *)
Definition take (tag max : Z) (fs : list (Z * Z))
  : option Z * list FlawEnum :=
  match values tag fs with
  | [] => (None, [])
  | v :: _ => if v <=? max then (Some v, []) else (None, [VARINT])
  end.

End Message.

(* ================================================================== *)
(** * src/runestone: [encipher] and [decipher] *)

(** Modelled from the spec: the pair written for an optional field; an
    absent field writes nothing. *)
Definition optField (tag : Z) (o : option Z) : list (Z * Z) :=
  match o with
  | Some v => [(tag, v)]
  | None => []
  end.

(** Modelled from the spec: the contribution of one flag to the flags. *)
Definition flagBit (bit : Z) (b : bool) : Z := if b then Flag.mask bit else 0.

(** [option.isSome()]. *)
Definition isSome {A : Type} (o : option A) : bool :=
  match o with Some _ => true | None => false end.

(** Modelled from the spec: the flags of a runestone (section 4.E, "Flags
    bits"): the etching flag, and for an etching the terms and turbo
    flags. *)
Definition flagsOf (e : option Etching) : Z :=
  match e with
  | None => 0
  | Some e =>
      Z.lor (Flag.mask Flag.ETCHING)
        (Z.lor (flagBit Flag.TERMS (isSome (terms e)))
               (flagBit Flag.TURBO (turbo e)))
  end.

(** Modelled from the spec: the fields of the terms, of the etching and of
    the mint, each group in ascending tag order (section 4.G). *)
Definition termsFields (t : option Terms) : list (Z * Z) :=
  match t with
  | None => []
  | Some t =>
      optField Tag.CAP (terms_cap t)
      ++ optField Tag.AMOUNT (terms_amount t)
      ++ optField Tag.HEIGHT_START (fst (terms_height t))
      ++ optField Tag.HEIGHT_END (snd (terms_height t))
      ++ optField Tag.OFFSET_START (fst (terms_offset t))
      ++ optField Tag.OFFSET_END (snd (terms_offset t))
  end.

Definition etchingFields (e : option Etching) : list (Z * Z) :=
  match e with
  | None => []
  | Some e =>
      optField Tag.DIVISIBILITY (divisibility e)
      ++ optField Tag.SPACERS (spacers e)
      ++ optField Tag.RUNE (rune e)
      ++ optField Tag.SYMBOL
           (match symbol e with Some s => codePointAt0 s | None => None end)
      ++ optField Tag.PREMINE (premine e)
      ++ termsFields (terms e)
  end.

Definition mintFields (m : option RuneId) : list (Z * Z) :=
  match m with
  | None => []
  | Some m => [(Tag.MINT, block m); (Tag.MINT, tx m)]
  end.

(** Modelled from the spec: the tag/value pairs of a runestone (section
    4.G: "flags first (single varint pair), then recognized fields in
    ascending tag order"). *)
Definition encodeFields (r : Runestone) : list (Z * Z) :=
  (Tag.FLAGS, flagsOf (etching r))
    :: etchingFields (etching r)
    ++ mintFields (mint r)
    ++ optField Tag.POINTER (pointer r).

(** Modelled from the spec: the four integers of each edict (section 4.E),
    the id as a delta to the previous one (section 4.H). *)
Fixpoint edictIntegers (prev : RuneId) (es : list Edict) : list Z :=
  match es with
  | [] => []
  | e :: rest =>
      let '(blockDelta, txDelta) := RuneId_delta prev (id e) in
      blockDelta :: txDelta :: amount e :: output e
        :: edictIntegers (id e) rest
  end.

(** Modelled from the spec: the integers of the pairs, tag then value. *)
Definition pairIntegers (fs : list (Z * Z)) : list Z :=
  concat (map (fun p => [fst p; snd p]) fs).

(** Modelled from the spec: the integers of the message of a runestone
    (section 4.G: the pairs, "then body sentinel, then edicts sorted by
    RuneId ascending with delta re-computation"). *)
Definition messageIntegers (r : Runestone) : list Z :=
  pairIntegers (encodeFields r)
    ++ Tag.BODY :: edictIntegers (mkRuneId 0 0) (sortEdicts (edicts r)).

(** Modelled from the spec: [Runestone.encipher] of [src/runestone]
    (section 4.G: "Emit in canonical order: flags first (single varint
    pair), then recognized fields in ascending tag order, then body
    sentinel, then edicts sorted by RuneId ascending with delta
    re-computation"; section 6: "All integers are LEB128 varints"). *)
Definition encipher (r : Runestone) : list Z :=
  Script.frame (Varint.encodeAll (messageIntegers r)).

(** Modelled from the spec: the terms of a message whose Terms flag is set
    (section 3, Terms; amounts in u128, heights and offsets in u64). *)
Definition decodeTerms (fs : list (Z * Z)) : Terms * list FlawEnum :=
  let '(cap, f1) := Message.take Tag.CAP u128_MAX fs in
  let '(amount, f2) := Message.take Tag.AMOUNT u128_MAX fs in
  let '(heightStart, f3) := Message.take Tag.HEIGHT_START u64_MAX fs in
  let '(heightEnd, f4) := Message.take Tag.HEIGHT_END u64_MAX fs in
  let '(offsetStart, f5) := Message.take Tag.OFFSET_START u64_MAX fs in
  let '(offsetEnd, f6) := Message.take Tag.OFFSET_END u64_MAX fs in
  (mkTerms amount cap (heightStart, heightEnd) (offsetStart, offsetEnd),
   f1 ++ f2 ++ f3 ++ f4 ++ f5 ++ f6).

(** [option.unwrapOr(0)]. *)
Definition orZero (o : option Z) : Z :=
  match o with Some v => v | None => 0 end.

(** Modelled from the spec: the supply check (section 4.F step 2: "If Terms
    flag set: amount * cap must fit u128, else supply_overflow.  Premine +
    amount*cap must fit u128, else supply_overflow").  An absent premine,
    amount or cap counts as zero. *)
Definition supplyOverflows (e : Etching) : bool :=
  let mintable :=
    match terms e with
    | Some t => orZero (terms_amount t) * orZero (terms_cap t)
    | None => 0
    end in
  (u128_MAX <? mintable) || (u128_MAX <? orZero (premine e) + mintable).

(** Modelled from the spec: the etching of a message whose Etching flag is
    set (section 4.F step 2; section 3, the fields of an etching, with
    "divisibility?: u8<=MAX_DIVISIBILITY(38)" and "spacers?: u32"). *)
Definition decodeEtching (flags : Z) (fs : list (Z * Z))
  : Etching * list FlawEnum :=
  let '(divisibility, f1) :=
    Message.take Tag.DIVISIBILITY MAX_DIVISIBILITY fs in
  let '(spacers, f2) := Message.take Tag.SPACERS u32_MAX fs in
  let '(rune, f3) := Message.take Tag.RUNE u128_MAX fs in
  let '(symbol, f4) := Message.take Tag.SYMBOL 0x10FFFF fs in
  let '(premine, f5) := Message.take Tag.PREMINE u128_MAX fs in
  let '(terms, f6) :=
    if Flag.isSet flags Flag.TERMS
    then let '(t, f) := decodeTerms fs in (Some t, f)
    else (None, []) in
  let e := mkEtching divisibility rune spacers (option_map fromCodePoint symbol)
             terms premine (Flag.isSet flags Flag.TURBO) in
  (e, f1 ++ f2 ++ f3 ++ f4 ++ f5 ++ f6
      ++ (if supplyOverflows e then [SUPPLY_OVERFLOW] else [])).

(** Modelled from the spec: the mint of a message (section 4.F step 3: "If
    Mint tag pair present: RuneId is (block, tx) directly"). *)
Definition decodeMint (fs : list (Z * Z)) : option RuneId * list FlawEnum :=
  match Message.values Tag.MINT fs with
  | b :: t :: _ =>
      if (b <=? u64_MAX) && (t <=? u32_MAX) then (Some (mkRuneId b t), [])
      else (None, [VARINT])
  | _ => (None, [])
  end.

(** Modelled from the spec: the pointer of a message (section 4.F step 4:
    "If Pointer present and >= output count => edict_output"). *)
Definition decodePointer (numOutputs : Z) (fs : list (Z * Z))
  : option Z * list FlawEnum :=
  match Message.values Tag.POINTER fs with
  | [] => (None, [])
  | p :: _ => if p <? numOutputs then (Some p, []) else (None, [EDICT_OUTPUT])
  end.

(** Modelled from the spec: the four flag bits of section 4.E, as a
    mask. *)
Definition knownFlags : Z :=
  Z.lor (Flag.mask Flag.ETCHING)
    (Z.lor (Flag.mask Flag.TERMS)
       (Z.lor (Flag.mask Flag.TURBO) (Flag.mask Flag.CENOTAPH))).

(** Modelled from the spec: the flaws of the flags (section 4.E: "unknown
    set flag bits => unrecognized_flag flaw"; section 4.F step 5: "the
    explicit Cenotaph flag downgrades the artifact to a Cenotaph"; section
    8, invariant 3: "For every decoded Cenotaph, the flaw set is
    non-empty").  The spec names no flaw of its own for the explicit
    Cenotaph flag: it is reported as [UNRECOGNIZED_FLAG], so that the
    downgrade leaves a flaw in the set as invariant 3 requires. *)
Definition flagFlaws (flags : Z) : list FlawEnum :=
  if negb (Z.ldiff flags knownFlags =? 0) || Flag.isSet flags Flag.CENOTAPH
  then [UNRECOGNIZED_FLAG] else [].

(** Modelled from the spec: section 4.E, "A tag with an even numeric value
    that the implementation does not recognize => unrecognized_even_tag
    flaw (odd unknown tags are silently ignored)". *)
Definition evenTagFlaws (fs : list (Z * Z)) : list FlawEnum :=
  if existsb (fun p => Z.even (fst p) && negb (Tag.isRecognized (fst p))) fs
  then [UNRECOGNIZED_EVEN_TAG] else [].

(** Modelled from the spec: the builder (section 4.F): the artifact of a
    parsed message for a transaction of [numOutputs] outputs.  "Any
    accumulated flaw [...] downgrades the artifact to a Cenotaph,
    preserving recoverable fields (etched rune name and mint id)". *)
Definition build (numOutputs : Z) (m : Message.t) : Artifact :=
  let fs := Message.fields m in
  let flags := orZero (hd_error (Message.values Tag.FLAGS fs)) in
  let '(etching, f1) :=
    if Flag.isSet flags Flag.ETCHING
    then let '(e, f) := decodeEtching flags fs in (Some e, f)
    else (None, []) in
  let '(mint, f2) := decodeMint fs in
  let '(pointer, f3) := decodePointer numOutputs fs in
  let flaws :=
    Message.flaws m ++ f1 ++ f2 ++ f3 ++ flagFlaws flags ++ evenTagFlaws fs in
  match flaws with
  | [] =>
      ArtifactRunestone (mkRunestone mint pointer (Message.edicts m) etching)
  | _ :: _ =>
      ArtifactCenotaph
        (mkLibCenotaph flaws
           (match etching with Some e => rune e | None => None end) mint)
  end.

(** Modelled from the spec: [Runestone.decipher] of [src/runestone]
    (sections 4.D to 4.F: the payload of the first runestone output, its
    varints, the message, the builder; "Outcome: exactly one of None (no
    OP_RETURN+OP_13 found), Runestone(...), or Cenotaph{flaws,...}"). *)
Definition decipher (tx : RunestoneTx) : option Artifact :=
  match Script.payload tx with
  | None => None
  | Some (inl flaw) => Some (ArtifactCenotaph (mkLibCenotaph [flaw] None None))
  | Some (inr bytes) =>
      match Varint.integers bytes with
      | None => Some (ArtifactCenotaph (mkLibCenotaph [VARINT] None None))
      | Some ints =>
          let numOutputs := Z.of_nat (length tx) in
          Some (build numOutputs (Message.fromIntegers numOutputs ints))
      end
  end.

(* ================================================================== *)
(** * index.ts: the types *)

(** [{ block: bigint; tx: number }]. *)
Record RuneIdSpec : Type := mkRuneIdSpec { id_block : Z; id_tx : Z }.

(** The elements of [RunestoneSpec.edicts]. *)
Record EdictSpec : Type := mkEdictSpec {
  ed_id : RuneIdSpec;
  ed_amount : Z;
  ed_output : Z
}.

(** [{ start?: bigint; end?: bigint }], the type of [terms.height] and
    [terms.offset]. *)
Record RangeSpec : Type := mkRangeSpec {
  r_start : option Z;
  r_end : option Z
}.

(** The [terms] of a [RuneEtchingSpec]. *)
Record TermsSpec : Type := mkTermsSpec {
  t_amount : option Z;
  t_cap : option Z;
  t_height : option RangeSpec;
  t_offset : option RangeSpec
}.

(** [RuneEtchingSpec] of [src/indexer]; its properties are those
    [encodeRunestone] reads and [tryDecodeRunestone] writes. *)
Record RuneEtchingSpec : Type := mkRuneEtchingSpec {
  e_runeName : option JsString;
  e_divisibility : option Z;
  e_premine : option Z;
  e_symbol : option JsString;
  e_terms : option TermsSpec;
  e_turbo : option bool
}.

(** [RunestoneSpec]. *)
Record RunestoneSpec : Type := mkRunestoneSpec {
  s_mint : option RuneIdSpec;
  s_pointer : option Z;
  s_etching : option RuneEtchingSpec;
  s_edicts : option (list EdictSpec)
}.

(** The string literal type [Flaw]. *)
Definition Flaw : Type := string.

(** [Cenotaph]. *)
Record Cenotaph : Type := mkCenotaph {
  flaws : list Flaw;
  c_etching : option JsString;
  c_mint : option RuneIdSpec
}.

(** [RunestoneSpec | Cenotaph], the non-null results of
    [tryDecodeRunestone] and the argument type of [isRunestone]. *)
Inductive Decoded : Type :=
| DecodedRunestone (r : RunestoneSpec)
| DecodedCenotaph (c : Cenotaph).

(** The value returned by [encodeRunestone]. *)
Record Encoded : Type := mkEncoded {
  encodedRunestone : list Z;
  etchingCommitment : option (list Z)
}.

(* ================================================================== *)
(** * index.ts: [getFlawString] and the strict conversions *)

Definition getFlawString (flaw : FlawEnum) : Flaw :=
  match flaw with
  | EDICT_OUTPUT => "edict_output"
  | EDICT_RUNE_ID => "edict_rune_id"
  | INVALID_SCRIPT => "invalid_script"
  | OPCODE => "opcode"
  | SUPPLY_OVERFLOW => "supply_overflow"
  | TRAILING_INTEGERS => "trailing_integers"
  | TRUNCATED_FIELD => "truncated_field"
  | UNRECOGNIZED_EVEN_TAG => "unrecognized_even_tag"
  | UNRECOGNIZED_FLAG => "unrecognized_flag"
  | VARINT => "varint"
  end%string.

Definition u8Strict (n : Z) : Result Z :=
  if (n <? 0) || (u8_MAX <? n) then Throw U8Overflow else Ok (u8 n).

Definition u32Strict (n : Z) : Result Z :=
  if (n <? 0) || (u32_MAX <? n) then Throw U32Overflow else Ok (u32 n).

Definition u64Strict (n : Z) : Result Z :=
  if (n <? 0) || (u64_MAX <? n) then Throw U64Overflow else Ok (u64 n).

Definition u128Strict (n : Z) : Result Z :=
  if (n <? 0) || (u128_MAX <? n) then Throw U128Overflow else Ok (u128 n).

(* ================================================================== *)
(** * index.ts: [encodeRunestone] *)

(** Truthiness of a string: every string but the empty one. *)
Definition truthy (s : JsString) : bool :=
  match s with [] => false | _ :: _ => true end.

(** [new RuneId(u64Strict(x.block), u32Strict(x.tx))]. *)
Definition strictRuneId (x : RuneIdSpec) : Result RuneId :=
  b <- u64Strict (id_block x) ;;
  t <- u32Strict (id_tx x) ;;
  Ok (mkRuneId b t).

(** The callback of [(runestone.edicts ?? []).map(..)]. *)
Definition strictEdict (edict : EdictSpec) : Result Edict :=
  i <- strictRuneId (ed_id edict) ;;
  a <- u128Strict (ed_amount edict) ;;
  o <- u32Strict (ed_output edict) ;;
  Ok (mkEdict i a o).

(** The test of lines 170 to 175 on a truthy symbol: the symbol is accepted
    when [length === 1], or [length === 2] with a first code point of at
    least 0x10000. *)
Definition symbolAccepted (s : JsString) : bool :=
  (length s =? 1)%nat
  || ((length s =? 2)%nat && (0x10000 <=? orZero (codePointAt0 s))).

(** [x ? [start, end] : [None, None]] for [termsSpec.height] and
    [termsSpec.offset]. *)
Definition strictRange (x : option RangeSpec) : Result (option Z * option Z) :=
  match x with
  | Some range =>
      s <- mapOption u64Strict (r_start range) ;;
      e <- mapOption u64Strict (r_end range) ;;
      Ok (s, e)
  | None => Ok (None, None)
  end.

(** The body of [if (etchingSpec.terms) { .. }]. *)
Definition strictTerms (termsSpec : TermsSpec) : Result Terms :=
  amount <- mapOption u128Strict (t_amount termsSpec) ;;
  cap <- mapOption u128Strict (t_cap termsSpec) ;;
  height <- strictRange (t_height termsSpec) ;;
  offset <- strictRange (t_offset termsSpec) ;;
  match amount, cap with
  | Some a, Some c =>
      if u128_MAX <? a * c then Throw TermsOverflow
      else Ok (mkTerms amount cap height offset)
  | _, _ => Ok (mkTerms amount cap height offset)
  end.

(** The body of [if (runestone.etching) { .. }]: the etching built and the
    etching commitment. *)
Definition strictEtching (etchingSpec : RuneEtchingSpec)
  : Result (Etching * option (list Z)) :=
  spacedRune <-
    match e_runeName etchingSpec with
    | Some name =>
        if truthy name then
          match SpacedRune.fromString name with
          | Some sr => Ok (Some sr)
          | None => Throw RuneNameError
          end
        else Ok None
    | None => Ok None
    end ;;
  let rune := option_map SpacedRune.rune spacedRune in
  _ <-
    match e_symbol etchingSpec with
    | Some s =>
        if truthy s && negb (symbolAccepted s)
        then Throw SymbolNotOneCodePoint else Ok tt
    | None => Ok tt
    end ;;
  divisibility <- mapOption u8Strict (e_divisibility etchingSpec) ;;
  premine <- mapOption u128Strict (e_premine etchingSpec) ;;
  spacers <-
    match spacedRune with
    | Some sr =>
        if negb (SpacedRune.spacers sr =? 0)
        then s <- u32Strict (SpacedRune.spacers sr) ;; Ok (Some s)
        else Ok None
    | None => Ok None
    end ;;
  let symbol :=
    match e_symbol etchingSpec with
    | Some s => if truthy s then Some s else None
    | None => None
    end in
  _ <-
    match divisibility with
    | Some d =>
        if MAX_DIVISIBILITY <? d then Throw DivisibilityTooLarge else Ok tt
    | None => Ok tt
    end ;;
  terms <-
    match e_terms etchingSpec with
    | Some termsSpec => t <- strictTerms termsSpec ;; Ok (Some t)
    | None => Ok None
    end ;;
  let turbo := match e_turbo etchingSpec with Some b => b | None => false end in
  Ok (mkEtching divisibility rune spacers symbol terms premine turbo,
      option_map Rune.commitment rune).

(** Lines 147 to 227 of [encodeRunestone]: the [Runestone] handed to
    [encipher] and the etching commitment. *)
Definition buildRunestone (runestone : RunestoneSpec)
  : Result (Runestone * option (list Z)) :=
  mint <- mapOption strictRuneId (s_mint runestone) ;;
  pointer <- mapOption u32Strict (s_pointer runestone) ;;
  edicts <-
    mapResult strictEdict
      (match s_edicts runestone with Some es => es | None => [] end) ;;
  '(etching, etchingCommitment) <-
    match s_etching runestone with
    | Some etchingSpec =>
        '(e, c) <- strictEtching etchingSpec ;; Ok (Some e, c)
    | None => Ok (None, None)
    end ;;
  Ok (mkRunestone mint pointer edicts etching, etchingCommitment).

Definition encodeRunestone (runestone : RunestoneSpec) : Result Encoded :=
  '(r, etchingCommitment) <- buildRunestone runestone ;;
  Ok (mkEncoded (encipher r) etchingCommitment).

(* ================================================================== *)
(** * index.ts: [isRunestone] and [tryDecodeRunestone] *)

Definition keyIf (key : string) (present : bool) : list string :=
  if present then [key] else [].

(** The own property names of the object a [Decoded] value stands for: a
    property is present exactly when it is not [None]. *)
Definition ownKeys (artifact : Decoded) : list string :=
  match artifact with
  | DecodedRunestone r =>
      keyIf "etching" (isSome (s_etching r))
      ++ keyIf "mint" (isSome (s_mint r))
      ++ keyIf "pointer" (isSome (s_pointer r))
      ++ keyIf "edicts" (isSome (s_edicts r))
  | DecodedCenotaph c =>
      "flaws"%string
        :: keyIf "etching" (isSome (c_etching c))
        ++ keyIf "mint" (isSome (c_mint c))
  end.

(** ['flaws' in artifact]. *)
Definition hasKey (key : string) (artifact : Decoded) : bool :=
  existsb (String.eqb key) (ownKeys artifact).

Definition isRunestone (artifact : Decoded) : bool :=
  negb (hasKey "flaws" artifact).

(** [{ block: id.block, tx: Number(id.tx) }]. *)
Definition runeIdSpec (i : RuneId) : RuneIdSpec :=
  mkRuneIdSpec (block i) (tx i).

(** The [height] and [offset] properties of the decoded terms: present when
    [find((option) => option.isSome())] finds a bound. *)
Definition rangeSpec (range : option Z * option Z) : option RangeSpec :=
  if isSome (fst range) || isSome (snd range)
  then Some (mkRangeSpec (fst range) (snd range))
  else None.

Definition termsSpec (t : Terms) : TermsSpec :=
  mkTermsSpec (terms_amount t) (terms_cap t)
    (rangeSpec (terms_height t)) (rangeSpec (terms_offset t)).

Definition etchingSpec (e : Etching) : RuneEtchingSpec :=
  mkRuneEtchingSpec
    (match rune e with
     | Some r =>
         Some (SpacedRune.toString (SpacedRune.mk r (orZero (spacers e))))
     | None => None
     end)
    (divisibility e)
    (premine e)
    (symbol e)
    (option_map termsSpec (terms e))
    (Some (turbo e)).

Definition edictSpec (edict : Edict) : EdictSpec :=
  mkEdictSpec (runeIdSpec (id edict)) (amount edict) (output edict).

(** The object built for an artifact of type ['runestone']. *)
Definition runestoneSpec (runestone : Runestone) : RunestoneSpec :=
  mkRunestoneSpec
    (option_map runeIdSpec (mint runestone))
    (pointer runestone)
    (option_map etchingSpec (etching runestone))
    (match edicts runestone with
     | [] => None
     | _ :: _ => Some (map edictSpec (edicts runestone))
     end).

(** The object built for a cenotaph. *)
Definition cenotaphSpec (cenotaph : LibCenotaph) : Cenotaph :=
  mkCenotaph
    (map getFlawString (lib_flaws cenotaph))
    (option_map Rune.toString (lib_etching cenotaph))
    (option_map runeIdSpec (lib_mint cenotaph)).

(** [None] is [null]. *)
Definition tryDecodeRunestone (tx : RunestoneTx) : option Decoded :=
  match decipher tx with
  | None => None
  | Some artifact =>
      match artifact with
      | ArtifactRunestone runestone =>
          Some (DecodedRunestone (runestoneSpec runestone))
      | ArtifactCenotaph cenotaph =>
          Some (DecodedCenotaph (cenotaphSpec cenotaph))
      end
  end.

(* ================================================================== *)
(** * Predicates of the statements *)

(** A JavaScript string: every code unit is a 16-bit value. *)
Definition isString (s : JsString) : bool :=
  forallb (fun u => (0 <=? u) && (u <=? 0xFFFF)) s.

Definition inRange (max n : Z) : bool := (0 <=? n) && (n <=? max).

Definition optInRange (max : Z) (o : option Z) : bool :=
  match o with Some n => inRange max n | None => true end.

Definition runeIdInBounds (x : RuneIdSpec) : bool :=
  inRange u64_MAX (id_block x) && inRange u32_MAX (id_tx x).

Definition edictInBounds (e : EdictSpec) : bool :=
  runeIdInBounds (ed_id e)
  && inRange u128_MAX (ed_amount e)
  && inRange u32_MAX (ed_output e).

Definition rangeInBounds (x : option RangeSpec) : bool :=
  match x with
  | Some range =>
      optInRange u64_MAX (r_start range) && optInRange u64_MAX (r_end range)
  | None => true
  end.

Definition termsInBounds (t : TermsSpec) : bool :=
  optInRange u128_MAX (t_amount t)
  && optInRange u128_MAX (t_cap t)
  && rangeInBounds (t_height t)
  && rangeInBounds (t_offset t).

Definition etchingInBounds (e : RuneEtchingSpec) : bool :=
  optInRange u8_MAX (e_divisibility e)
  && optInRange u128_MAX (e_premine e)
  && match e_terms e with Some t => termsInBounds t | None => true end.

(** Every numeric field of the spec lies in its bounded unsigned domain:
    [mint.block], the height and offset bounds in u64; [mint.tx],
    [pointer], the edicts' [id.tx] and [output] in u32; [divisibility] in
    u8; the amounts, [premine] and [cap] in u128. *)
Definition numericFieldsInBounds (r : RunestoneSpec) : bool :=
  match s_mint r with Some m => runeIdInBounds m | None => true end
  && optInRange u32_MAX (s_pointer r)
  && forallb edictInBounds
       (match s_edicts r with Some es => es | None => [] end)
  && match s_etching r with Some e => etchingInBounds e | None => true end.

(** Some output script of the transaction begins with [OP_RETURN]
    immediately followed by [OP_13]. *)
Definition hasRunestoneOutput (tx : RunestoneTx) : Prop :=
  Exists
    (fun script =>
       exists body, script = Script.OP_RETURN :: Script.MAGIC_NUMBER :: body)
    tx.

(** The number a little-endian byte string stands for. *)
Fixpoint leValue (bytes : list Z) : Z :=
  match bytes with
  | [] => 0
  | b :: rest => b + 256 * leValue rest
  end.

(** The list of the values of an optional field. *)
Definition optList (o : option Z) : list Z :=
  match o with Some v => [v] | None => [] end.

(** The terms of the etching of a runestone, if any. *)
Definition termsOf (R : Runestone) : option Terms :=
  match etching R with Some e => terms e | None => None end.

(* ================================================================== *)
(** * Runestones that the codec carries unchanged *)

Definition optIn (max : Z) (o : option Z) : Prop :=
  match o with Some v => 0 <= v <= max | None => True end.

Definition runeIdOk (i : RuneId) : Prop :=
  0 <= block i <= u64_MAX /\ 0 <= tx i <= u32_MAX.

Definition termsOk (t : Terms) : Prop :=
  optIn u128_MAX (terms_amount t)
  /\ optIn u128_MAX (terms_cap t)
  /\ optIn u64_MAX (fst (terms_height t))
  /\ optIn u64_MAX (snd (terms_height t))
  /\ optIn u64_MAX (fst (terms_offset t))
  /\ optIn u64_MAX (snd (terms_offset t)).

(** A symbol the encoder accepts: a string of exactly one code point. *)
Definition symbolOk (s : JsString) : Prop :=
  isString s = true /\ symbolAccepted s = true.

Definition etchingOk (e : Etching) : Prop :=
  optIn MAX_DIVISIBILITY (divisibility e)
  /\ optIn u128_MAX (rune e)
  /\ optIn u32_MAX (spacers e)
  /\ match symbol e with Some s => symbolOk s | None => True end
  /\ optIn u128_MAX (premine e)
  /\ match terms e with Some t => termsOk t | None => True end
  /\ supplyOverflows e = false.

Definition edictOk (numOutputs : Z) (e : Edict) : Prop :=
  runeIdOk (id e)
  /\ ~ (block (id e) = 0 /\ tx (id e) <> 0)
  /\ 0 <= amount e <= u128_MAX
  /\ 0 <= output e <= u32_MAX
  /\ output e <= numOutputs.

(** The edicts are in ascending order of their ids, starting at or above
    [prev]. *)
Fixpoint ascending (prev : RuneId) (es : list Edict) : Prop :=
  match es with
  | [] => True
  | e :: rest => RuneId_leb prev (id e) = true /\ ascending (id e) rest
  end.

(** The runestones of a transaction of [numOutputs] outputs whose encoding
    deciphers without a flaw: every field in its domain, the pointer below
    the output count, the edicts valid and in order, the supply of the
    etching within 128 bits. *)
Definition runestoneOk (numOutputs : Z) (R : Runestone) : Prop :=
  match mint R with Some m => runeIdOk m | None => True end
  /\ match pointer R with
     | Some p => 0 <= p <= u32_MAX /\ p < numOutputs
     | None => True
     end
  /\ Forall (edictOk numOutputs) (edicts R)
  /\ ascending (mkRuneId 0 0) (edicts R)
  /\ match etching R with Some e => etchingOk e | None => True end.

(* ================================================================== *)
(** * Specs in canonical form *)

Definition specIdLeb (a b : RuneIdSpec) : bool :=
  (id_block a <? id_block b)
  || ((id_block a =? id_block b) && (id_tx a <=? id_tx b)).

(** The edicts are in ascending order of their ids, starting at or above
    [prev]. *)
Fixpoint edictsAscending (prev : RuneIdSpec) (es : list EdictSpec) : bool :=
  match es with
  | [] => true
  | e :: rest => specIdLeb prev (ed_id e) && edictsAscending (ed_id e) rest
  end.

(** The id of the edict is not of block 0 with a tx other than 0. *)
Definition edictIdValid (e : EdictSpec) : bool :=
  negb ((id_block (ed_id e) =? 0) && negb (id_tx (ed_id e) =? 0)).

(** [edicts] is absent, or a non-empty list in ascending order of ids, all
    valid. *)
Definition canonicalEdicts (es : option (list EdictSpec)) : bool :=
  match es with
  | None => true
  | Some [] => false
  | Some (e :: rest) =>
      edictsAscending (mkRuneIdSpec 0 0) (e :: rest)
      && forallb edictIdValid (e :: rest)
  end.

(** A [height] or [offset] object is absent or has a bound. *)
Definition canonicalRange (x : option RangeSpec) : bool :=
  match x with
  | Some range => isSome (r_start range) || isSome (r_end range)
  | None => true
  end.

(** The supply of the etching, premine + amount * cap, fits 128 bits. *)
Definition specSupplyFits (e : RuneEtchingSpec) : bool :=
  orZero (e_premine e)
  + match e_terms e with
    | Some t => orZero (t_amount t) * orZero (t_cap t)
    | None => 0
    end <=? u128_MAX.

(** An optional string is absent or not empty. *)
Definition nonEmpty (o : option JsString) : bool :=
  match o with Some [] => false | _ => true end.

(** The etching has a [turbo] property, its rune name and symbol are not
    the empty string, its symbol is a string, its [height] and [offset]
    objects are canonical and its supply fits. *)
Definition canonicalEtching (e : RuneEtchingSpec) : bool :=
  isSome (e_turbo e)
  && nonEmpty (e_runeName e)
  && nonEmpty (e_symbol e)
  && match e_symbol e with Some s => isString s | None => true end
  && match e_terms e with
     | Some t => canonicalRange (t_height t) && canonicalRange (t_offset t)
     | None => true
     end
  && specSupplyFits e.

(** The specs the decoder produces: what [tryDecodeRunestone] normalizes
    is already normal. *)
Definition canonical (r : RunestoneSpec) : bool :=
  canonicalEdicts (s_edicts r)
  && match s_etching r with Some e => canonicalEtching e | None => true end.

(** The spec fits a transaction of [numOutputs] outputs: the pointer is
    below the output count and no edict output is above it. *)
Definition fitsOutputs (numOutputs : Z) (r : RunestoneSpec) : bool :=
  match s_pointer r with Some p => p <? numOutputs | None => true end
  && forallb (fun e => ed_output e <=? numOutputs)
       (match s_edicts r with Some es => es | None => [] end).

(** The first output of the transaction that begins with [OP_RETURN OP_13]
    is [script]. *)
Definition carries (tx : RunestoneTx) (script : list Z) : Prop :=
  exists before after,
    tx = before ++ script :: after
    /\ Forall (fun s => Script.runestoneBody s = None) before.

(* ================================================================== *)
(** * The specs [encodeRunestone] accepts, and their normal form *)






(** A [height] or [offset] object without a bound becomes absent. *)
Definition normalizeRange (x : option RangeSpec) : option RangeSpec :=
  match x with
  | Some range =>
      if isSome (r_start range) || isSome (r_end range) then x else None
  | None => None
  end.

(** An empty string becomes absent. *)
Definition normalizeString (o : option JsString) : option JsString :=
  match o with
  | Some [] => None
  | _ => o
  end.

Definition normalizeTerms (t : TermsSpec) : TermsSpec :=
  mkTermsSpec (t_amount t) (t_cap t)
    (normalizeRange (t_height t)) (normalizeRange (t_offset t)).

Definition normalizeEtching (e : RuneEtchingSpec) : RuneEtchingSpec :=
  mkRuneEtchingSpec
    (normalizeString (e_runeName e))
    (e_divisibility e)
    (e_premine e)
    (normalizeString (e_symbol e))
    (option_map normalizeTerms (e_terms e))
    (Some (match e_turbo e with Some b => b | None => false end)).

(** The spec with the choices [encodeRunestone] does not tell apart made
    the way [tryDecodeRunestone] makes them: no empty [edicts], no empty
    string, no [height] or [offset] without a bound, [turbo] written
    out. *)
Definition normalizeSpec (r : RunestoneSpec) : RunestoneSpec :=
  mkRunestoneSpec
    (s_mint r)
    (s_pointer r)
    (option_map normalizeEtching (s_etching r))
    (match s_edicts r with
     | Some [] => None
     | es => es
     end).

(** What the decoder needs of a spec beyond the checks of the encoder: the
    edicts in ascending order of valid ids, the symbol a string, and the
    supply of the etching within 128 bits. *)
Definition decodable (r : RunestoneSpec) : bool :=
  edictsAscending (mkRuneIdSpec 0 0)
    (match s_edicts r with Some es => es | None => [] end)
  && forallb edictIdValid
       (match s_edicts r with Some es => es | None => [] end)
  && match s_etching r with
     | Some e =>
         match e_symbol e with Some s => isString s | None => true end
         && specSupplyFits e
     | None => true
     end.

(* ================================================================== *)
(** * Example inputs *)

(** A spec whose pointer is negative. *)
Definition spec_negative_pointer : RunestoneSpec :=
  mkRunestoneSpec None (Some (-1)) None None.

(** An etching whose divisibility is 39, and a spec that carries it. *)
Definition etching_divisibility_39 : RuneEtchingSpec :=
  mkRuneEtchingSpec None (Some 39) None None None None.

Definition spec_divisibility_39 : RunestoneSpec :=
  mkRunestoneSpec None None (Some etching_divisibility_39) None.

(** An etching whose symbol is the empty string, and a spec that carries
    it. *)
Definition etching_empty_symbol : RuneEtchingSpec :=
  mkRuneEtchingSpec None None None (Some []) None None.

Definition spec_empty_symbol : RunestoneSpec :=
  mkRunestoneSpec None None (Some etching_empty_symbol) None.

(** An etching whose symbol is the two-letter string "AB", and a spec that
    carries it. *)
Definition etching_symbol_AB : RuneEtchingSpec :=
  mkRuneEtchingSpec None None None (Some [65; 66]) None None.

Definition spec_symbol_AB : RunestoneSpec :=
  mkRunestoneSpec None None (Some etching_symbol_AB) None.

(** An etching whose premine is the largest 128-bit value and whose terms
    mint one more unit ([amount] 1, [cap] 1), and a spec that carries
    it. *)
Definition etching_supply_overflow : RuneEtchingSpec :=
  mkRuneEtchingSpec None None (Some u128_MAX) None
    (Some (mkTermsSpec (Some 1) (Some 1) None None)) None.

Definition spec_supply_overflow : RunestoneSpec :=
  mkRunestoneSpec None None (Some etching_supply_overflow) None.

(** The rune name "AB"; an etching that names it; an etching without a
    name; specs that carry them. *)
Definition name_AB : JsString := [65; 66].

Definition etching_AB : RuneEtchingSpec :=
  mkRuneEtchingSpec (Some name_AB) None None None None None.

Definition spec_AB : RunestoneSpec :=
  mkRunestoneSpec None None (Some etching_AB) None.

Definition etching_unnamed : RuneEtchingSpec :=
  mkRuneEtchingSpec None None None None None None.

Definition spec_unnamed : RunestoneSpec :=
  mkRunestoneSpec None None (Some etching_unnamed) None.

(** A transaction whose only output is [OP_RETURN OP_13 OP_ADD]. *)
Definition tx_opcode : RunestoneTx := [[106; 93; 147]].

(** A transaction whose only output is [OP_RETURN OP_13] followed by the
    push of the payload [20, 100, 20, 1]. *)
Definition tx_mint : RunestoneTx := [[106; 93; 4; 20; 100; 20; 1]].

(** An etching that gives a divisibility and leaves [turbo] out, and a
    spec that carries it. *)
Definition etching_no_turbo : RuneEtchingSpec :=
  mkRuneEtchingSpec None (Some 2) None None None None.

Definition spec_no_turbo : RunestoneSpec :=
  mkRunestoneSpec None None (Some etching_no_turbo) None.

(** A spec with a mint, a pointer, an etching and two edicts, in canonical
    form. *)
Definition spec_full : RunestoneSpec :=
  mkRunestoneSpec (Some (mkRuneIdSpec 100 1)) (Some 0)
    (Some (mkRuneEtchingSpec (Some [65; 8226; 66; 67]) (Some 2) (Some 5)
             (Some [55357; 56832])
             (Some (mkTermsSpec (Some 1) (Some 1)
                      (Some (mkRangeSpec None (Some 5))) None))
             (Some true)))
    (Some [mkEdictSpec (mkRuneIdSpec 1 1) 5 0;
           mkEdictSpec (mkRuneIdSpec 1 5) 5 1]).

(** A spec whose list of edicts is empty. *)
Definition spec_empty_edicts : RunestoneSpec :=
  mkRunestoneSpec None None None (Some []).

(** A spec whose two edicts are not in ascending order of their ids. *)
Definition spec_unsorted_edicts : RunestoneSpec :=
  mkRunestoneSpec None None None
    (Some [mkEdictSpec (mkRuneIdSpec 2 0) 7 0;
           mkEdictSpec (mkRuneIdSpec 1 0) 9 0]).

(** A spec whose mint has a block above the maximum of u64 and whose
    pointer is negative; a spec whose mint has a tx above the maximum of
    u32. *)
Definition spec_bad_mint_block : RunestoneSpec :=
  mkRunestoneSpec (Some (mkRuneIdSpec (2 ^ 64) 0)) (Some (-1)) None None.

Definition spec_bad_mint_tx : RunestoneSpec :=
  mkRunestoneSpec (Some (mkRuneIdSpec 0 (2 ^ 32))) None None None.

(** An etching whose terms ask for 2^64 mints of 2^64 units, and a spec
    that carries it. *)
Definition etching_terms_overflow : RuneEtchingSpec :=
  mkRuneEtchingSpec None None None None
    (Some (mkTermsSpec (Some (2 ^ 64)) (Some (2 ^ 64)) None None)) None.

Definition spec_terms_overflow : RunestoneSpec :=
  mkRunestoneSpec None None (Some etching_terms_overflow) None.

(** A spec whose etching has a divisibility of 256. *)
Definition spec_divisibility_256 : RunestoneSpec :=
  mkRunestoneSpec None None
    (Some (mkRuneEtchingSpec None (Some 256) None None None None)) None.

(* ================================================================== *)
(** * Facts about results and the strict conversions *)

Lemma bind_Ok {A B : Type} (m : Result A) (k : A -> Result B) (b : B) :
  bind m k = Ok b -> exists a, m = Ok a /\ k a = Ok b.
Proof.
  destruct m as [a|e]; simpl; intros H; [eauto | discriminate].
Qed.

(** Splits every successful [bind] among the hypotheses. *)
Ltac inv_bind :=
  repeat match goal with
    | H : bind _ _ = Ok _ |- _ =>
        let a := fresh "res" in
        let Ha := fresh "Hres" in
        apply bind_Ok in H; destruct H as (a & Ha & H)
    | H : Ok _ = Ok _ |- _ => injection H as H; try subst
    | H : Throw _ = Ok _ |- _ => discriminate H
    | H : (_, _) = (_, _) |- _ => injection H as ? ?; try subst
    end.

Lemma u8Strict_Ok n v :
  u8Strict n = Ok v <-> (0 <= n <= u8_MAX /\ v = n).
Proof.
  unfold u8Strict, u8, u8_MAX.
  destruct (n <? 0) eqn:E1; destruct (2 ^ 8 - 1 <? n) eqn:E2; simpl;
    split; try discriminate; try lia; intros H.
  - injection H as <-. split; [lia|]. apply Z.mod_small. lia.
  - destruct H as [H ->]. f_equal. apply Z.mod_small. lia.
Qed.

Lemma u32Strict_Ok n v :
  u32Strict n = Ok v <-> (0 <= n <= u32_MAX /\ v = n).
Proof.
  unfold u32Strict, u32, u32_MAX.
  destruct (n <? 0) eqn:E1; destruct (2 ^ 32 - 1 <? n) eqn:E2; simpl;
    split; try discriminate; try lia; intros H.
  - injection H as <-. split; [lia|]. apply Z.mod_small. lia.
  - destruct H as [H ->]. f_equal. apply Z.mod_small. lia.
Qed.

Lemma u64Strict_Ok n v :
  u64Strict n = Ok v <-> (0 <= n <= u64_MAX /\ v = n).
Proof.
  unfold u64Strict, u64, u64_MAX.
  destruct (n <? 0) eqn:E1; destruct (2 ^ 64 - 1 <? n) eqn:E2; simpl;
    split; try discriminate; try lia; intros H.
  - injection H as <-. split; [lia|]. apply Z.mod_small. lia.
  - destruct H as [H ->]. f_equal. apply Z.mod_small. lia.
Qed.

Lemma u128Strict_Ok n v :
  u128Strict n = Ok v <-> (0 <= n <= u128_MAX /\ v = n).
Proof.
  unfold u128Strict, u128, u128_MAX.
  destruct (n <? 0) eqn:E1; destruct (2 ^ 128 - 1 <? n) eqn:E2; simpl;
    split; try discriminate; try lia; intros H.
  - injection H as <-. split; [lia|]. apply Z.mod_small. lia.
  - destruct H as [H ->]. f_equal. apply Z.mod_small. lia.
Qed.

Lemma inRange_true max n : inRange max n = true <-> 0 <= n <= max.
Proof. unfold inRange. rewrite andb_true_iff, !Z.leb_le. tauto. Qed.

(** A strict conversion of an optional field succeeds only on a value of
    the domain, which it returns unchanged. *)
Lemma mapOption_strict_Ok (f : Z -> Result Z) (max : Z) (o o' : option Z) :
  (forall n v, f n = Ok v <-> (0 <= n <= max /\ v = n)) ->
  mapOption f o = Ok o' -> o' = o /\ optInRange max o = true.
Proof.
  intros Hf H. destruct o as [n|]; simpl in *.
  - inv_bind. apply Hf in Hres. destruct Hres as [Hr ->].
    split; [reflexivity | now apply inRange_true].
  - inv_bind. split; reflexivity.
Qed.

Lemma strictRuneId_Ok x i :
  strictRuneId x = Ok i -> runeIdSpec i = x /\ runeIdInBounds x = true.
Proof.
  unfold strictRuneId. intros H. inv_bind.
  apply u64Strict_Ok in Hres as [Hb ->]. apply u32Strict_Ok in Hres0 as [Ht ->].
  destruct x as [b t]; simpl in *. split; [reflexivity|].
  unfold runeIdInBounds; simpl.
  apply andb_true_iff; split; now apply inRange_true.
Qed.

Lemma strictEdict_Ok e e' :
  strictEdict e = Ok e' -> edictSpec e' = e /\ edictInBounds e = true.
Proof.
  unfold strictEdict. intros H. inv_bind.
  apply strictRuneId_Ok in Hres as [Hi Hb].
  apply u128Strict_Ok in Hres0 as [Ha ->].
  apply u32Strict_Ok in Hres1 as [Ho ->].
  destruct e as [i a o]; simpl in *. unfold edictSpec; simpl. rewrite Hi.
  split; [reflexivity|].
  unfold edictInBounds; simpl. rewrite Hb; simpl.
  apply andb_true_iff; split; now apply inRange_true.
Qed.

Lemma mapResult_strictEdict_Ok es es' :
  mapResult strictEdict es = Ok es' ->
  map edictSpec es' = es /\ forallb edictInBounds es = true.
Proof.
  revert es'. induction es as [|e es IH]; simpl; intros es' H.
  - inv_bind. split; reflexivity.
  - inv_bind. apply strictEdict_Ok in Hres as [He Hb].
    destruct (IH _ Hres0) as [IH1 IH2]. simpl. rewrite He, IH1, Hb, IH2.
    split; reflexivity.
Qed.

Lemma strictRange_Ok x p :
  strictRange x = Ok p ->
  rangeInBounds x = true
  /\ p = match x with
         | Some range => (r_start range, r_end range)
         | None => (None, None)
         end.
Proof.
  unfold strictRange. destruct x as [range|]; intros H; inv_bind.
  - apply (mapOption_strict_Ok _ u64_MAX) in Hres as [-> H1];
      [|exact u64Strict_Ok].
    apply (mapOption_strict_Ok _ u64_MAX) in Hres0 as [-> H2];
      [|exact u64Strict_Ok].
    simpl. rewrite H1, H2. split; reflexivity.
  - split; reflexivity.
Qed.

(** What a successful [strictTerms] returns. *)
Lemma strictTerms_Ok ts t :
  strictTerms ts = Ok t ->
  termsInBounds ts = true
  /\ terms_amount t = t_amount ts
  /\ terms_cap t = t_cap ts
  /\ terms_height t = match t_height ts with
                      | Some range => (r_start range, r_end range)
                      | None => (None, None)
                      end
  /\ terms_offset t = match t_offset ts with
                      | Some range => (r_start range, r_end range)
                      | None => (None, None)
                      end
  /\ orZero (t_amount ts) * orZero (t_cap ts) <= u128_MAX.
Proof.
  unfold strictTerms. intros H. inv_bind.
  apply (mapOption_strict_Ok _ u128_MAX) in Hres as [-> H1];
    [|exact u128Strict_Ok].
  apply (mapOption_strict_Ok _ u128_MAX) in Hres0 as [-> H2];
    [|exact u128Strict_Ok].
  apply strictRange_Ok in Hres1 as [H3 ->].
  apply strictRange_Ok in Hres2 as [H4 ->].
  unfold termsInBounds. rewrite H1, H2, H3, H4. simpl.
  assert (Hm : orZero (t_amount ts) * orZero (t_cap ts) <= u128_MAX
               /\ t = mkTerms (t_amount ts) (t_cap ts)
                        match t_height ts with
                        | Some range => (r_start range, r_end range)
                        | None => (None, None)
                        end
                        match t_offset ts with
                        | Some range => (r_start range, r_end range)
                        | None => (None, None)
                        end).
  { destruct (t_amount ts) as [am|]; destruct (t_cap ts) as [cp|]; simpl in *;
      try (inv_bind; split; [unfold u128_MAX; lia | reflexivity]).
    destruct (u128_MAX <? am * cp) eqn:E; [discriminate|].
    inv_bind. apply Z.ltb_ge in E. split; [exact E | reflexivity]. }
  destruct Hm as [Hm ->]. simpl. repeat split; try reflexivity. exact Hm.
Qed.

(** What a successful [strictEtching] went through, statement by
    statement. *)
Lemma strictEtching_Ok es e c :
  strictEtching es = Ok (e, c) ->
  match e_runeName es with
  | Some (u :: name) =>
      exists sr,
        SpacedRune.fromString (u :: name) = Some sr
        /\ rune e = Some (SpacedRune.rune sr)
        /\ spacers e = (if SpacedRune.spacers sr =? 0 then None
                        else Some (SpacedRune.spacers sr))
        /\ c = Some (Rune.commitment (SpacedRune.rune sr))
  | _ => rune e = None /\ spacers e = None /\ c = None
  end
  /\ match e_symbol es with
     | Some (u :: s) =>
         symbolAccepted (u :: s) = true /\ symbol e = Some (u :: s)
     | _ => symbol e = None
     end
  /\ divisibility e = e_divisibility es
  /\ optInRange u8_MAX (e_divisibility es) = true
  /\ optInRange MAX_DIVISIBILITY (e_divisibility es) = true
  /\ premine e = e_premine es
  /\ optInRange u128_MAX (e_premine es) = true
  /\ match e_terms es with
     | Some ts => exists t, strictTerms ts = Ok t /\ terms e = Some t
     | None => terms e = None
     end
  /\ turbo e = match e_turbo es with Some b => b | None => false end
  /\ optIn u32_MAX (spacers e).
Proof.
  unfold strictEtching. intros H. inv_bind.
  apply (mapOption_strict_Ok _ u8_MAX) in Hres1 as [-> Hd];
    [|exact u8Strict_Ok].
  apply (mapOption_strict_Ok _ u128_MAX) in Hres2 as [-> Hp];
    [|exact u128Strict_Ok].
  simpl. repeat split; try assumption.
  - (* the rune name *)
    destruct (e_runeName es) as [[|c0 name]|]; simpl in *; inv_bind;
      try (repeat split; reflexivity).
    destruct (SpacedRune.fromString (c0 :: name)) as [sr|] eqn:Esr;
      [|discriminate].
    inv_bind. exists sr. simpl in *. split; [reflexivity|].
    destruct (SpacedRune.spacers sr =? 0) eqn:E0; simpl in *; inv_bind.
    + repeat split; reflexivity.
    + apply u32Strict_Ok in Hres as [_ ->]. repeat split; reflexivity.
  - (* the symbol *)
    destruct (e_symbol es) as [[|u s]|]; simpl in *; try reflexivity.
    destruct (symbolAccepted (u :: s)); simpl in *; [|discriminate].
    split; reflexivity.
  - (* the protocol maximum of the divisibility *)
    destruct (e_divisibility es) as [d|]; simpl in *; [|reflexivity].
    destruct (MAX_DIVISIBILITY <? d) eqn:E; [discriminate|].
    apply Z.ltb_ge in E. apply inRange_true in Hd. apply inRange_true. lia.
  - (* the terms *)
    destruct (e_terms es) as [ts|]; simpl in *; inv_bind; [|reflexivity].
    eexists; split; [eassumption | reflexivity].
  - (* the spacers *)
    destruct res as [sr|]; simpl in *; inv_bind; [|exact I].
    destruct (SpacedRune.spacers sr =? 0); simpl in *; inv_bind; [exact I|].
    match goal with
    | H : u32Strict _ = Ok _ |- _ => apply u32Strict_Ok in H as [Hr ->]
    end.
    exact Hr.
Qed.

(** What a successful [buildRunestone] went through. *)
Lemma buildRunestone_Ok r R c :
  buildRunestone r = Ok (R, c) ->
  option_map runeIdSpec (mint R) = s_mint r
  /\ match s_mint r with Some m => runeIdInBounds m | None => true end = true
  /\ pointer R = s_pointer r
  /\ optInRange u32_MAX (s_pointer r) = true
  /\ map edictSpec (edicts R)
     = match s_edicts r with Some es => es | None => [] end
  /\ forallb edictInBounds
       (match s_edicts r with Some es => es | None => [] end) = true
  /\ match s_etching r with
     | Some es => exists e, strictEtching es = Ok (e, c) /\ etching R = Some e
     | None => etching R = None /\ c = None
     end.
Proof.
  unfold buildRunestone. intros H. inv_bind.
  destruct res2 as [e0 c0]. inv_bind. simpl.
  apply (mapOption_strict_Ok _ u32_MAX) in Hres0 as [-> Hp];
    [|exact u32Strict_Ok].
  apply mapResult_strictEdict_Ok in Hres1 as [He Hb].
  repeat split; try assumption.
  - destruct (s_mint r) as [m|]; simpl in *; inv_bind; [|reflexivity].
    apply strictRuneId_Ok in Hres0 as [Hm _]. simpl. now rewrite Hm.
  - destruct (s_mint r) as [m|]; simpl in *; inv_bind; [|reflexivity].
    now apply strictRuneId_Ok in Hres0 as [_ ?].
  - destruct (s_etching r) as [es|]; simpl in *; inv_bind.
    + destruct res0 as [e1 c1]. inv_bind.
      eexists; split; [eassumption|reflexivity].
    + split; reflexivity.
Qed.

Lemma strictEtching_inBounds es e c :
  strictEtching es = Ok (e, c) -> etchingInBounds es = true.
Proof.
  intros H. apply strictEtching_Ok in H.
  destruct H as (_ & _ & _ & Hd & _ & _ & Hp & Ht & _).
  unfold etchingInBounds. rewrite Hd, Hp. simpl.
  destruct (e_terms es) as [ts|]; [|reflexivity].
  destruct Ht as (t & Ht & _). now apply strictTerms_Ok in Ht.
Qed.

Lemma buildRunestone_inBounds r R c :
  buildRunestone r = Ok (R, c) -> numericFieldsInBounds r = true.
Proof.
  intros H. apply buildRunestone_Ok in H.
  destruct H as (_ & Hm & _ & Hp & _ & He & Het).
  unfold numericFieldsInBounds. rewrite Hm, Hp, He. simpl.
  destruct (s_etching r) as [es|]; [|reflexivity].
  destruct Het as (e & Het & _). eapply strictEtching_inBounds; eassumption.
Qed.

Lemma encodeRunestone_Ok r enc :
  encodeRunestone r = Ok enc ->
  exists R, buildRunestone r = Ok (R, etchingCommitment enc)
            /\ encodedRunestone enc = encipher R.
Proof.
  unfold encodeRunestone. intros H. inv_bind. destruct res as [R c].
  inv_bind. exists R. split; [assumption | reflexivity].
Qed.

Lemma encodeRunestone_Throw r :
  (forall R c, buildRunestone r <> Ok (R, c)) ->
  exists e, encodeRunestone r = Throw e.
Proof.
  intros H. unfold encodeRunestone.
  destruct (buildRunestone r) as [[R c]|e] eqn:E.
  - now destruct (H R c).
  - exists e. reflexivity.
Qed.

(* ================================================================== *)
(** * Bounded numeric fields *)

(** C7.  [encodeRunestone] throws whenever a numeric field of the spec lies
    outside its bounded unsigned domain (a negative value, or a value above
    the maximum of u64 for [mint.block] and the height and offset bounds,
    of u32 for [mint.tx], [pointer], the edicts' [id.tx] and [output], of
    u8 for [divisibility], of u128 for the amounts, [premine] and [cap]);
    and a strict conversion that returns, returns its argument unchanged:
    no value is wrapped. *)
Theorem encodeRunestone_rejects_out_of_bounds :
  (forall r, numericFieldsInBounds r = false ->
             exists e, encodeRunestone r = Throw e)
  /\ (forall n v, u8Strict n = Ok v -> v = n /\ 0 <= n <= u8_MAX)
  /\ (forall n v, u32Strict n = Ok v -> v = n /\ 0 <= n <= u32_MAX)
  /\ (forall n v, u64Strict n = Ok v -> v = n /\ 0 <= n <= u64_MAX)
  /\ (forall n v, u128Strict n = Ok v -> v = n /\ 0 <= n <= u128_MAX).
Proof.
  split;
    [|repeat split; intros;
      match goal with H : _ = Ok _ |- _ => revert H end].
  - intros r Hr. apply encodeRunestone_Throw. intros R c Hb.
    apply buildRunestone_inBounds in Hb. congruence.
  - rewrite u8Strict_Ok. tauto.
  - rewrite u8Strict_Ok. tauto.
  - rewrite u8Strict_Ok. tauto.
  - rewrite u32Strict_Ok. tauto.
  - rewrite u32Strict_Ok. tauto.
  - rewrite u32Strict_Ok. tauto.
  - rewrite u64Strict_Ok. tauto.
  - rewrite u64Strict_Ok. tauto.
  - rewrite u64Strict_Ok. tauto.
  - rewrite u128Strict_Ok. tauto.
  - rewrite u128Strict_Ok. tauto.
  - rewrite u128Strict_Ok. tauto.
Qed.

Lemma encodeRunestone_rejects_out_of_bounds_witness :
  (exists e, encodeRunestone spec_negative_pointer = Throw e)
  /\ (7 = 7 /\ 0 <= 7 <= u8_MAX).
Proof.
  split.
  - apply (proj1 encodeRunestone_rejects_out_of_bounds spec_negative_pointer).
    reflexivity.
  - apply (proj1 (proj2 encodeRunestone_rejects_out_of_bounds) 7 7).
    reflexivity.
Defined.

(* ================================================================== *)
(** * Which statement throws which error *)

Lemma bind_Throw_inv {A B : Type} (m : Result A) (k : A -> Result B) e :
  bind m k = Throw e -> m = Throw e \/ exists a, m = Ok a /\ k a = Throw e.
Proof.
  destruct m as [a|e']; simpl; intros H; [right; eauto|].
  left. injection H as ->. reflexivity.
Qed.

Lemma u8Strict_Throw n e : u8Strict n = Throw e -> e = U8Overflow.
Proof. unfold u8Strict. destruct (_ || _); congruence. Qed.

Lemma u32Strict_Throw n e : u32Strict n = Throw e -> e = U32Overflow.
Proof. unfold u32Strict. destruct (_ || _); congruence. Qed.

Lemma u64Strict_Throw n e : u64Strict n = Throw e -> e = U64Overflow.
Proof. unfold u64Strict. destruct (_ || _); congruence. Qed.

Lemma u128Strict_Throw n e : u128Strict n = Throw e -> e = U128Overflow.
Proof. unfold u128Strict. destruct (_ || _); congruence. Qed.

Lemma mapOption_Throw {A B : Type} (f : A -> Result B) o e :
  mapOption f o = Throw e -> exists a, o = Some a /\ f a = Throw e.
Proof.
  destruct o as [a|]; simpl; [|discriminate].
  intros H. exists a. split; [reflexivity|].
  destruct (f a); simpl in H; [discriminate|].
  injection H as ->. reflexivity.
Qed.

(** Breaks a thrown [bind] into the statement that threw. *)
Ltac inv_throw :=
  repeat match goal with
    | H : bind _ _ = Throw _ |- _ =>
        let a := fresh "val" in
        let Ha := fresh "Hval" in
        apply bind_Throw_inv in H; destruct H as [H | (a & Ha & H)]
    | H : mapOption _ _ = Throw _ |- _ =>
        let a := fresh "arg" in
        let Ha := fresh "Harg" in
        apply mapOption_Throw in H; destruct H as (a & Ha & H)
    | H : u8Strict _ = Throw _ |- _ => apply u8Strict_Throw in H
    | H : u32Strict _ = Throw _ |- _ => apply u32Strict_Throw in H
    | H : u64Strict _ = Throw _ |- _ => apply u64Strict_Throw in H
    | H : u128Strict _ = Throw _ |- _ => apply u128Strict_Throw in H
    | H : Ok _ = Throw _ |- _ => discriminate H
    end.

Lemma strictRuneId_Throw x e :
  strictRuneId x = Throw e -> e = U32Overflow \/ e = U64Overflow.
Proof. unfold strictRuneId. intros H. inv_throw; auto. Qed.

Lemma strictEdict_Throw x e :
  strictEdict x = Throw e ->
  e = U32Overflow \/ e = U64Overflow \/ e = U128Overflow.
Proof.
  unfold strictEdict. intros H. inv_throw; auto.
  apply strictRuneId_Throw in H. tauto.
Qed.

Lemma mapResult_strictEdict_Throw es e :
  mapResult strictEdict es = Throw e ->
  e = U32Overflow \/ e = U64Overflow \/ e = U128Overflow.
Proof.
  induction es as [|x es IH]; simpl; intros H; [discriminate|].
  inv_throw; auto. now apply strictEdict_Throw in H.
Qed.

Lemma strictRange_Throw x e : strictRange x = Throw e -> e = U64Overflow.
Proof.
  unfold strictRange. destruct x as [range|]; intros H; [|discriminate].
  inv_throw; auto.
Qed.

Lemma strictTerms_Throw ts e :
  strictTerms ts = Throw e ->
  e = U64Overflow \/ e = U128Overflow \/ e = TermsOverflow.
Proof.
  unfold strictTerms. intros H. inv_throw; auto.
  - apply strictRange_Throw in H. auto.
  - apply strictRange_Throw in H. auto.
  - destruct val as [am|]; [destruct val0 as [cp|]|]; try discriminate.
    destruct (u128_MAX <? am * cp); [|discriminate].
    injection H as <-. auto.
Qed.

(** The errors of the statements of [encodeRunestone] that come before the
    etching: the conversions of the mint, the pointer and the edicts. *)
Lemma buildRunestone_Throw r e :
  buildRunestone r = Throw e ->
  (e = U32Overflow \/ e = U64Overflow \/ e = U128Overflow)
  \/ exists es, s_etching r = Some es /\ strictEtching es = Throw e.
Proof.
  unfold buildRunestone. intros H. inv_throw.
  - apply strictRuneId_Throw in H. tauto.
  - auto.
  - apply mapResult_strictEdict_Throw in H. tauto.
  - destruct (s_etching r) as [es|]; [|discriminate].
    right. exists es. split; [reflexivity|]. inv_throw. exact H.
    destruct val2; discriminate.
  - destruct val2; discriminate.
Qed.

Lemma encodeRunestone_Throw_inv r e :
  encodeRunestone r = Throw e -> buildRunestone r = Throw e.
Proof.
  unfold encodeRunestone. intros H. inv_throw; [exact H|].
  destruct val; discriminate.
Qed.

(* ================================================================== *)
(** * The divisibility check *)

Lemma strictEtching_Throw_divisibility es :
  strictEtching es = Throw DivisibilityTooLarge ->
  exists d, e_divisibility es = Some d /\ MAX_DIVISIBILITY < d <= u8_MAX.
Proof.
  unfold strictEtching. intros H. inv_throw; try discriminate.
  - destruct (e_runeName es) as [name|]; [|discriminate].
    destruct (truthy name); [|discriminate].
    destruct (SpacedRune.fromString name); discriminate.
  - destruct (e_symbol es) as [s|]; [|discriminate].
    destruct (_ && _); discriminate.
  - destruct val as [sr|]; [|discriminate].
    destruct (negb _); [|discriminate]. inv_throw; discriminate.
  - apply (mapOption_strict_Ok _ u8_MAX) in Hval1 as [-> Hd];
      [|exact u8Strict_Ok].
    destruct (e_divisibility es) as [d|]; [|discriminate].
    destruct (MAX_DIVISIBILITY <? d) eqn:E; [|discriminate].
    apply Z.ltb_lt in E. simpl in Hd. apply inRange_true in Hd.
    exists d. split; [reflexivity | lia].
  - destruct (e_terms es) as [ts|]; [|discriminate].
    inv_throw. apply strictTerms_Throw in H.
    destruct H as [H|[H|H]]; discriminate.
Qed.

(** C5.  [encodeRunestone] throws whenever the divisibility of the etching
    exceeds the protocol maximum [MAX_DIVISIBILITY] = 38, and the error
    "Divisibility is greater than protocol max" is raised only for such a
    divisibility: a divisibility of at most 38 is never rejected on that
    account. *)
Theorem encodeRunestone_divisibility r :
  (forall es d,
      s_etching r = Some es -> e_divisibility es = Some d ->
      MAX_DIVISIBILITY < d ->
      exists e, encodeRunestone r = Throw e)
  /\ (encodeRunestone r = Throw DivisibilityTooLarge ->
      exists es d,
        s_etching r = Some es /\ e_divisibility es = Some d
        /\ MAX_DIVISIBILITY < d).
Proof.
  split.
  - intros es d Hes Hd Hlt. apply encodeRunestone_Throw. intros R c Hb.
    apply buildRunestone_Ok in Hb.
    destruct Hb as (_ & _ & _ & _ & _ & _ & Het). rewrite Hes in Het.
    destruct Het as (e & Het & _). apply strictEtching_Ok in Het.
    destruct Het as (_ & _ & _ & _ & Hmax & _). rewrite Hd in Hmax.
    simpl in Hmax. apply inRange_true in Hmax. lia.
  - intros H. apply encodeRunestone_Throw_inv in H.
    apply buildRunestone_Throw in H.
    destruct H as [[H|[H|H]] | (es & Hes & H)]; try discriminate.
    apply strictEtching_Throw_divisibility in H. destruct H as (d & Hd & Hr).
    exists es, d. repeat split; [assumption | assumption | lia].
Qed.

Lemma encodeRunestone_divisibility_witness :
  (exists e, encodeRunestone spec_divisibility_39 = Throw e)
  /\ (exists es d,
        s_etching spec_divisibility_39 = Some es /\ e_divisibility es = Some d
        /\ MAX_DIVISIBILITY < d).
Proof.
  split.
  - apply (proj1 (encodeRunestone_divisibility spec_divisibility_39)
             etching_divisibility_39 39); reflexivity.
  - apply (proj2 (encodeRunestone_divisibility spec_divisibility_39)).
    reflexivity.
Defined.

(* ================================================================== *)
(** * The symbol check *)

Lemma codePoints_cons_length u s : (1 <= length (codePoints (u :: s)))%nat.
Proof.
  simpl. destruct s as [|lo s]; simpl; [lia|].
  destruct (isHighSurrogate u && isLowSurrogate lo); simpl; lia.
Qed.

Lemma codePoints_cons2 a b l :
  codePoints (a :: b :: l)
  = if isHighSurrogate a && isLowSurrogate b
    then ((a - 0xD800) * 0x400 + (b - 0xDC00) + 0x10000) :: codePoints l
    else a :: codePoints (b :: l).
Proof. reflexivity. Qed.

(** On a non-empty string the test of [encodeRunestone] accepts exactly the
    strings of one code point. *)
Lemma symbolAccepted_iff s :
  isString s = true -> s <> [] ->
  (symbolAccepted s = true <-> length (codePoints s) = 1%nat).
Proof.
  intros Hs Hne. destruct s as [|a [|b [|c rest]]].
  - congruence.
  - simpl. tauto.
  - unfold symbolAccepted, codePointAt0, orZero. simpl length.
    simpl in Hs. rewrite !andb_true_iff in Hs.
    destruct Hs as ((Ha0 & Ha1) & (Hb0 & Hb1) & _).
    apply Z.leb_le in Ha0, Ha1, Hb0, Hb1.
    cbn [codePoints].
    destruct (isHighSurrogate a && isLowSurrogate b) eqn:E; simpl.
    + unfold isHighSurrogate, isLowSurrogate in E.
      rewrite !andb_true_iff, !Z.leb_le in E.
      split; [reflexivity|]. intros _. apply Z.leb_le. lia.
    + split; [|discriminate]. intros H. apply Z.leb_le in H. lia.
  - split; [discriminate|]. intros H. exfalso.
    rewrite codePoints_cons2 in H.
    destruct (isHighSurrogate a && isLowSurrogate b).
    + pose proof (codePoints_cons_length c rest). cbn [length] in H. lia.
    + pose proof (codePoints_cons_length b (c :: rest)). cbn [length] in H. lia.
Qed.

(** With a truthy symbol that the test refuses, the etching is refused by
    the rune name or by the symbol check. *)
Lemma strictEtching_Throw_symbol es u s :
  e_symbol es = Some (u :: s) -> symbolAccepted (u :: s) = false ->
  strictEtching es = Throw RuneNameError
  \/ strictEtching es = Throw SymbolNotOneCodePoint.
Proof.
  intros Hs Hacc. unfold strictEtching. rewrite Hs. simpl truthy.
  rewrite Hacc. simpl.
  destruct (e_runeName es) as [name|]; [|right; reflexivity].
  destruct (truthy name); [|right; reflexivity].
  destruct (SpacedRune.fromString name); [right|left]; reflexivity.
Qed.

Lemma errorMessage_nonempty e : errorMessage e <> EmptyString.
Proof. destruct e; discriminate. Qed.

(** C4, as amended.  For every spec whose etching symbol is a non-empty
    string that is not exactly one code point, [encodeRunestone] throws and
    returns nothing; the error is that of the symbol check ("Symbol must be
    one code point") unless one of the statements before it (the
    conversions of the mint, the pointer and the edicts, the parsing of the
    rune name) has thrown already.  An empty symbol is treated as an absent
    one. *)
Theorem encodeRunestone_rejects_symbol r es s :
  s_etching r = Some es -> e_symbol es = Some s ->
  isString s = true -> s <> [] -> length (codePoints s) <> 1%nat ->
  exists e,
    encodeRunestone r = Throw e
    /\ (e = SymbolNotOneCodePoint \/ e = RuneNameError
        \/ e = U32Overflow \/ e = U64Overflow \/ e = U128Overflow)
    /\ errorMessage e <> EmptyString.
Proof.
  intros Hes Hsym Hstr Hne Hcp.
  assert (Hacc : symbolAccepted s = false).
  { destruct (symbolAccepted s) eqn:E; [|reflexivity].
    apply symbolAccepted_iff in E; [contradiction | assumption | assumption]. }
  destruct s as [|u s]; [congruence|].
  destruct (strictEtching_Throw_symbol es u s Hsym Hacc) as [Hthrow|Hthrow].
  - destruct (encodeRunestone r) as [enc|e] eqn:E.
    + apply encodeRunestone_Ok in E. destruct E as (R & Hb & _).
      apply buildRunestone_Ok in Hb.
      destruct Hb as (_ & _ & _ & _ & _ & _ & Het). rewrite Hes in Het.
      destruct Het as (e & Het & _). congruence.
    + exists e. split; [reflexivity|]. split; [|apply errorMessage_nonempty].
      apply encodeRunestone_Throw_inv in E. apply buildRunestone_Throw in E.
      destruct E as [E | (es' & Hes' & E)]; [tauto|].
      assert (es' = es) by congruence. subst es'.
      assert (e = RuneNameError) by congruence. tauto.
  - destruct (encodeRunestone r) as [enc|e] eqn:E.
    + apply encodeRunestone_Ok in E. destruct E as (R & Hb & _).
      apply buildRunestone_Ok in Hb.
      destruct Hb as (_ & _ & _ & _ & _ & _ & Het). rewrite Hes in Het.
      destruct Het as (e & Het & _). congruence.
    + exists e. split; [reflexivity|]. split; [|apply errorMessage_nonempty].
      apply encodeRunestone_Throw_inv in E. apply buildRunestone_Throw in E.
      destruct E as [E | (es' & Hes' & E)]; [tauto|].
      assert (es' = es) by congruence. subst es'.
      assert (e = SymbolNotOneCodePoint) by congruence. tauto.
Qed.

Lemma encodeRunestone_rejects_symbol_witness :
  exists e,
    encodeRunestone spec_symbol_AB = Throw e
    /\ (e = SymbolNotOneCodePoint \/ e = RuneNameError
        \/ e = U32Overflow \/ e = U64Overflow \/ e = U128Overflow)
    /\ errorMessage e <> EmptyString.
Proof.
  apply (encodeRunestone_rejects_symbol spec_symbol_AB etching_symbol_AB
           [65; 66]).
  - reflexivity.
  - reflexivity.
  - reflexivity.
  - discriminate.
  - simpl. lia.
Defined.

(** The empty string has no code point, yet a spec whose etching symbol is
    the empty string is encoded: the claim that every symbol that is not
    exactly one code point is refused fails there. *)
Lemma encodeRunestone_accepts_empty_symbol :
  s_etching spec_empty_symbol = Some etching_empty_symbol
  /\ e_symbol etching_empty_symbol = Some []
  /\ length (codePoints []) <> 1%nat
  /\ encodeRunestone spec_empty_symbol
     = Ok (mkEncoded [106; 93; 3; 2; 1; 0] None).
Proof.
  repeat split; try reflexivity. simpl. lia.
Qed.

(* ================================================================== *)
(** * The supply of an etching *)

(** C2, at the failing input.  The premine is the largest 128-bit value and
    the terms mint one more unit, so premine + amount * cap exceeds the
    maximum of u128; [encodeRunestone] checks amount * cap alone, returns
    an encoding, and the decoder reads that encoding as a cenotaph with the
    flaw [supply_overflow]. *)
Theorem encodeRunestone_accepts_supply_overflow :
  u128_MAX < u128_MAX + 1 * 1
  /\ encodeRunestone spec_supply_overflow
     = Ok (mkEncoded
             [106; 93; 27; 2; 3; 6; 255; 255; 255; 255; 255; 255; 255; 255;
              255; 255; 255; 255; 255; 255; 255; 255; 255; 255; 3; 8; 1; 10;
              1; 0] None)
  /\ tryDecodeRunestone
       [[106; 93; 27; 2; 3; 6; 255; 255; 255; 255; 255; 255; 255; 255;
         255; 255; 255; 255; 255; 255; 255; 255; 255; 255; 3; 8; 1; 10;
         1; 0]]
     = Some (DecodedCenotaph (mkCenotaph ["supply_overflow"%string] None None)).
Proof.
  split; [lia|]. split; vm_compute; reflexivity.
Qed.

(* ================================================================== *)
(** * Rune names and the etching commitment *)

Lemma step_fold_lower l x :
  forallb isLetter l = true -> -1 <= x -> -1 <= fold_left Rune.step l x.
Proof.
  revert x. induction l as [|c l IH]; simpl; intros x Hl Hx; [exact Hx|].
  apply andb_true_iff in Hl as [Hc Hl]. apply IH; [exact Hl|].
  unfold isLetter, letter_A in Hc. apply andb_true_iff in Hc as [Hc _].
  apply Z.leb_le in Hc. unfold Rune.step, letter_A. lia.
Qed.

Lemma Rune_fromString_range s v :
  Rune.fromString s = Some v -> 0 <= v <= u128_MAX.
Proof.
  unfold Rune.fromString.
  destruct (forallb isLetter s && (1 <=? length s)%nat
            && (length s <=? Rune.MAX_LENGTH)%nat) eqn:E; [|discriminate].
  cbv zeta.
  destruct (fold_left Rune.step s (-1) <=? u128_MAX) eqn:Hmax; [|discriminate].
  apply andb_true_iff in E as [E _]. apply andb_true_iff in E as [Hl Hn].
  intros H. injection H as <-. apply Z.leb_le in Hmax. split; [|exact Hmax].
  destruct s as [|c s]; [discriminate|]. simpl in *.
  apply andb_true_iff in Hl as [Hc Hl].
  unfold isLetter, letter_A in Hc. apply andb_true_iff in Hc as [Hc _].
  apply Z.leb_le in Hc.
  pose proof (step_fold_lower s (Rune.step (-1) c) Hl) as Hlow.
  assert (0 <= Rune.step (-1) c) by (unfold Rune.step, letter_A; lia).
  assert (Hge : forall l x, forallb isLetter l = true -> 0 <= x ->
                            0 <= fold_left Rune.step l x).
  { clear. induction l as [|d l IH]; simpl; intros x Hl Hx; [exact Hx|].
    apply andb_true_iff in Hl as [Hd Hl]. apply IH; [exact Hl|].
    unfold isLetter, letter_A in Hd. apply andb_true_iff in Hd as [Hd _].
    apply Z.leb_le in Hd. unfold Rune.step, letter_A. lia. }
  apply Hge; assumption.
Qed.

Lemma SpacedRune_fromString_range s sr :
  SpacedRune.fromString s = Some sr -> 0 <= SpacedRune.rune sr <= u128_MAX.
Proof.
  unfold SpacedRune.fromString.
  destruct (SpacedRune.split s) as [pairs|]; [|discriminate].
  destruct (snd (last pairs (0, false))); [discriminate|].
  destruct (Rune.fromString (map fst pairs)) as [v|] eqn:Hv; [|discriminate].
  intros H. injection H as <-. simpl. eapply Rune_fromString_range; eassumption.
Qed.

Lemma leValue_trimZeros l : leValue (Rune.trimZeros l) = leValue l.
Proof.
  induction l as [|b l IH]; [reflexivity|].
  cbn [Rune.trimZeros leValue].
  destruct (Rune.trimZeros l) as [|b' l'] eqn:E.
  - cbn [leValue] in IH. destruct (b =? 0) eqn:Eb; cbn [leValue].
    + apply Z.eqb_eq in Eb. lia.
    + lia.
  - cbn [leValue] in *. lia.
Qed.

Lemma leValue_leBytes n v :
  0 <= v -> leValue (Rune.leBytes n v) = v mod 256 ^ Z.of_nat n.
Proof.
  revert v. induction n as [|n IH]; intros v Hv.
  - simpl. symmetry. apply Z.mod_1_r.
  - cbn [Rune.leBytes leValue]. rewrite IH by (apply Z.div_pos; lia).
    rewrite Nat2Z.inj_succ, Z.pow_succ_r by lia.
    rewrite Z.rem_mul_r by lia. lia.
Qed.

(** The commitment is the little-endian writing of the rune: its bytes
    stand for the value. *)
Lemma commitment_leValue v :
  0 <= v <= u128_MAX -> leValue (Rune.commitment v) = v.
Proof.
  intros Hv. unfold Rune.commitment.
  rewrite leValue_trimZeros, leValue_leBytes by lia.
  apply Z.mod_small. unfold u128_MAX in Hv. simpl Z.of_nat. lia.
Qed.

(** The commitment has no zero byte at its most significant end. *)
Lemma trimZeros_last l : last (Rune.trimZeros l) 1 <> 0.
Proof.
  induction l as [|b l IH]; [simpl; lia|].
  cbn [Rune.trimZeros].
  destruct (Rune.trimZeros l) as [|b' l'] eqn:E.
  - destruct (b =? 0) eqn:Eb; simpl; [lia|]. now apply Z.eqb_neq in Eb.
  - exact IH.
Qed.

(** C6.  When the etching of the spec names a rune, [encodeRunestone]
    returns as [etchingCommitment] the commitment of that rune: the bytes
    of its 128-bit value, least significant first, without the zero bytes
    at the most significant end.  When the etching has no rune name (or an
    empty one), [etchingCommitment] is undefined and the runestone that is
    enciphered still carries the etching, without a rune. *)
Theorem encodeRunestone_commitment r es enc :
  s_etching r = Some es -> encodeRunestone r = Ok enc ->
  (forall u name,
      e_runeName es = Some (u :: name) ->
      exists sr,
        SpacedRune.fromString (u :: name) = Some sr
        /\ etchingCommitment enc = Some (Rune.commitment (SpacedRune.rune sr))
        /\ 0 <= SpacedRune.rune sr <= u128_MAX
        /\ leValue (Rune.commitment (SpacedRune.rune sr)) = SpacedRune.rune sr
        /\ last (Rune.commitment (SpacedRune.rune sr)) 1 <> 0)
  /\ (e_runeName es = None \/ e_runeName es = Some [] ->
      etchingCommitment enc = None
      /\ exists R e,
          buildRunestone r = Ok (R, None)
          /\ encodedRunestone enc = encipher R
          /\ etching R = Some e /\ rune e = None).
Proof.
  intros Hes Henc. apply encodeRunestone_Ok in Henc.
  destruct Henc as (R & Hb & Hbytes).
  pose proof (buildRunestone_Ok _ _ _ Hb) as Hok.
  destruct Hok as (_ & _ & _ & _ & _ & _ & Het). rewrite Hes in Het.
  destruct Het as (e & Het & HeR). apply strictEtching_Ok in Het.
  destruct Het as (Hname & _). split.
  - intros u name Hn. rewrite Hn in Hname.
    destruct Hname as (sr & Hsr & _ & _ & Hc). exists sr.
    pose proof (SpacedRune_fromString_range _ _ Hsr) as Hrange.
    repeat split; try assumption; try lia.
    + now apply commitment_leValue.
    + apply trimZeros_last.
  - intros Hn.
    assert (Hnone : rune e = None /\ spacers e = None
                    /\ etchingCommitment enc = None)
      by (destruct Hn as [Hn|Hn]; rewrite Hn in Hname; exact Hname).
    destruct Hnone as (Hr & _ & Hc). split; [exact Hc|].
    exists R, e. rewrite Hc in Hb. repeat split; assumption.
Qed.

Lemma encodeRunestone_commitment_witness :
  (forall u name,
      e_runeName etching_AB = Some (u :: name) ->
      exists sr,
        SpacedRune.fromString (u :: name) = Some sr
        /\ etchingCommitment
             (mkEncoded [106; 93; 5; 2; 1; 4; 27; 0] (Some [27]))
           = Some (Rune.commitment (SpacedRune.rune sr))
        /\ 0 <= SpacedRune.rune sr <= u128_MAX
        /\ leValue (Rune.commitment (SpacedRune.rune sr)) = SpacedRune.rune sr
        /\ last (Rune.commitment (SpacedRune.rune sr)) 1 <> 0)
  /\ (e_runeName etching_AB = None \/ e_runeName etching_AB = Some [] ->
      etchingCommitment (mkEncoded [106; 93; 5; 2; 1; 4; 27; 0] (Some [27]))
      = None
      /\ exists R e,
          buildRunestone spec_AB = Ok (R, None)
          /\ encodedRunestone
               (mkEncoded [106; 93; 5; 2; 1; 4; 27; 0] (Some [27]))
             = encipher R
          /\ etching R = Some e /\ rune e = None).
Proof.
  apply (encodeRunestone_commitment spec_AB etching_AB
           (mkEncoded [106; 93; 5; 2; 1; 4; 27; 0] (Some [27]))).
  - reflexivity.
  - vm_compute. reflexivity.
Defined.

(* ================================================================== *)
(** * Messages: reading the fields of an encoded runestone *)

Lemma values_app tag fs gs :
  Message.values tag (fs ++ gs)
  = Message.values tag fs ++ Message.values tag gs.
Proof. unfold Message.values. now rewrite filter_app, map_app. Qed.

Lemma values_optField tag tag' o :
  Message.values tag (optField tag' o)
  = if tag' =? tag then optList o else [].
Proof.
  unfold Message.values, optField, optList.
  destruct o as [v|]; cbn [filter map fst snd];
    destruct (tag' =? tag); reflexivity.
Qed.

Lemma values_cons tag tag' v fs :
  Message.values tag ((tag', v) :: fs)
  = if tag' =? tag then v :: Message.values tag fs else Message.values tag fs.
Proof.
  unfold Message.values. cbn [filter fst].
  destruct (tag' =? tag); reflexivity.
Qed.

(** Computes the values of a concrete tag among the fields of an encoded
    runestone. *)
Ltac values_of_fields :=
  unfold encodeFields, etchingFields, termsFields, mintFields;
  repeat match goal with
    | |- context [match ?o with Some _ => _ | None => _ end] =>
        match type of o with
        | option Etching => destruct o
        | option Terms => destruct o
        | option RuneId => destruct o
        end
    end;
  rewrite ?values_cons, ?values_app, ?values_optField, ?values_cons;
  cbn [Z.eqb Pos.eqb app Tag.FLAGS Tag.RUNE Tag.PREMINE Tag.CAP Tag.AMOUNT
         Tag.HEIGHT_START Tag.HEIGHT_END Tag.OFFSET_START Tag.OFFSET_END
         Tag.MINT Tag.POINTER Tag.DIVISIBILITY Tag.SPACERS Tag.SYMBOL
         Message.values filter map fst snd];
  rewrite ?app_nil_r; try reflexivity.

Lemma values_FLAGS R :
  Message.values Tag.FLAGS (encodeFields R) = [flagsOf (etching R)].
Proof. values_of_fields. Qed.

Lemma values_DIVISIBILITY R :
  Message.values Tag.DIVISIBILITY (encodeFields R)
  = match etching R with Some e => optList (divisibility e) | None => [] end.
Proof. values_of_fields. Qed.

Lemma values_SPACERS R :
  Message.values Tag.SPACERS (encodeFields R)
  = match etching R with Some e => optList (spacers e) | None => [] end.
Proof. values_of_fields. Qed.

Lemma values_RUNE R :
  Message.values Tag.RUNE (encodeFields R)
  = match etching R with Some e => optList (rune e) | None => [] end.
Proof. values_of_fields. Qed.

Lemma values_SYMBOL R :
  Message.values Tag.SYMBOL (encodeFields R)
  = match etching R with
    | Some e =>
        optList
          (match symbol e with Some s => codePointAt0 s | None => None end)
    | None => []
    end.
Proof. values_of_fields. Qed.

Lemma values_PREMINE R :
  Message.values Tag.PREMINE (encodeFields R)
  = match etching R with Some e => optList (premine e) | None => [] end.
Proof. values_of_fields. Qed.

Lemma values_CAP R :
  Message.values Tag.CAP (encodeFields R)
  = match termsOf R with Some t => optList (terms_cap t) | None => [] end.
Proof. unfold termsOf. values_of_fields. Qed.

Lemma values_AMOUNT R :
  Message.values Tag.AMOUNT (encodeFields R)
  = match termsOf R with Some t => optList (terms_amount t) | None => [] end.
Proof. unfold termsOf. values_of_fields. Qed.

Lemma values_HEIGHT_START R :
  Message.values Tag.HEIGHT_START (encodeFields R)
  = match termsOf R with
    | Some t => optList (fst (terms_height t))
    | None => []
    end.
Proof. unfold termsOf. values_of_fields. Qed.

Lemma values_HEIGHT_END R :
  Message.values Tag.HEIGHT_END (encodeFields R)
  = match termsOf R with
    | Some t => optList (snd (terms_height t))
    | None => []
    end.
Proof. unfold termsOf. values_of_fields. Qed.

Lemma values_OFFSET_START R :
  Message.values Tag.OFFSET_START (encodeFields R)
  = match termsOf R with
    | Some t => optList (fst (terms_offset t))
    | None => []
    end.
Proof. unfold termsOf. values_of_fields. Qed.

Lemma values_OFFSET_END R :
  Message.values Tag.OFFSET_END (encodeFields R)
  = match termsOf R with
    | Some t => optList (snd (terms_offset t))
    | None => []
    end.
Proof. unfold termsOf. values_of_fields. Qed.

Lemma values_MINT R :
  Message.values Tag.MINT (encodeFields R)
  = match mint R with Some m => [block m; tx m] | None => [] end.
Proof. values_of_fields. Qed.

Lemma values_POINTER R :
  Message.values Tag.POINTER (encodeFields R) = optList (pointer R).
Proof. values_of_fields. Qed.

(* ================================================================== *)
(** * Spacers *)

Lemma split_cons2 c b rest :
  SpacedRune.split (c :: b :: rest)
  = if isLetter c then
      if b =? BULLET
      then option_map (cons (c, true)) (SpacedRune.split rest)
      else option_map (cons (c, false)) (SpacedRune.split (b :: rest))
    else None.
Proof. reflexivity. Qed.

Lemma split_cons1 c :
  SpacedRune.split [c] = if isLetter c then Some [(c, false)] else None.
Proof. reflexivity. Qed.

(** A name without separator has no letter marked. *)
Lemma split_no_bullet s :
  ~ In BULLET s ->
  forall pairs, SpacedRune.split s = Some pairs ->
                Forall (fun p => snd p = false) pairs.
Proof.
  induction s as [|c s IH]; intros Hno pairs Hsplit.
  - injection Hsplit as <-. constructor.
  - destruct s as [|b rest].
    + rewrite split_cons1 in Hsplit.
      destruct (isLetter c); [|discriminate].
      injection Hsplit as <-. repeat constructor.
    + rewrite split_cons2 in Hsplit.
      destruct (isLetter c); [|discriminate].
      assert (Hb : (b =? BULLET) = false).
      { apply Z.eqb_neq. intros ->. apply Hno. right. left. reflexivity. }
      rewrite Hb in Hsplit.
      destruct (SpacedRune.split (b :: rest)) as [ps|] eqn:E; [|discriminate].
      injection Hsplit as <-. constructor; [reflexivity|].
      apply IH; [|reflexivity]. intros Hin. apply Hno. right. exact Hin.
Qed.

Lemma mask_no_mark i marks :
  Forall (fun b => b = false) marks -> SpacedRune.mask i marks = 0.
Proof.
  intros H. revert i. induction H as [|b marks Hb _ IH]; intros i.
  - reflexivity.
  - cbn [SpacedRune.mask]. rewrite Hb, IH. reflexivity.
Qed.

Lemma fromString_no_bullet s sr :
  ~ In BULLET s -> SpacedRune.fromString s = Some sr ->
  SpacedRune.spacers sr = 0.
Proof.
  intros Hno. unfold SpacedRune.fromString.
  destruct (SpacedRune.split s) as [pairs|] eqn:E; [|discriminate].
  destruct (snd (last pairs (0, false))); [discriminate|].
  destruct (Rune.fromString (map fst pairs)); [|discriminate].
  intros H. injection H as <-. simpl. apply mask_no_mark.
  apply Forall_map. eapply split_no_bullet; eassumption.
Qed.

(** C9.  The etching built by [encodeRunestone] never carries the spacers
    value 0: a spacer bitmask of zero is turned into an absent field, and
    no pair with the tag [SPACERS] and the value 0 is among the fields of
    the message.  For a rune name without separator the built etching has
    no spacers field and the message has no [SPACERS] value at all. *)
Theorem encodeRunestone_zero_spacers_absent r R c :
  buildRunestone r = Ok (R, c) ->
  (forall e, etching R = Some e -> spacers e <> Some 0)
  /\ ~ In 0 (Message.values Tag.SPACERS (encodeFields R))
  /\ (forall es name,
         s_etching r = Some es -> e_runeName es = Some name ->
         ~ In BULLET name ->
         exists e, etching R = Some e /\ spacers e = None
                   /\ Message.values Tag.SPACERS (encodeFields R) = []).
Proof.
  intros Hb. apply buildRunestone_Ok in Hb.
  destruct Hb as (_ & _ & _ & _ & _ & _ & Het).
  assert (Hnz : forall e, etching R = Some e -> spacers e <> Some 0).
  { intros e He. destruct (s_etching r) as [es|].
    - destruct Het as (e' & Het & He'). rewrite He in He'.
      injection He' as <-. apply strictEtching_Ok in Het.
      destruct Het as (Hname & _).
      destruct (e_runeName es) as [[|u name]|].
      + destruct Hname as (_ & -> & _). discriminate.
      + destruct Hname as (sr & _ & _ & -> & _).
        destruct (SpacedRune.spacers sr =? 0) eqn:E; [discriminate|].
        apply Z.eqb_neq in E. congruence.
      + destruct Hname as (_ & -> & _). discriminate.
    - destruct Het as [Het _]. congruence. }
  split; [exact Hnz|]. split.
  - rewrite values_SPACERS.
    destruct (etching R) as [e|] eqn:He; [|intros []].
    specialize (Hnz e eq_refl).
    destruct (spacers e) as [v|]; [|intros []].
    intros [Hv|[]]. congruence.
  - intros es name Hes Hn Hno. rewrite Hes in Het.
    destruct Het as (e & Het & He). exists e. split; [exact He|].
    apply strictEtching_Ok in Het. destruct Het as (Hname & _).
    rewrite Hn in Hname.
    assert (Hs : spacers e = None).
    { destruct name as [|u name].
      - now destruct Hname as (_ & ? & _).
      - destruct Hname as (sr & Hsr & _ & Hs & _).
        rewrite (fromString_no_bullet _ _ Hno Hsr) in Hs. exact Hs. }
    split; [exact Hs|].
    rewrite values_SPACERS, He, Hs. reflexivity.
Qed.

Lemma encodeRunestone_zero_spacers_absent_witness :
  (forall e,
      etching (mkRunestone None None []
                 (Some (mkEtching None (Some 27) None None None None false)))
      = Some e -> spacers e <> Some 0)
  /\ ~ In 0 (Message.values Tag.SPACERS
               (encodeFields
                  (mkRunestone None None []
                     (Some (mkEtching None (Some 27) None None None None
                              false)))))
  /\ (forall es name,
         s_etching spec_AB = Some es -> e_runeName es = Some name ->
         ~ In BULLET name ->
         exists e,
           etching (mkRunestone None None []
                      (Some (mkEtching None (Some 27) None None None None
                               false)))
           = Some e
           /\ spacers e = None
           /\ Message.values Tag.SPACERS
                (encodeFields
                   (mkRunestone None None []
                      (Some (mkEtching None (Some 27) None None None None
                               false))))
              = []).
Proof.
  apply (encodeRunestone_zero_spacers_absent spec_AB
           (mkRunestone None None []
              (Some (mkEtching None (Some 27) None None None None false)))
           (Some [27])).
  vm_compute. reflexivity.
Defined.

(* ================================================================== *)
(** * The three outcomes of the decoder *)

Lemma runestoneBody_Some script body :
  Script.runestoneBody script = Some body
  <-> script = Script.OP_RETURN :: Script.MAGIC_NUMBER :: body.
Proof.
  unfold Script.runestoneBody. split.
  - destruct script as [|a [|b rest]]; try discriminate.
    destruct ((a =? Script.OP_RETURN) && (b =? Script.MAGIC_NUMBER)) eqn:E;
      [|discriminate].
    apply andb_true_iff in E as [Ea Eb].
    apply Z.eqb_eq in Ea, Eb. subst. intros H. injection H as <-. reflexivity.
  - intros ->. rewrite !Z.eqb_refl. reflexivity.
Qed.

Lemma payload_None_iff tx :
  Script.payload tx = None <-> ~ hasRunestoneOutput tx.
Proof.
  unfold hasRunestoneOutput. induction tx as [|script tx IH]; simpl.
  - split; [|reflexivity]. intros _ H. inversion H.
  - destruct (Script.runestoneBody script) as [body|] eqn:E.
    + split; [discriminate|]. intros H. exfalso. apply H. left.
      exists body. now apply runestoneBody_Some.
    + rewrite IH. split; intros H Hex.
      * inversion Hex as [? ? Hhd|]; subst; [|contradiction].
        destruct Hhd as (body & Hb).
        apply runestoneBody_Some in Hb. congruence.
      * apply H. right. exact Hex.
Qed.

Lemma decipher_None_iff tx : decipher tx = None <-> ~ hasRunestoneOutput tx.
Proof.
  rewrite <- payload_None_iff. unfold decipher.
  destruct (Script.payload tx) as [[flaw|bytes]|]; try (split; congruence).
  destruct (Varint.integers bytes); split; congruence.
Qed.

(** The result of [tryDecodeRunestone] follows the artifact of
    [decipher]. *)
Lemma tryDecodeRunestone_cases tx :
  match decipher tx with
  | None => tryDecodeRunestone tx = None
  | Some (ArtifactRunestone R) =>
      tryDecodeRunestone tx = Some (DecodedRunestone (runestoneSpec R))
  | Some (ArtifactCenotaph C) =>
      tryDecodeRunestone tx = Some (DecodedCenotaph (cenotaphSpec C))
  end.
Proof.
  unfold tryDecodeRunestone. destruct (decipher tx) as [[R|C]|]; reflexivity.
Qed.

(** C3.  For every transaction, [tryDecodeRunestone] returns exactly one of
    three outcomes: null, and then no output script begins with
    [OP_RETURN OP_13]; a [RunestoneSpec]; or a [Cenotaph], which carries a
    list of flaws.  The three exclude one another. *)
Theorem tryDecodeRunestone_three_outcomes tx :
  ((tryDecodeRunestone tx = None /\ ~ hasRunestoneOutput tx)
   \/ (hasRunestoneOutput tx
       /\ exists r, tryDecodeRunestone tx = Some (DecodedRunestone r))
   \/ (hasRunestoneOutput tx
       /\ exists c, tryDecodeRunestone tx = Some (DecodedCenotaph c)))
  /\ ~ (tryDecodeRunestone tx = None
        /\ exists a, tryDecodeRunestone tx = Some a)
  /\ ~ ((exists r, tryDecodeRunestone tx = Some (DecodedRunestone r))
        /\ exists c, tryDecodeRunestone tx = Some (DecodedCenotaph c)).
Proof.
  split; [|split].
  - pose proof (tryDecodeRunestone_cases tx) as H.
    pose proof (decipher_None_iff tx) as Hn.
    destruct (decipher tx) as [[R|C]|] eqn:E.
    + right. left. split; [|eauto].
      assert (Hp : Script.payload tx <> None).
      { unfold decipher in E. destruct (Script.payload tx); congruence. }
      clear - Hp. unfold hasRunestoneOutput.
      induction tx as [|script tx IH]; simpl in Hp; [congruence|].
      destruct (Script.runestoneBody script) as [body|] eqn:Eb.
      * left. exists body. now apply runestoneBody_Some.
      * right. now apply IH.
    + right. right. split; [|eauto].
      assert (Hp : Script.payload tx <> None).
      { unfold decipher in E. destruct (Script.payload tx); congruence. }
      clear - Hp. unfold hasRunestoneOutput.
      induction tx as [|script tx IH]; simpl in Hp; [congruence|].
      destruct (Script.runestoneBody script) as [body|] eqn:Eb.
      * left. exists body. now apply runestoneBody_Some.
      * right. now apply IH.
    + left. split; [exact H|]. now apply Hn.
  - intros [H (a & Ha)]. congruence.
  - intros [(r & Hr) (c & Hc)]. congruence.
Qed.

(* ================================================================== *)
(** * Cenotaphs *)





(* ================================================================== *)
(** * [isRunestone] *)

Lemma isRunestone_DecodedRunestone r : isRunestone (DecodedRunestone r) = true.
Proof.
  unfold isRunestone, hasKey, ownKeys, keyIf.
  destruct (s_etching r), (s_mint r), (s_pointer r), (s_edicts r); reflexivity.
Qed.

Lemma isRunestone_DecodedCenotaph c : isRunestone (DecodedCenotaph c) = false.
Proof. reflexivity. Qed.

(** C10.  [isRunestone] answers true exactly when the object has no
    property ['flaws'], and it classifies every non-null result of
    [tryDecodeRunestone] correctly: the result built for an artifact of
    type ['runestone'] has no ['flaws'] property, the result built for a
    cenotaph has one. *)
Theorem isRunestone_classifies :
  (forall a, isRunestone a = true <-> ~ In "flaws"%string (ownKeys a))
  /\ (forall r, ~ In "flaws"%string (ownKeys (DecodedRunestone r)))
  /\ (forall c, In "flaws"%string (ownKeys (DecodedCenotaph c)))
  /\ (forall tx a,
         tryDecodeRunestone tx = Some a ->
         (isRunestone a = true
          <-> exists R, decipher tx = Some (ArtifactRunestone R)
                        /\ a = DecodedRunestone (runestoneSpec R))
         /\ (isRunestone a = false
             <-> exists C, decipher tx = Some (ArtifactCenotaph C)
                           /\ a = DecodedCenotaph (cenotaphSpec C))).
Proof.
  assert (Hkey : forall a,
             isRunestone a = true <-> ~ In "flaws"%string (ownKeys a)).
  { intros a. unfold isRunestone, hasKey. rewrite negb_true_iff.
    rewrite <- not_true_iff_false, existsb_exists.
    split; intros H Hin; apply H.
    - exists "flaws"%string. split; [exact Hin | reflexivity].
    - destruct Hin as (k & Hin & Hk). apply String.eqb_eq in Hk.
      now subst k. }
  split; [exact Hkey|]. split; [|split].
  - intros r. apply Hkey. apply isRunestone_DecodedRunestone.
  - intros c. left. reflexivity.
  - intros tx a H. pose proof (tryDecodeRunestone_cases tx) as Hc.
    destruct (decipher tx) as [[R|C]|] eqn:E; try congruence.
    + rewrite Hc in H. injection H as <-.
      rewrite isRunestone_DecodedRunestone. split; split.
      * intros _. exists R. split; reflexivity.
      * reflexivity.
      * discriminate.
      * intros (C & HC & _). discriminate.
    + rewrite Hc in H. injection H as <-.
      rewrite isRunestone_DecodedCenotaph. split; split.
      * discriminate.
      * intros (R & HR & _). discriminate.
      * intros _. exists C. split; reflexivity.
      * reflexivity.
Qed.

Lemma isRunestone_classifies_witness :
  (isRunestone (DecodedCenotaph (mkCenotaph ["opcode"%string] None None))
   = true
   <-> exists R, decipher tx_opcode = Some (ArtifactRunestone R)
                 /\ DecodedCenotaph (mkCenotaph ["opcode"%string] None None)
                    = DecodedRunestone (runestoneSpec R))
  /\ (isRunestone (DecodedCenotaph (mkCenotaph ["opcode"%string] None None))
      = false
      <-> exists C, decipher tx_opcode = Some (ArtifactCenotaph C)
                    /\ DecodedCenotaph (mkCenotaph ["opcode"%string] None None)
                       = DecodedCenotaph (cenotaphSpec C)).
Proof.
  apply (proj2 (proj2 (proj2 isRunestone_classifies)) tx_opcode).
  reflexivity.
Defined.

(* ================================================================== *)
(** * Varints: decoding an encoding *)

(** A property of the numbers below 128 that holds of each of them. *)
Lemma below_128 (P : Z -> bool) :
  forallb P (map Z.of_nat (seq 0 128)) = true ->
  forall m, 0 <= m < 128 -> P m = true.
Proof.
  intros H m Hm. rewrite forallb_forall in H. apply H.
  rewrite in_map_iff. exists (Z.to_nat m). split; [lia|].
  apply in_seq. lia.
Qed.

Lemma varint_last_byte v :
  0 <= v < 128 -> Z.land v 0x7F = v /\ Z.land v 0x80 = 0.
Proof.
  intros Hv.
  pose proof (below_128
                (fun m => (Z.land m 0x7F =? m) && (Z.land m 0x80 =? 0))
                eq_refl v Hv) as H.
  apply andb_true_iff in H as [H1 H2]. apply Z.eqb_eq in H1, H2. tauto.
Qed.

Lemma varint_small_byte v : 0 <= v < 4 -> Z.land v 0xFC = 0.
Proof.
  intros Hv.
  assert (H : v = 0 \/ v = 1 \/ v = 2 \/ v = 3) by lia.
  destruct H as [->|[->|[->| ->]]]; reflexivity.
Qed.

Lemma varint_more_byte m :
  0 <= m < 128 ->
  Z.land (Z.lor m 0x80) 0x7F = m /\ Z.land (Z.lor m 0x80) 0x80 <> 0.
Proof.
  intros Hm.
  pose proof (below_128
                (fun m => (Z.land (Z.lor m 0x80) 0x7F =? m)
                          && negb (Z.land (Z.lor m 0x80) 0x80 =? 0))
                eq_refl m Hm) as H.
  apply andb_true_iff in H as [H1 H2]. apply Z.eqb_eq in H1.
  apply negb_true_iff, Z.eqb_neq in H2. tauto.
Qed.

(** Decoding what [encode_aux] wrote, inside a varint of which [i] bytes
    have been read already. *)
Lemma integers_aux_encode fuel :
  forall v acc i rest,
    0 <= v < 2 ^ (7 * Z.of_nat fuel) ->
    v < 2 ^ (128 - 7 * Z.of_nat i) ->
    (1 <= fuel)%nat -> (i + fuel <= 19)%nat ->
    Varint.integers_aux (Varint.encode_aux fuel v ++ rest) acc i
    = option_map (cons (acc + v * 2 ^ (7 * Z.of_nat i)))
        (Varint.integers_aux rest 0 O).
Proof.
  induction fuel as [|f IH]; intros v acc i rest Hv Hi Hf Hsum; [lia|].
  cbn [Varint.encode_aux].
  destruct (0x80 <=? v) eqn:E.
  - (* a byte with the continuation bit *)
    apply Z.leb_le in E.
    assert (Hf1 : (1 <= f)%nat).
    { destruct f; [|lia]. change (2 ^ (7 * Z.of_nat 1)) with 128 in Hv. lia. }
    assert (Hi17 : (i <= 17)%nat) by lia.
    assert (Hm : 0 <= v mod 128 < 128) by (apply Z.mod_pos_bound; lia).
    replace (Z.land v 0x7F) with (v mod 128)
      by (change 0x7F with (Z.ones 7); now rewrite Z.land_ones by lia).
    destruct (varint_more_byte _ Hm) as [Hlow Hhigh].
    cbn [app Varint.integers_aux].
    replace (i =? 18)%nat with false by (symmetry; apply Nat.eqb_neq; lia).
    cbn [andb]. rewrite Hlow.
    apply Z.eqb_neq in Hhigh. rewrite Hhigh.
    rewrite Z.shiftr_div_pow2 by lia. change (2 ^ 7) with 128.
    rewrite Z.shiftl_mul_pow2 by lia.
    rewrite IH.
    + f_equal. f_equal.
      replace (7 * Z.of_nat (S i)) with (7 + 7 * Z.of_nat i) by lia.
      rewrite Z.pow_add_r by lia. change (2 ^ 7) with 128.
      pose proof (Z.div_mod v 128). nia.
    + assert (Hp : 2 ^ (7 * Z.of_nat (S f)) = 2 ^ 7 * 2 ^ (7 * Z.of_nat f))
        by (rewrite <- Z.pow_add_r by lia; f_equal; lia).
      change (2 ^ 7) with 128 in Hp.
      split; [apply Z.div_pos; lia|].
      apply Z.div_lt_upper_bound; lia.
    + assert (Hp : 2 ^ (128 - 7 * Z.of_nat i)
                   = 2 ^ 7 * 2 ^ (128 - 7 * Z.of_nat (S i)))
        by (rewrite <- Z.pow_add_r by lia; f_equal; lia).
      change (2 ^ 7) with 128 in Hp.
      apply Z.div_lt_upper_bound; lia.
    + exact Hf1.
    + lia.
  - (* the last byte *)
    apply Z.leb_gt in E.
    destruct (varint_last_byte v) as [Hlow Hhigh]; [lia|].
    cbn [app Varint.integers_aux].
    assert (Hcheck : ((i =? 18)%nat && negb (Z.land v 0xFC =? 0)) = false).
    { destruct (i =? 18)%nat eqn:Ei; [|reflexivity].
      apply Nat.eqb_eq in Ei. subst i.
      change (2 ^ (128 - 7 * Z.of_nat 18)) with 4 in Hi.
      rewrite varint_small_byte by lia. reflexivity. }
    rewrite Hcheck, Hlow, Hhigh. cbn [Z.eqb].
    rewrite Z.shiftl_mul_pow2 by lia. reflexivity.
Qed.

Lemma integers_aux_encodeAll vs :
  Forall (fun v => 0 <= v <= u128_MAX) vs ->
  Varint.integers_aux (Varint.encodeAll vs) 0 O = Some vs.
Proof.
  induction 1 as [|v vs Hv _ IH]; [reflexivity|].
  unfold Varint.encodeAll in *. cbn [map concat].
  change (Varint.encode v) with (Varint.encode_aux 19 v).
  rewrite integers_aux_encode.
  - rewrite IH. cbn [option_map]. f_equal. f_equal.
    change (2 ^ (7 * Z.of_nat 0)) with 1. lia.
  - unfold u128_MAX in Hv. change (2 ^ (7 * Z.of_nat 19)) with (2 ^ 133).
    assert (2 ^ 128 < 2 ^ 133) by (apply Z.pow_lt_mono_r; lia). lia.
  - unfold u128_MAX in Hv. change (128 - 7 * Z.of_nat 0) with 128. lia.
  - lia.
  - lia.
Qed.

(** Every list of 128-bit integers is read back from its varints. *)
Lemma integers_encodeAll vs :
  Forall (fun v => 0 <= v <= u128_MAX) vs ->
  Varint.integers (Varint.encodeAll vs) = Some vs.
Proof. apply integers_aux_encodeAll. Qed.

(* ================================================================== *)
(** * Scripts: reading the pushes of a framed payload *)

(** Reading one push written by [Script.push]. *)
Lemma pushes_push fuel chunk rest p :
  (length chunk <= Script.MAX_SCRIPT_ELEMENT_SIZE)%nat ->
  Script.pushes fuel rest = inr p ->
  Script.pushes (S fuel) (Script.push chunk ++ rest) = inr (chunk ++ p).
Proof.
  intros Hlen Hrest. unfold Script.MAX_SCRIPT_ELEMENT_SIZE in Hlen.
  assert (Hdata : forall n,
             n = Z.of_nat (length chunk) ->
             (if (length (chunk ++ rest) <? Z.to_nat n)%nat
              then inl INVALID_SCRIPT
              else
                match
                  Script.pushes fuel (skipn (Z.to_nat n) (chunk ++ rest))
                with
                | inr p0 => inr (firstn (Z.to_nat n) (chunk ++ rest) ++ p0)
                | inl flaw => inl flaw
                end) = inr (chunk ++ p)).
  { intros n ->. rewrite Nat2Z.id.
    replace (length (chunk ++ rest) <? length chunk)%nat with false
      by (symmetry; apply Nat.ltb_ge; rewrite length_app; lia).
    rewrite skipn_app, skipn_all, Nat.sub_diag, firstn_app, firstn_all,
      Nat.sub_diag.
    cbn [skipn firstn app]. rewrite Hrest, app_nil_r. reflexivity. }
  unfold Script.push.
  destruct (Z.of_nat (length chunk) <=? 75) eqn:E1.
  - apply Z.leb_le in E1. cbn [app Script.pushes].
    replace ((0 <=? Z.of_nat (length chunk))
             && (Z.of_nat (length chunk) <=? 75)) with true
      by (symmetry; apply andb_true_iff; split; apply Z.leb_le; lia).
    now apply Hdata.
  - apply Z.leb_gt in E1.
    destruct (Z.of_nat (length chunk) <=? 255) eqn:E2.
    + cbn [app Script.pushes]. cbn [Z.leb Z.compare andb Z.eqb Pos.eqb].
      now apply Hdata.
    + apply Z.leb_gt in E2. cbn [app Script.pushes].
      cbn [Z.leb Z.compare andb Z.eqb Pos.eqb].
      apply Hdata. pose proof (Z.div_mod (Z.of_nat (length chunk)) 256). lia.
Qed.

Lemma length_push chunk : (1 <= length (Script.push chunk))%nat.
Proof.
  unfold Script.push.
  destruct (_ <=? 75); [|destruct (_ <=? 255)]; cbn [length]; lia.
Qed.

(** The pushes of a payload give the payload back. *)
Lemma pushes_chunks f :
  forall payload fuel,
    (length payload <= f)%nat ->
    (length (concat (map Script.push (Script.chunks f payload))) <= fuel)%nat ->
    Script.pushes fuel (concat (map Script.push (Script.chunks f payload)))
    = inr payload.
Proof.
  induction f as [|f IH]; intros payload fuel Hf Hfuel.
  - destruct payload; [|simpl in Hf; lia]. destruct fuel; reflexivity.
  - destruct payload as [|b payload]; [destruct fuel; reflexivity|].
    cbn [Script.chunks map concat] in *.
    set (chunk := firstn Script.MAX_SCRIPT_ELEMENT_SIZE (b :: payload)) in *.
    set (rest := skipn Script.MAX_SCRIPT_ELEMENT_SIZE (b :: payload)) in *.
    assert (Hsplit : chunk ++ rest = b :: payload)
      by apply firstn_skipn.
    assert (Hchunk : (length chunk <= Script.MAX_SCRIPT_ELEMENT_SIZE)%nat)
      by apply firstn_le_length.
    assert (Hrest : (length rest <= f)%nat).
    { unfold rest. rewrite length_skipn.
      unfold Script.MAX_SCRIPT_ELEMENT_SIZE. cbn [length] in *. lia. }
    rewrite length_app in Hfuel. pose proof (length_push chunk).
    destruct fuel as [|fuel]; [lia|].
    rewrite <- Hsplit. apply pushes_push; [exact Hchunk|].
    apply IH; [exact Hrest | lia].
Qed.

(** The payload of a transaction whose first runestone output is the frame
    of [bytes]. *)
Lemma payload_frame before after bytes :
  Forall (fun script => Script.runestoneBody script = None) before ->
  Script.payload (before ++ Script.frame bytes :: after) = Some (inr bytes).
Proof.
  induction 1 as [|script before Hs _ IH]; cbn [app Script.payload].
  - unfold Script.frame. cbn [Script.runestoneBody].
    rewrite !Z.eqb_refl. cbn [andb]. f_equal.
    apply pushes_chunks; lia.
  - rewrite Hs. exact IH.
Qed.

(* ================================================================== *)
(** * The builder on the fields of an encoded runestone *)

Lemma take_values tag max fs o :
  Message.values tag fs = optList o -> optIn max o ->
  Message.take tag max fs = (o, []).
Proof.
  unfold Message.take. intros -> Hin. destruct o as [v|]; [|reflexivity].
  cbn [optList]. simpl in Hin.
  replace (v <=? max) with true by (symmetry; apply Z.leb_le; lia).
  reflexivity.
Qed.

(** The code point of an accepted symbol gives the symbol back. *)
Lemma symbol_codePoint s :
  symbolOk s ->
  exists cp, codePointAt0 s = Some cp /\ 0 <= cp <= 0x10FFFF
             /\ fromCodePoint cp = s.
Proof.
  intros [Hs Hacc]. destruct s as [|a [|b [|c rest]]].
  - discriminate.
  - simpl in Hs. rewrite andb_true_r in Hs.
    apply andb_true_iff in Hs as [H0 H1]. apply Z.leb_le in H0, H1.
    exists a. split; [reflexivity|]. split; [lia|].
    unfold fromCodePoint.
    replace (a <? 65536) with true by (symmetry; apply Z.ltb_lt; lia).
    reflexivity.
  - simpl in Hs. rewrite andb_true_r in Hs.
    rewrite !andb_true_iff, !Z.leb_le in Hs.
    destruct Hs as ((Ha0 & Ha1) & Hb0 & Hb1).
    unfold symbolAccepted, codePointAt0 in *. simpl length in Hacc.
    cbn [Nat.eqb orb andb] in Hacc.
    destruct (isHighSurrogate a && isLowSurrogate b) eqn:E.
    + unfold isHighSurrogate, isLowSurrogate in E.
      rewrite !andb_true_iff, !Z.leb_le in E.
      eexists. split; [reflexivity|]. split; [lia|].
      unfold fromCodePoint.
      replace (_ <? 65536) with false by (symmetry; apply Z.ltb_ge; lia).
      replace ((a - 55296) * 1024 + (b - 56320) + 65536 - 65536)
        with ((b - 56320) + (a - 55296) * 1024) by lia.
      rewrite Z.div_add, Z.mod_add by lia.
      rewrite Z.div_small, Z.mod_small by lia.
      f_equal; [lia|]. f_equal. lia.
    + cbn [orZero] in Hacc. apply Z.leb_le in Hacc. lia.
  - discriminate.
Qed.

Lemma take_SYMBOL R e :
  etching R = Some e ->
  match symbol e with Some s => symbolOk s | None => True end ->
  exists cp,
    Message.take Tag.SYMBOL 0x10FFFF (encodeFields R) = (cp, [])
    /\ option_map fromCodePoint cp = symbol e.
Proof.
  intros He Hs. destruct (symbol e) as [s|] eqn:Es.
  - destruct (symbol_codePoint s Hs) as (cp & Hcp & Hrange & Hback).
    exists (Some cp). split.
    + apply take_values; [|exact Hrange].
      rewrite values_SYMBOL, He, Es, Hcp. reflexivity.
    + simpl. now rewrite Hback.
  - exists None. split; [|reflexivity].
    apply take_values; [|exact I].
    rewrite values_SYMBOL, He, Es. reflexivity.
Qed.

Lemma decodeTerms_encodeFields R e t :
  etching R = Some e -> terms e = Some t -> termsOk t ->
  decodeTerms (encodeFields R) = (t, []).
Proof.
  intros He Ht (Ha & Hc & Hhs & Hhe & Hos & Hoe). unfold decodeTerms.
  assert (HtR : termsOf R = Some t) by (unfold termsOf; now rewrite He).
  rewrite (take_values Tag.CAP u128_MAX _ (terms_cap t));
    [|now rewrite values_CAP, HtR | exact Hc].
  rewrite (take_values Tag.AMOUNT u128_MAX _ (terms_amount t));
    [|now rewrite values_AMOUNT, HtR | exact Ha].
  rewrite (take_values Tag.HEIGHT_START u64_MAX _ (fst (terms_height t)));
    [|now rewrite values_HEIGHT_START, HtR | exact Hhs].
  rewrite (take_values Tag.HEIGHT_END u64_MAX _ (snd (terms_height t)));
    [|now rewrite values_HEIGHT_END, HtR | exact Hhe].
  rewrite (take_values Tag.OFFSET_START u64_MAX _ (fst (terms_offset t)));
    [|now rewrite values_OFFSET_START, HtR | exact Hos].
  rewrite (take_values Tag.OFFSET_END u64_MAX _ (snd (terms_offset t)));
    [|now rewrite values_OFFSET_END, HtR | exact Hoe].
  destruct t as [am cp [hs he] [os oe]]. reflexivity.
Qed.

(** The flags written for an etching are read back. *)
Lemma flagsOf_bits e :
  Flag.isSet (flagsOf (Some e)) Flag.ETCHING = true
  /\ Flag.isSet (flagsOf (Some e)) Flag.TERMS = isSome (terms e)
  /\ Flag.isSet (flagsOf (Some e)) Flag.TURBO = turbo e
  /\ flagFlaws (flagsOf (Some e)) = [].
Proof.
  unfold flagsOf, flagBit.
  destruct (isSome (terms e)), (turbo e); repeat split; reflexivity.
Qed.

Lemma decodeEtching_encodeFields R e :
  etching R = Some e -> etchingOk e ->
  decodeEtching (flagsOf (Some e)) (encodeFields R) = (e, []).
Proof.
  intros He (Hd & Hr & Hsp & Hsy & Hp & Ht & Hsupply). unfold decodeEtching.
  rewrite (take_values Tag.DIVISIBILITY MAX_DIVISIBILITY _ (divisibility e));
    [|now rewrite values_DIVISIBILITY, He | exact Hd].
  rewrite (take_values Tag.SPACERS u32_MAX _ (spacers e));
    [|now rewrite values_SPACERS, He | exact Hsp].
  rewrite (take_values Tag.RUNE u128_MAX _ (rune e));
    [|now rewrite values_RUNE, He | exact Hr].
  destruct (take_SYMBOL R e He Hsy) as (cp & -> & Hcp).
  rewrite (take_values Tag.PREMINE u128_MAX _ (premine e));
    [|now rewrite values_PREMINE, He | exact Hp].
  destruct (flagsOf_bits e) as (_ & -> & -> & _).
  rewrite Hcp.
  assert (Hterms :
            (if isSome (terms e)
             then let '(t, f) := decodeTerms (encodeFields R) in (Some t, f)
             else (None, [])) = (terms e, [])).
  { destruct (terms e) as [t|] eqn:Et; [|reflexivity].
    cbn [isSome]. now rewrite (decodeTerms_encodeFields R e t He Et Ht). }
  rewrite Hterms.
  replace (mkEtching (divisibility e) (rune e) (spacers e) (symbol e)
             (terms e) (premine e) (turbo e)) with e by (now destruct e).
  rewrite Hsupply. reflexivity.
Qed.

Lemma decodeMint_encodeFields R :
  match mint R with Some m => runeIdOk m | None => True end ->
  decodeMint (encodeFields R) = (mint R, []).
Proof.
  intros Hm. unfold decodeMint. rewrite values_MINT.
  destruct (mint R) as [[b t]|]; [|reflexivity].
  destruct Hm as [Hb Ht]. simpl in *.
  replace (b <=? u64_MAX) with true by (symmetry; apply Z.leb_le; lia).
  replace (t <=? u32_MAX) with true by (symmetry; apply Z.leb_le; lia).
  reflexivity.
Qed.

Lemma decodePointer_encodeFields numOutputs R :
  match pointer R with
  | Some p => 0 <= p <= u32_MAX /\ p < numOutputs
  | None => True
  end ->
  decodePointer numOutputs (encodeFields R) = (pointer R, []).
Proof.
  intros Hp. unfold decodePointer. rewrite values_POINTER.
  destruct (pointer R) as [p|]; [|reflexivity]. cbn [optList].
  replace (p <? numOutputs) with true by (symmetry; apply Z.ltb_lt; lia).
  reflexivity.
Qed.

Lemma existsb_optField (f : Z * Z -> bool) tag o :
  (forall v, f (tag, v) = false) -> existsb f (optField tag o) = false.
Proof.
  intros H. destruct o as [v|]; [|reflexivity]. simpl. now rewrite H.
Qed.

(** Every tag the encoder writes is a recognized one. *)
Lemma evenTagFlaws_encodeFields R : evenTagFlaws (encodeFields R) = [].
Proof.
  unfold evenTagFlaws.
  replace (existsb _ (encodeFields R)) with false; [reflexivity|].
  symmetry.
  unfold encodeFields, etchingFields, termsFields, mintFields.
  cbn [existsb fst]. rewrite !existsb_app.
  destruct (etching R) as [e|]; [destruct (terms e) as [t|]|];
    destruct (mint R) as [m|];
    rewrite ?existsb_app, ?existsb_optField by reflexivity; reflexivity.
Qed.

(** The builder returns the runestone whose fields and edicts it is
    given. *)
Lemma build_encodeFields numOutputs R es :
  match mint R with Some m => runeIdOk m | None => True end ->
  match pointer R with
  | Some p => 0 <= p <= u32_MAX /\ p < numOutputs
  | None => True
  end ->
  match etching R with Some e => etchingOk e | None => True end ->
  build numOutputs (Message.mk [] es (encodeFields R))
  = ArtifactRunestone (mkRunestone (mint R) (pointer R) es (etching R)).
Proof.
  intros Hm Hp He. unfold build.
  cbn [Message.fields Message.flaws Message.edicts].
  rewrite values_FLAGS. cbn [hd_error orZero].
  rewrite (decodeMint_encodeFields R Hm).
  rewrite (decodePointer_encodeFields numOutputs R Hp).
  rewrite evenTagFlaws_encodeFields.
  destruct (etching R) as [e|] eqn:Ee.
  - destruct (flagsOf_bits e) as (-> & _ & _ & ->).
    rewrite (decodeEtching_encodeFields R e Ee He). reflexivity.
  - reflexivity.
Qed.

(* ================================================================== *)
(** * Messages: parsing the integers of an encoded runestone *)

Lemma fromIntegers_pairs numOutputs fs rest :
  Forall (fun p => fst p <> 0) fs ->
  Message.fromIntegers numOutputs (pairIntegers fs ++ Tag.BODY :: rest)
  = let '(fl, es) :=
      Message.resolveEdicts numOutputs (mkRuneId 0 0) rest in
    Message.mk fl es fs.
Proof.
  induction 1 as [|[tag v] fs Htag _ IH].
  - cbn [pairIntegers map concat app Message.fromIntegers].
    rewrite Z.eqb_refl. reflexivity.
  - unfold pairIntegers in *. cbn [map concat app fst snd Message.fromIntegers].
    simpl in Htag. apply Z.eqb_neq in Htag. unfold Tag.BODY in *.
    rewrite Htag, IH.
    destruct (Message.resolveEdicts numOutputs (mkRuneId 0 0) rest).
    reflexivity.
Qed.

Lemma Forall_app_intro {A : Type} (P : A -> Prop) l1 l2 :
  Forall P l1 -> Forall P l2 -> Forall P (l1 ++ l2).
Proof. intros H1 H2. apply Forall_app. split; assumption. Qed.

Lemma Forall_optField (P : Z * Z -> Prop) tag o :
  (forall v, o = Some v -> P (tag, v)) -> Forall P (optField tag o).
Proof.
  intros H. destruct o as [v|]; constructor; [now apply H | constructor].
Qed.

(** The properties shared by all the pairs an encoded runestone is made
    of. *)
Lemma Forall_encodeFields (P : Z * Z -> Prop) R :
  P (Tag.FLAGS, flagsOf (etching R)) ->
  (forall e, etching R = Some e ->
     (forall v, divisibility e = Some v -> P (Tag.DIVISIBILITY, v))
     /\ (forall v, spacers e = Some v -> P (Tag.SPACERS, v))
     /\ (forall v, rune e = Some v -> P (Tag.RUNE, v))
     /\ (forall s v, symbol e = Some s -> codePointAt0 s = Some v ->
                     P (Tag.SYMBOL, v))
     /\ (forall v, premine e = Some v -> P (Tag.PREMINE, v))
     /\ (forall t, terms e = Some t ->
           (forall v, terms_cap t = Some v -> P (Tag.CAP, v))
           /\ (forall v, terms_amount t = Some v -> P (Tag.AMOUNT, v))
           /\ (forall v, fst (terms_height t) = Some v ->
                         P (Tag.HEIGHT_START, v))
           /\ (forall v, snd (terms_height t) = Some v ->
                         P (Tag.HEIGHT_END, v))
           /\ (forall v, fst (terms_offset t) = Some v ->
                         P (Tag.OFFSET_START, v))
           /\ (forall v, snd (terms_offset t) = Some v ->
                         P (Tag.OFFSET_END, v)))) ->
  (forall m, mint R = Some m -> P (Tag.MINT, block m) /\ P (Tag.MINT, tx m)) ->
  (forall v, pointer R = Some v -> P (Tag.POINTER, v)) ->
  Forall P (encodeFields R).
Proof.
  intros Hflags He Hm Hp. unfold encodeFields.
  constructor; [exact Hflags|].
  apply Forall_app_intro; [|apply Forall_app_intro].
  - unfold etchingFields. destruct (etching R) as [e|]; [|constructor].
    destruct (He e eq_refl) as (Hd & Hs & Hr & Hsy & Hpr & Ht).
    repeat (apply Forall_app_intro; [apply Forall_optField; assumption|]).
    apply Forall_app_intro; [|apply Forall_app_intro].
    + apply Forall_optField. intros v Hv.
      destruct (symbol e) as [s|]; [|discriminate]. now apply (Hsy s).
    + apply Forall_optField; assumption.
    + unfold termsFields. destruct (terms e) as [t|]; [|constructor].
      destruct (Ht t eq_refl) as (H1 & H2 & H3 & H4 & H5 & H6).
      repeat (apply Forall_app_intro; [apply Forall_optField; assumption|]).
      apply Forall_optField; assumption.
  - unfold mintFields. destruct (mint R) as [m|]; [|constructor].
    destruct (Hm m eq_refl). repeat constructor; assumption.
  - apply Forall_optField. exact Hp.
Qed.

Lemma flagsOf_range e : 0 <= flagsOf e <= 7.
Proof.
  destruct e as [e|]; [|simpl; lia]. unfold flagsOf, flagBit.
  destruct (isSome (terms e)), (turbo e); cbn; lia.
Qed.

Lemma encodeFields_tags R : Forall (fun p => fst p <> 0) (encodeFields R).
Proof.
  apply Forall_encodeFields; cbn [fst]; try discriminate;
    intros; repeat split; intros; discriminate.
Qed.

Lemma Forall_pairIntegers (P : Z -> Prop) fs :
  Forall (fun p => P (fst p) /\ P (snd p)) fs -> Forall P (pairIntegers fs).
Proof.
  unfold pairIntegers. induction 1 as [|p fs [H1 H2] _ IH]; [constructor|].
  cbn [map concat app]. repeat constructor; assumption.
Qed.

(** Every tag and value of an encoded runestone is a 128-bit integer. *)
Lemma encodeFields_range numOutputs R :
  runestoneOk numOutputs R ->
  Forall (fun p => (0 <= fst p <= u128_MAX) /\ (0 <= snd p <= u128_MAX))
    (encodeFields R).
Proof.
  intros (Hm & Hp & _ & _ & He).
  assert (H64 : u64_MAX <= u128_MAX) by (unfold u64_MAX, u128_MAX; lia).
  assert (H32 : u32_MAX <= u128_MAX) by (unfold u32_MAX, u128_MAX; lia).
  assert (H38 : MAX_DIVISIBILITY <= u128_MAX)
    by (unfold MAX_DIVISIBILITY, u128_MAX; lia).
  assert (Htag : forall t, 0 <= t <= 127 -> 0 <= t <= u128_MAX)
    by (unfold u128_MAX; lia).
  apply Forall_encodeFields; cbn [fst snd].
  - pose proof (flagsOf_range (etching R)).
    split; [apply Htag; split; apply Z.leb_le; reflexivity|].
    unfold u128_MAX. lia.
  - intros e Ee. rewrite Ee in He.
    destruct He as (Hd & Hr & Hs & Hsy & Hpr & Ht & _).
    assert (Hsym : forall s v, symbol e = Some s -> codePointAt0 s = Some v ->
                               0 <= v <= u128_MAX).
    { intros s v Hs' Hv. rewrite Hs' in Hsy.
      destruct (symbol_codePoint s Hsy) as (cp & Hcp & Hrange & _).
      assert (v = cp) by congruence. subst v. unfold u128_MAX. lia. }
    split; [|split; [|split; [|split; [|split]]]].
    + intros v Hv. rewrite Hv in Hd. cbn [optIn] in Hd.
      split; [apply Htag; split; apply Z.leb_le; reflexivity | lia].
    + intros v Hv. rewrite Hv in Hs. cbn [optIn] in Hs.
      split; [apply Htag; split; apply Z.leb_le; reflexivity | lia].
    + intros v Hv. rewrite Hv in Hr. cbn [optIn] in Hr.
      split; [apply Htag; split; apply Z.leb_le; reflexivity | lia].
    + intros s v Hs' Hv.
      split; [apply Htag; split; apply Z.leb_le; reflexivity|].
      now apply (Hsym s).
    + intros v Hv. rewrite Hv in Hpr. cbn [optIn] in Hpr.
      split; [apply Htag; split; apply Z.leb_le; reflexivity | lia].
    + intros t Et. rewrite Et in Ht.
      destruct Ht as (H1 & H2 & H3 & H4 & H5 & H6).
      split; [|split; [|split; [|split; [|split]]]]; intros v Hv;
        match goal with
        | H : optIn _ ?o, Hv : ?o = Some _ |- _ =>
            rewrite Hv in H; cbn [optIn] in H
        end;
        (split; [apply Htag; split; apply Z.leb_le; reflexivity | lia]).
  - intros m Em. rewrite Em in Hm. destruct Hm as [Hb Ht].
    split; (split; [apply Htag; split; apply Z.leb_le; reflexivity | lia]).
  - intros v Ev. rewrite Ev in Hp.
    split; [apply Htag; split; apply Z.leb_le; reflexivity | lia].
Qed.

(* ================================================================== *)
(** * Edicts: deltas, order and resolution *)

Lemma RuneId_next_delta prev next :
  runeIdOk next ->
  let '(blockDelta, txDelta) := RuneId_delta prev next in
  RuneId_next prev blockDelta txDelta = Some next.
Proof.
  intros [Hb Ht]. unfold RuneId_delta, RuneId_next.
  destruct next as [b t], prev as [pb pt]. cbn [block tx] in *.
  replace (pb + (b - pb)) with b by lia.
  destruct (b - pb =? 0); [replace (pt + (t - pt)) with t by lia|];
    (replace (b <=? u64_MAX) with true by (symmetry; apply Z.leb_le; lia));
    (replace (t <=? u32_MAX) with true by (symmetry; apply Z.leb_le; lia));
    reflexivity.
Qed.

(** The edicts written as deltas are read back, without a flaw. *)
Lemma resolveEdicts_edictIntegers numOutputs es :
  Forall (edictOk numOutputs) es ->
  forall prev,
    Message.resolveEdicts numOutputs prev (edictIntegers prev es) = ([], es).
Proof.
  induction 1 as [|e es He _ IH]; intros prev; [reflexivity|].
  destruct He as (Hid & Hzero & _ & _ & Hout).
  cbn [edictIntegers].
  pose proof (RuneId_next_delta prev (id e) Hid) as Hnext.
  destruct (RuneId_delta prev (id e)) as [blockDelta txDelta].
  cbn [Message.resolveEdicts]. rewrite Hnext, IH.
  assert (Hz : ((block (id e) =? 0) && negb (tx (id e) =? 0)) = false).
  { destruct (block (id e) =? 0) eqn:Eb; [|reflexivity].
    destruct (tx (id e) =? 0) eqn:Et; [reflexivity|].
    apply Z.eqb_eq in Eb. apply Z.eqb_neq in Et. tauto. }
  rewrite Hz.
  replace (numOutputs <? output e) with false
    by (symmetry; apply Z.ltb_ge; lia).
  destruct e as [i a o]. reflexivity.
Qed.

Lemma RuneId_leb_le a b :
  RuneId_leb a b = true ->
  block a <= block b /\ (block a = block b -> tx a <= tx b).
Proof.
  unfold RuneId_leb. rewrite orb_true_iff, andb_true_iff.
  rewrite Z.ltb_lt, Z.eqb_eq, Z.leb_le. lia.
Qed.

(** The integers of edicts in ascending order are 128-bit integers. *)
Lemma edictIntegers_range numOutputs es :
  Forall (edictOk numOutputs) es ->
  forall prev,
    runeIdOk prev -> ascending prev es ->
    Forall (fun v => 0 <= v <= u128_MAX) (edictIntegers prev es).
Proof.
  assert (H64 : u64_MAX <= u128_MAX) by (unfold u64_MAX, u128_MAX; lia).
  assert (H32 : u32_MAX <= u128_MAX) by (unfold u32_MAX, u128_MAX; lia).
  induction 1 as [|e es He _ IH]; intros prev Hprev Hasc; [constructor|].
  destruct He as (Hid & _ & Ham & Hout & _).
  destruct Hasc as [Hle Hasc]. apply RuneId_leb_le in Hle.
  destruct Hid as [Hb Ht]. destruct Hprev as [Hpb Hpt].
  cbn [edictIntegers]. unfold RuneId_delta.
  constructor; [lia|]. constructor.
  - destruct (block (id e) - block prev =? 0) eqn:E.
    + apply Z.eqb_eq in E. lia.
    + lia.
  - constructor; [lia|]. constructor; [lia|].
    apply IH; [split; assumption | exact Hasc].
Qed.

(** Edicts already in ascending order are left in place by the sort. *)
Lemma sortEdicts_ascending es :
  forall prev, ascending prev es -> sortEdicts es = es.
Proof.
  induction es as [|e es IH]; intros prev Hasc; [reflexivity|].
  destruct Hasc as [_ Hasc]. unfold sortEdicts in *. cbn [fold_right].
  rewrite (IH (id e) Hasc).
  destruct es as [|x es]; [reflexivity|].
  destruct Hasc as [Hle _]. cbn [insertEdict]. now rewrite Hle.
Qed.

(* ================================================================== *)
(** * Deciphering an enciphered runestone *)

Lemma messageIntegers_range numOutputs R :
  runestoneOk numOutputs R ->
  Forall (fun v => 0 <= v <= u128_MAX) (messageIntegers R).
Proof.
  intros HR. pose proof (encodeFields_range numOutputs R HR) as Hf.
  destruct HR as (_ & _ & Hes & Hasc & _).
  unfold messageIntegers. apply Forall_app_intro.
  - apply Forall_pairIntegers. exact Hf.
  - constructor; [unfold Tag.BODY, u128_MAX; lia|].
    rewrite (sortEdicts_ascending _ _ Hasc).
    apply (edictIntegers_range numOutputs); [exact Hes | | exact Hasc].
    unfold runeIdOk, u64_MAX, u32_MAX. simpl. lia.
Qed.

Lemma fromIntegers_messageIntegers numOutputs R :
  runestoneOk numOutputs R ->
  Message.fromIntegers numOutputs (messageIntegers R)
  = Message.mk [] (edicts R) (encodeFields R).
Proof.
  intros (_ & _ & Hes & Hasc & _). unfold messageIntegers.
  rewrite (fromIntegers_pairs _ _ _ (encodeFields_tags R)).
  rewrite (sortEdicts_ascending _ _ Hasc).
  now rewrite (resolveEdicts_edictIntegers numOutputs _ Hes).
Qed.

(** The codec: a runestone whose fields are in their domains and that fits
    the transaction is deciphered from its encoding as it was. *)
Lemma decipher_encipher before after R :
  Forall (fun script => Script.runestoneBody script = None) before ->
  runestoneOk (Z.of_nat (length (before ++ encipher R :: after))) R ->
  decipher (before ++ encipher R :: after) = Some (ArtifactRunestone R).
Proof.
  intros Hbefore HR. unfold decipher, encipher in *.
  rewrite (payload_frame _ _ _ Hbefore).
  rewrite (integers_encodeAll _ (messageIntegers_range _ _ HR)).
  cbv zeta. rewrite (fromIntegers_messageIntegers _ _ HR).
  destruct HR as (Hm & Hp & _ & _ & He).
  rewrite (build_encodeFields _ R (edicts R) Hm Hp He).
  destruct R. reflexivity.
Qed.

(* ================================================================== *)
(** * Rune names: the name of the rune of a name *)

Lemma letters_fold l :
  forallb isLetter l = true ->
  forall fuel acc,
    (length l <= fuel)%nat ->
    Rune.letters fuel (fold_left Rune.step l (-1)) acc = l ++ acc.
Proof.
  induction l as [|c l IH] using rev_ind; intros Hl fuel acc Hfuel.
  - destruct fuel; reflexivity.
  - rewrite forallb_app in Hl. apply andb_true_iff in Hl as [Hl Hc].
    cbn [forallb] in Hc. rewrite andb_true_r in Hc.
    unfold isLetter, letter_A, letter_Z in Hc.
    apply andb_true_iff in Hc as [Hc0 Hc1]. apply Z.leb_le in Hc0, Hc1.
    rewrite length_app in Hfuel. cbn [length] in Hfuel.
    destruct fuel as [|fuel]; [lia|].
    rewrite fold_left_app. cbn [fold_left].
    pose proof (step_fold_lower l (-1) Hl) as Hlow.
    set (x := fold_left Rune.step l (-1)) in *.
    assert (Hx : -1 <= x) by (apply Hlow; lia).
    unfold Rune.step, letter_A. cbn [Rune.letters].
    replace ((x + 1) * 26 + (c - 65) <? 0) with false
      by (symmetry; apply Z.ltb_ge; lia).
    replace ((x + 1) * 26 + (c - 65)) with ((c - 65) + (x + 1) * 26) by lia.
    rewrite Z.div_add, Z.mod_add by lia.
    rewrite Z.div_small, Z.mod_small by lia.
    replace (0 + (x + 1) - 1) with x by lia.
    unfold letter_A. replace (65 + (c - 65)) with c by lia.
    unfold x. rewrite IH by (assumption || lia).
    now rewrite <- app_assoc.
Qed.

(** The name of the rune read from a name of letters is that name. *)
Lemma Rune_toString_fromString l v :
  Rune.fromString l = Some v -> Rune.toString v = l.
Proof.
  unfold Rune.fromString, Rune.toString.
  destruct (forallb isLetter l && (1 <=? length l)%nat
            && (length l <=? Rune.MAX_LENGTH)%nat) eqn:E; [|discriminate].
  cbv zeta. destruct (_ <=? u128_MAX); [|discriminate].
  intros H. injection H as <-.
  apply andb_true_iff in E as [E Hmax]. apply andb_true_iff in E as [Hl _].
  apply Nat.leb_le in Hmax.
  rewrite letters_fold by assumption. apply app_nil_r.
Qed.

Lemma testbit_mask marks :
  forall i j,
    0 <= i -> 0 <= j ->
    Z.testbit (SpacedRune.mask i marks) j
    = (i <=? j) && nth (Z.to_nat (j - i)) marks false.
Proof.
  induction marks as [|b marks IH]; intros i j Hi Hj.
  - cbn [SpacedRune.mask]. rewrite Z.bits_0.
    destruct (Z.to_nat (j - i)); now rewrite andb_false_r.
  - cbn [SpacedRune.mask]. rewrite Z.lor_spec, IH by lia.
    assert (Hbit : Z.testbit (if b then Z.shiftl 1 i else 0) j
                   = b && (i =? j)).
    { destruct b; [|now rewrite Z.bits_0].
      rewrite Z.shiftl_1_l, Z.pow2_bits_eqb by lia. reflexivity. }
    rewrite Hbit.
    destruct (Z.compare_spec i j) as [Heq|Hlt|Hgt].
    + subst j. rewrite Z.eqb_refl, Z.sub_diag. cbn [Z.to_nat nth].
      replace (i + 1 <=? i) with false by (symmetry; apply Z.leb_gt; lia).
      replace (i <=? i) with true by (symmetry; apply Z.leb_le; lia).
      now rewrite andb_true_r, orb_false_r.
    + replace (i =? j) with false by (symmetry; apply Z.eqb_neq; lia).
      replace (i + 1 <=? j) with true by (symmetry; apply Z.leb_le; lia).
      replace (i <=? j) with true by (symmetry; apply Z.leb_le; lia).
      replace (Z.to_nat (j - i)) with (S (Z.to_nat (j - (i + 1)))) by lia.
      now rewrite andb_false_r.
    + replace (i =? j) with false by (symmetry; apply Z.eqb_neq; lia).
      replace (i + 1 <=? j) with false by (symmetry; apply Z.leb_gt; lia).
      replace (i <=? j) with false by (symmetry; apply Z.leb_gt; lia).
      now rewrite andb_false_r.
Qed.

Lemma split_cons_nonempty c s pairs :
  SpacedRune.split (c :: s) = Some pairs -> pairs <> [].
Proof.
  destruct s as [|b rest].
  - rewrite split_cons1. destruct (isLetter c); [|discriminate].
    intros H. injection H as <-. discriminate.
  - rewrite split_cons2. destruct (isLetter c); [|discriminate].
    destruct (b =? BULLET).
    + destruct (SpacedRune.split rest); [|discriminate].
      intros H. injection H as <-. discriminate.
    + destruct (SpacedRune.split (b :: rest)); [|discriminate].
      intros H. injection H as <-. discriminate.
Qed.

Lemma render_cons2 i spacers c d rest :
  SpacedRune.render i spacers (c :: d :: rest)
  = c :: (if Z.testbit spacers i then [BULLET] else [])
      ++ SpacedRune.render (i + 1) spacers (d :: rest).
Proof. reflexivity. Qed.

(** Rendering the letters of a split name with its marks gives the name
    back. *)
Lemma render_split n :
  forall s pairs i spacers,
    (length s <= n)%nat ->
    SpacedRune.split s = Some pairs ->
    snd (last pairs (0, false)) = false ->
    0 <= i ->
    (forall k, (k < length pairs)%nat ->
               Z.testbit spacers (i + Z.of_nat k)
               = snd (nth k pairs (0, false))) ->
    SpacedRune.render i spacers (map fst pairs) = s.
Proof.
  induction n as [|n IH]; intros s pairs i spacers Hn Hsplit Hlast Hi Hbits.
  - destruct s; [|simpl in Hn; lia]. injection Hsplit as <-. reflexivity.
  - destruct s as [|c [|b rest]].
    + injection Hsplit as <-. reflexivity.
    + rewrite split_cons1 in Hsplit. destruct (isLetter c); [|discriminate].
      injection Hsplit as <-. reflexivity.
    + rewrite split_cons2 in Hsplit. destruct (isLetter c); [|discriminate].
      destruct (b =? BULLET) eqn:Eb.
      * apply Z.eqb_eq in Eb. subst b.
        destruct (SpacedRune.split rest) as [ps|] eqn:Eps; [|discriminate].
        injection Hsplit as <-.
        destruct ps as [|p ps]; [discriminate Hlast|].
        cbn [map fst]. rewrite render_cons2.
        pose proof (Hbits O) as H0. cbn [length nth snd] in H0.
        rewrite Z.add_0_r in H0. rewrite H0 by lia.
        cbn [app]. f_equal. f_equal.
        change (fst p :: map fst ps) with (map fst (p :: ps)).
        apply IH;
          [cbn [length] in Hn |- *; lia | exact Eps | exact Hlast | lia |].
        intros k Hk. specialize (Hbits (S k)).
        replace (i + 1 + Z.of_nat k) with (i + Z.of_nat (S k)) by lia.
        apply Hbits. cbn [length] in *. lia.
      * destruct (SpacedRune.split (b :: rest)) as [ps|] eqn:Eps;
          [|discriminate].
        injection Hsplit as <-.
        pose proof (split_cons_nonempty _ _ _ Eps) as Hne.
        destruct ps as [|p ps]; [congruence|].
        cbn [map fst]. rewrite render_cons2.
        pose proof (Hbits O) as H0. cbn [length nth snd] in H0.
        rewrite Z.add_0_r in H0. rewrite H0 by lia.
        cbn [app]. f_equal.
        change (fst p :: map fst ps) with (map fst (p :: ps)).
        apply IH;
          [cbn [length] in Hn |- *; lia | exact Eps | exact Hlast | lia |].
        intros k Hk. specialize (Hbits (S k)).
        replace (i + 1 + Z.of_nat k) with (i + Z.of_nat (S k)) by lia.
        apply Hbits. cbn [length] in *. lia.
Qed.

(** The name of the spaced rune read from a name is that name. *)
Lemma SpacedRune_toString_fromString s sr :
  SpacedRune.fromString s = Some sr -> SpacedRune.toString sr = s.
Proof.
  unfold SpacedRune.fromString, SpacedRune.toString.
  destruct (SpacedRune.split s) as [pairs|] eqn:Esplit; [|discriminate].
  destruct (snd (last pairs (0, false))) eqn:Elast; [discriminate|].
  destruct (Rune.fromString (map fst pairs)) as [v|] eqn:Ev; [|discriminate].
  intros H. injection H as <-. cbn [SpacedRune.rune SpacedRune.spacers].
  rewrite (Rune_toString_fromString _ _ Ev).
  apply (render_split (length s)); try assumption; try lia.
  intros k Hk. rewrite testbit_mask by lia.
  rewrite Z.add_0_l, Z.sub_0_r, Nat2Z.id.
  replace (0 <=? Z.of_nat k) with true by (symmetry; apply Z.leb_le; lia).
  cbn [andb]. change false with (snd (0, false)). apply map_nth.
Qed.

(* ================================================================== *)
(** * From the spec to the runestone and back *)

Lemma optInRange_optIn max o : optInRange max o = true -> optIn max o.
Proof.
  destruct o as [v|]; simpl; [|trivial]. now rewrite inRange_true.
Qed.

Lemma strictTerms_termsOk ts t : strictTerms ts = Ok t -> termsOk t.
Proof.
  intros H. apply strictTerms_Ok in H.
  destruct H as (Hb & Ha & Hc & Hh & Ho & _).
  unfold termsInBounds in Hb. rewrite !andb_true_iff in Hb.
  destruct Hb as (((Hba & Hbc) & Hbh) & Hbo).
  unfold termsOk. rewrite Ha, Hc, Hh, Ho.
  repeat split; try (now apply optInRange_optIn).
  - destruct (t_height ts) as [range|]; simpl in *; [|exact I].
    apply andb_true_iff in Hbh as [H _]. now apply optInRange_optIn.
  - destruct (t_height ts) as [range|]; simpl in *; [|exact I].
    apply andb_true_iff in Hbh as [_ H]. now apply optInRange_optIn.
  - destruct (t_offset ts) as [range|]; simpl in *; [|exact I].
    apply andb_true_iff in Hbo as [H _]. now apply optInRange_optIn.
  - destruct (t_offset ts) as [range|]; simpl in *; [|exact I].
    apply andb_true_iff in Hbo as [_ H]. now apply optInRange_optIn.
Qed.

(** The etching built from a canonical spec is one the codec carries. *)
Lemma strictEtching_etchingOk es e c :
  strictEtching es = Ok (e, c) -> canonicalEtching es = true -> etchingOk e.
Proof.
  intros H Hcan. apply strictEtching_Ok in H.
  destruct H as (Hname & Hsym & Hd & _ & Hdmax & Hp & Hpr & Ht & _ & Hsp).
  unfold canonicalEtching in Hcan. rewrite !andb_true_iff in Hcan.
  destruct Hcan as (((((_ & _) & _) & Hstr) & _) & Hsupply).
  unfold etchingOk. rewrite Hd, Hp.
  split; [now apply optInRange_optIn|]. split; [|split; [exact Hsp|]].
  { destruct (e_runeName es) as [[|u name]|].
    - destruct Hname as (-> & _). exact I.
    - destruct Hname as (sr & Hsr & -> & _).
      exact (SpacedRune_fromString_range _ _ Hsr).
    - destruct Hname as (-> & _). exact I. }
  split.
  { destruct (e_symbol es) as [[|u s]|].
    - rewrite Hsym. exact I.
    - destruct Hsym as [Hacc ->]. split; assumption.
    - rewrite Hsym. exact I. }
  split; [now apply optInRange_optIn|]. split.
  { destruct (e_terms es) as [ts|].
    - destruct Ht as (t & Ht & ->). eapply strictTerms_termsOk; eassumption.
    - rewrite Ht. exact I. }
  (* the supply *)
  unfold specSupplyFits in Hsupply. apply Z.leb_le in Hsupply.
  unfold supplyOverflows. rewrite Hp.
  assert (Hp0 : 0 <= orZero (e_premine es)).
  { destruct (e_premine es) as [v|]; simpl in *; [|lia].
    apply inRange_true in Hpr. lia. }
  destruct (e_terms es) as [ts|].
  - destruct Ht as (t & Ht & ->). apply strictTerms_Ok in Ht.
    destruct Ht as (_ & -> & -> & _ & _ & Hm).
    apply orb_false_iff. split; apply Z.ltb_ge; lia.
  - rewrite Ht. apply orb_false_iff.
    split; apply Z.ltb_ge; [unfold u128_MAX|]; lia.
Qed.

Lemma rangeSpec_canonical x :
  canonicalRange x = true ->
  rangeSpec match x with
            | Some range => (r_start range, r_end range)
            | None => (None, None)
            end = x.
Proof.
  destruct x as [[s e]|]; [|reflexivity]. unfold canonicalRange, rangeSpec.
  simpl. now intros ->.
Qed.

(** The spec read from the etching built from a canonical spec is that
    spec. *)
Lemma strictEtching_etchingSpec es e c :
  strictEtching es = Ok (e, c) -> canonicalEtching es = true ->
  etchingSpec e = es.
Proof.
  intros H Hcan. apply strictEtching_Ok in H.
  destruct H as (Hname & Hsym & Hd & _ & _ & Hp & _ & Ht & Hturbo & _).
  unfold canonicalEtching in Hcan. rewrite !andb_true_iff in Hcan.
  destruct Hcan as (((((Htu & Hn) & Hs) & _) & Hranges) & _).
  unfold etchingSpec. rewrite Hd, Hp, Hturbo.
  assert (Hname' :
            match rune e with
            | Some r =>
                Some (SpacedRune.toString
                        (SpacedRune.mk r (orZero (spacers e))))
            | None => None
            end = e_runeName es).
  { destruct (e_runeName es) as [[|u name]|]; [discriminate Hn| |].
    - destruct Hname as (sr & Hsr & -> & -> & _).
      assert (Hz : orZero (if SpacedRune.spacers sr =? 0 then None
                           else Some (SpacedRune.spacers sr))
                   = SpacedRune.spacers sr).
      { destruct (SpacedRune.spacers sr =? 0) eqn:E; [|reflexivity].
        apply Z.eqb_eq in E. now rewrite E. }
      rewrite Hz. f_equal.
      replace (SpacedRune.mk (SpacedRune.rune sr) (SpacedRune.spacers sr))
        with sr by (now destruct sr).
      now apply SpacedRune_toString_fromString.
    - now destruct Hname as (-> & _). }
  assert (Hsym' : symbol e = e_symbol es).
  { destruct (e_symbol es) as [[|u s]|]; [discriminate Hs| |].
    - now destruct Hsym.
    - exact Hsym. }
  assert (Hterms : option_map termsSpec (terms e) = e_terms es).
  { destruct (e_terms es) as [ts|].
    - destruct Ht as (t & Ht & ->). apply strictTerms_Ok in Ht.
      destruct Ht as (_ & Ha & Hc & Hh & Ho & _).
      apply andb_true_iff in Hranges as [Hrh Hro].
      simpl. unfold termsSpec. rewrite Ha, Hc, Hh, Ho.
      rewrite (rangeSpec_canonical _ Hrh), (rangeSpec_canonical _ Hro).
      now destruct ts.
    - now rewrite Ht. }
  rewrite Hname', Hsym', Hterms.
  destruct es as [n d p s t [b|]]; [reflexivity | discriminate Htu].
Qed.

Lemma edicts_edictOk numOutputs L :
  forallb edictInBounds (map edictSpec L) = true ->
  forallb edictIdValid (map edictSpec L) = true ->
  forallb (fun e => ed_output e <=? numOutputs) (map edictSpec L) = true ->
  Forall (edictOk numOutputs) L.
Proof.
  induction L as [|e L IH]; cbn [map forallb]; intros Hb Hv Ho;
    [constructor|].
  apply andb_true_iff in Hb as [Hb Hbs]. apply andb_true_iff in Hv as [Hv Hvs].
  apply andb_true_iff in Ho as [Ho Hos].
  constructor; [|now apply IH].
  unfold edictInBounds, runeIdInBounds, edictSpec, runeIdSpec in Hb.
  cbn [ed_id ed_amount ed_output id_block id_tx] in Hb.
  rewrite !andb_true_iff, !inRange_true in Hb.
  destruct Hb as (((Hblock & Htx) & Ham) & Hout).
  unfold edictIdValid, edictSpec, runeIdSpec in Hv.
  cbn [ed_id id_block id_tx] in Hv.
  unfold edictSpec in Ho. cbn [ed_output] in Ho. apply Z.leb_le in Ho.
  unfold edictOk, runeIdOk. repeat split; lia.
Qed.

Lemma edicts_ascending L :
  forall prev,
    edictsAscending (runeIdSpec prev) (map edictSpec L) = true ->
    ascending prev L.
Proof.
  induction L as [|e L IH]; intros prev H; [exact I|].
  cbn [map edictsAscending] in H. apply andb_true_iff in H as [Hle H].
  split; [exact Hle|]. apply IH. exact H.
Qed.

(** The runestone built from a canonical spec that fits the transaction is
    one the codec carries. *)
Lemma buildRunestone_runestoneOk numOutputs r R c :
  buildRunestone r = Ok (R, c) -> canonical r = true ->
  fitsOutputs numOutputs r = true ->
  runestoneOk numOutputs R.
Proof.
  intros H Hcan Hfit. apply buildRunestone_Ok in H.
  destruct H as (Hm & Hmb & Hp & Hpb & He & Heb & Het).
  unfold canonical in Hcan. apply andb_true_iff in Hcan as [Hce Hcet].
  unfold fitsOutputs in Hfit. apply andb_true_iff in Hfit as [Hfp Hfe].
  unfold runestoneOk. split; [|split; [|split; [|split]]].
  - destruct (mint R) as [i|]; [|exact I].
    destruct (s_mint r) as [m|]; [|discriminate].
    injection Hm as <-. unfold runeIdInBounds, runeIdSpec in Hmb.
    cbn [id_block id_tx] in Hmb.
    rewrite andb_true_iff, !inRange_true in Hmb. exact Hmb.
  - rewrite Hp. destruct (s_pointer r) as [p|]; [|exact I].
    simpl in Hpb. apply inRange_true in Hpb. apply Z.ltb_lt in Hfp. lia.
  - rewrite <- He in Heb, Hfe. apply edicts_edictOk; try assumption.
    destruct (s_edicts r) as [[|e es]|]; [discriminate Hce| |].
    + rewrite He. unfold canonicalEdicts in Hce.
      now apply andb_true_iff in Hce as [_ ?].
    + rewrite He. reflexivity.
  - destruct (s_edicts r) as [[|e es]|]; [discriminate Hce| |].
    + apply (edicts_ascending _ (mkRuneId 0 0)). rewrite He.
      unfold canonicalEdicts in Hce. now apply andb_true_iff in Hce as [? _].
    + destruct (edicts R); [exact I | discriminate].
  - destruct (s_etching r) as [es|].
    + destruct Het as (e & Het & ->).
      eapply strictEtching_etchingOk; eassumption.
    + destruct Het as [-> _]. exact I.
Qed.

(** The spec read from the runestone built from a canonical spec is that
    spec. *)
Lemma buildRunestone_runestoneSpec r R c :
  buildRunestone r = Ok (R, c) -> canonical r = true -> runestoneSpec R = r.
Proof.
  intros H Hcan. apply buildRunestone_Ok in H.
  destruct H as (Hm & _ & Hp & _ & He & _ & Het).
  unfold canonical in Hcan. apply andb_true_iff in Hcan as [Hce Hcet].
  unfold runestoneSpec. rewrite Hm, Hp.
  assert (Hetching : option_map etchingSpec (etching R) = s_etching r).
  { destruct (s_etching r) as [es|].
    - destruct Het as (e & Het & ->). simpl. f_equal.
      eapply strictEtching_etchingSpec; eassumption.
    - now destruct Het as [-> _]. }
  assert (Hedicts : match edicts R with
                    | [] => None
                    | _ :: _ => Some (map edictSpec (edicts R))
                    end = s_edicts r).
  { rewrite He. destruct (s_edicts r) as [[|e es]|]; [discriminate Hce| |].
    - destruct (edicts R); [discriminate He | reflexivity].
    - destruct (edicts R); [reflexivity | discriminate He]. }
  rewrite Hetching, Hedicts. now destruct r.
Qed.

(* ================================================================== *)
(** * Decoding an encoding *)

(** C1, as amended.  For every spec in canonical form that
    [encodeRunestone] accepts, and every transaction that carries the
    encoded script as its first [OP_RETURN OP_13] output and that the spec
    fits (pointer below the output count, no edict output above it),
    [tryDecodeRunestone] returns a [RunestoneSpec] equal to the spec.
    Canonical form: [edicts] absent or a non-empty list in ascending order
    of rune ids, none of block 0 with a tx other than 0; in an etching,
    [turbo] present, rune name and symbol not the empty string, every
    [height] or [offset] object with a bound, and premine + amount * cap
    within 128 bits. *)
Theorem decode_encode_canonical r enc tx :
  canonical r = true ->
  encodeRunestone r = Ok enc ->
  carries tx (encodedRunestone enc) ->
  fitsOutputs (Z.of_nat (length tx)) r = true ->
  tryDecodeRunestone tx = Some (DecodedRunestone r).
Proof.
  intros Hcan Henc (before & after & -> & Hbefore) Hfit.
  apply encodeRunestone_Ok in Henc. destruct Henc as (R & Hb & Hbytes).
  rewrite Hbytes in *.
  pose proof (buildRunestone_runestoneOk _ _ _ _ Hb Hcan Hfit) as HR.
  pose proof (decipher_encipher before after R Hbefore HR) as Hdec.
  unfold tryDecodeRunestone. rewrite Hdec. f_equal. f_equal.
  eapply buildRunestone_runestoneSpec; eassumption.
Qed.

Lemma decode_encode_canonical_witness :
  tryDecodeRunestone
    [[106; 93; 36; 2; 7; 1; 2; 3; 1; 4; 218; 5; 5; 128; 236; 7; 6; 5; 8; 1;
      10; 1; 14; 5; 20; 100; 20; 1; 22; 0; 0; 1; 1; 5; 0; 0; 4; 5; 1]]
  = Some (DecodedRunestone spec_full).
Proof.
  apply (decode_encode_canonical spec_full
           (mkEncoded
              [106; 93; 36; 2; 7; 1; 2; 3; 1; 4; 218; 5; 5; 128; 236; 7; 6;
               5; 8; 1; 10; 1; 14; 5; 20; 100; 20; 1; 22; 0; 0; 1; 1; 5; 0;
               0; 4; 5; 1]
              (Some [218; 2]))).
  - vm_compute. reflexivity.
  - vm_compute. reflexivity.
  - exists [], []. split; [reflexivity | constructor].
  - vm_compute. reflexivity.
Defined.

(** A spec that leaves [turbo] out of its etching is encoded, and the
    decoder reads the encoding as a spec whose etching has [turbo: false]:
    the decoded spec differs from the encoded one. *)
Lemma decode_encode_adds_turbo :
  encodeRunestone spec_no_turbo
  = Ok (mkEncoded [106; 93; 5; 2; 1; 1; 2; 0] None)
  /\ tryDecodeRunestone [[106; 93; 5; 2; 1; 1; 2; 0]]
     = Some (DecodedRunestone
               (mkRunestoneSpec None None
                  (Some (mkRuneEtchingSpec None (Some 2) None None None
                           (Some false)))
                  None))
  /\ tryDecodeRunestone [[106; 93; 5; 2; 1; 1; 2; 0]]
     <> Some (DecodedRunestone spec_no_turbo).
Proof.
  split; [reflexivity|]. split; [reflexivity|]. discriminate.
Qed.

(** Two more normalizations of the decoder: an empty list of edicts is read
    back as no [edicts] property, and edicts out of order are read back in
    ascending order of their ids. *)
Example decode_encode_empty_edicts :
  encodeRunestone spec_empty_edicts = Ok (mkEncoded [106; 93; 3; 2; 0; 0] None)
  /\ tryDecodeRunestone [[106; 93; 3; 2; 0; 0]]
     = Some (DecodedRunestone (mkRunestoneSpec None None None None)).
Proof. split; reflexivity. Qed.

Example decode_encode_unsorted_edicts :
  encodeRunestone spec_unsorted_edicts
  = Ok (mkEncoded [106; 93; 11; 2; 0; 0; 1; 0; 9; 0; 1; 0; 7; 0] None)
  /\ tryDecodeRunestone [[106; 93; 11; 2; 0; 0; 1; 0; 9; 0; 1; 0; 7; 0]]
     = Some (DecodedRunestone
               (mkRunestoneSpec None None None
                  (Some [mkEdictSpec (mkRuneIdSpec 1 0) 9 0;
                         mkEdictSpec (mkRuneIdSpec 2 0) 7 0]))).
Proof. split; reflexivity. Qed.

(* ================================================================== *)
(** * Further properties of [index.ts] *)

(** X1.  [getFlawString] gives distinct names to distinct flaws, so the
    list of flaws of the library is recovered from the list of names that
    [tryDecodeRunestone] returns. *)
Theorem getFlawString_injective :
  (forall f g, getFlawString f = getFlawString g -> f = g)
  /\ (forall fs gs,
        map getFlawString fs = map getFlawString gs -> fs = gs).
Proof.
  assert (Hinj : forall f g, getFlawString f = getFlawString g -> f = g).
  { intros f g. destruct f, g; simpl; intros H;
      first [reflexivity | discriminate H]. }
  split; [exact Hinj|].
  induction fs as [|f fs IH]; intros [|g gs] H; try discriminate;
    [reflexivity|].
  cbn [map] in H. injection H as Hf Hfs.
  f_equal; [now apply Hinj | now apply IH].
Qed.

Lemma getFlawString_injective_witness : OPCODE = OPCODE.
Proof.
  apply (proj1 getFlawString_injective OPCODE OPCODE). reflexivity.
Defined.

(** X2.  The decoder never returns a spec with an empty [edicts] list, an
    etching without [turbo], or terms whose [height] or [offset] object has
    no bound: empty collections are left out and [turbo] is always
    written. *)
Theorem tryDecodeRunestone_normal_form tx r :
  tryDecodeRunestone tx = Some (DecodedRunestone r) ->
  s_edicts r <> Some []
  /\ forall e,
      s_etching r = Some e ->
      e_turbo e <> None
      /\ forall t,
          e_terms e = Some t ->
          canonicalRange (t_height t) = true
          /\ canonicalRange (t_offset t) = true.
Proof.
  intros H. pose proof (tryDecodeRunestone_cases tx) as Hc.
  destruct (decipher tx) as [[R|C]|]; try congruence.
  rewrite Hc in H. injection H as <-. unfold runestoneSpec.
  cbn [s_edicts s_etching].
  split.
  - destruct (edicts R); discriminate.
  - intros e He. destruct (etching R) as [e0|]; [|discriminate].
    injection He as <-. unfold etchingSpec. cbn [e_turbo e_terms].
    split; [discriminate|]. intros t Ht.
    destruct (terms e0) as [t0|]; [|discriminate].
    injection Ht as <-. unfold termsSpec, rangeSpec. cbn [t_height t_offset].
    split.
    + destruct (isSome (fst (terms_height t0))
                || isSome (snd (terms_height t0))) eqn:E;
        [exact E | reflexivity].
    + destruct (isSome (fst (terms_offset t0))
                || isSome (snd (terms_offset t0))) eqn:E;
        [exact E | reflexivity].
Qed.

Lemma tryDecodeRunestone_normal_form_witness :
  s_edicts spec_full <> Some []
  /\ forall e,
      s_etching spec_full = Some e ->
      e_turbo e <> None
      /\ forall t,
          e_terms e = Some t ->
          canonicalRange (t_height t) = true
          /\ canonicalRange (t_offset t) = true.
Proof.
  apply (tryDecodeRunestone_normal_form
           [[106; 93; 36; 2; 7; 1; 2; 3; 1; 4; 218; 5; 5; 128; 236; 7; 6; 5;
             8; 1; 10; 1; 14; 5; 20; 100; 20; 1; 22; 0; 0; 1; 1; 5; 0; 0; 4;
             5; 1]]).
  vm_compute. reflexivity.
Defined.



(** X4.  [encodeRunestone] returns an etching commitment exactly when the
    spec has an etching with a non-empty rune name. *)
Theorem etchingCommitment_defined_iff r enc :
  encodeRunestone r = Ok enc ->
  (etchingCommitment enc <> None
   <-> exists es u name,
        s_etching r = Some es /\ e_runeName es = Some (u :: name)).
Proof.
  intros H. apply encodeRunestone_Ok in H. destruct H as (R & Hb & _).
  apply buildRunestone_Ok in Hb.
  destruct Hb as (_ & _ & _ & _ & _ & _ & Het).
  destruct (s_etching r) as [es|].
  - destruct Het as (e & Het & _). apply strictEtching_Ok in Het.
    destruct Het as (Hname & _).
    destruct (e_runeName es) as [[|u name]|] eqn:En.
    + destruct Hname as (_ & _ & ->). split; [congruence|].
      intros (es' & u & name & Hes & Hn). congruence.
    + destruct Hname as (sr & _ & _ & _ & ->). split; [|discriminate].
      intros _. exists es, u, name. split; [reflexivity | exact En].
    + destruct Hname as (_ & _ & ->). split; [congruence|].
      intros (es' & u & name & Hes & Hn). congruence.
  - destruct Het as [_ ->]. split; [congruence|].
    intros (es & u & name & Hes & _). discriminate.
Qed.

Lemma etchingCommitment_defined_iff_witness :
  etchingCommitment (mkEncoded [106; 93; 5; 2; 1; 4; 27; 0] (Some [27]))
  <> None
  <-> exists es u name,
      s_etching spec_AB = Some es /\ e_runeName es = Some (u :: name).
Proof.
  apply (etchingCommitment_defined_iff spec_AB). vm_compute. reflexivity.
Defined.

(** Where a thrown conversion error comes from. *)

Lemma u8Strict_Throw_range n e :
  u8Strict n = Throw e -> inRange u8_MAX n = false.
Proof.
  unfold u8Strict, inRange.
  destruct ((n <? 0) || (u8_MAX <? n)) eqn:E; [|discriminate]. intros _. lia.
Qed.

Lemma u32Strict_Throw_range n e :
  u32Strict n = Throw e -> inRange u32_MAX n = false.
Proof.
  unfold u32Strict, inRange.
  destruct ((n <? 0) || (u32_MAX <? n)) eqn:E; [|discriminate]. intros _. lia.
Qed.

Lemma u64Strict_Throw_range n e :
  u64Strict n = Throw e -> inRange u64_MAX n = false.
Proof.
  unfold u64Strict, inRange.
  destruct ((n <? 0) || (u64_MAX <? n)) eqn:E; [|discriminate]. intros _. lia.
Qed.

Lemma u128Strict_Throw_range n e :
  u128Strict n = Throw e -> inRange u128_MAX n = false.
Proof.
  unfold u128Strict, inRange.
  destruct ((n <? 0) || (u128_MAX <? n)) eqn:E; [|discriminate]. intros _. lia.
Qed.

Lemma strictRuneId_Throw_range x e :
  strictRuneId x = Throw e -> runeIdInBounds x = false.
Proof.
  unfold strictRuneId, runeIdInBounds. intros H.
  apply bind_Throw_inv in H. destruct H as [H | (b & Hb & H)].
  - apply u64Strict_Throw_range in H. now rewrite H.
  - apply bind_Throw_inv in H. destruct H as [H | (t & Ht & H)];
      [|discriminate].
    apply u32Strict_Throw_range in H. rewrite H. apply andb_false_r.
Qed.

Lemma strictEdict_Throw_range x e :
  strictEdict x = Throw e -> edictInBounds x = false.
Proof.
  unfold strictEdict, edictInBounds. intros H.
  apply bind_Throw_inv in H. destruct H as [H | (i & Hi & H)].
  - apply strictRuneId_Throw_range in H. now rewrite H.
  - apply bind_Throw_inv in H. destruct H as [H | (a & Ha & H)].
    + apply u128Strict_Throw_range in H. rewrite H.
      now rewrite andb_false_r.
    + apply bind_Throw_inv in H. destruct H as [H | (o & Ho & H)];
        [|discriminate].
      apply u32Strict_Throw_range in H. rewrite H. apply andb_false_r.
Qed.

Lemma mapResult_strictEdict_Throw_range es e :
  mapResult strictEdict es = Throw e -> forallb edictInBounds es = false.
Proof.
  induction es as [|x es IH]; cbn [mapResult forallb]; intros H;
    [discriminate|].
  apply bind_Throw_inv in H. destruct H as [H | (b & Hb & H)].
  - apply strictEdict_Throw_range in H. now rewrite H.
  - apply bind_Throw_inv in H. destruct H as [H | (bs & Hbs & H)];
      [|discriminate].
    rewrite (IH H). apply andb_false_r.
Qed.

Lemma mapOption_Throw_range (f : Z -> Result Z) max o e :
  (forall n e', f n = Throw e' -> inRange max n = false) ->
  mapOption f o = Throw e -> optInRange max o = false.
Proof.
  intros Hf H. apply mapOption_Throw in H. destruct H as (n & -> & H).
  simpl. eapply Hf; eassumption.
Qed.

Lemma strictRange_Throw_range x e :
  strictRange x = Throw e -> rangeInBounds x = false.
Proof.
  unfold strictRange, rangeInBounds. destruct x as [range|]; [|discriminate].
  intros H. apply bind_Throw_inv in H. destruct H as [H | (s & Hs & H)].
  - apply (mapOption_Throw_range _ u64_MAX) in H;
      [now rewrite H | exact u64Strict_Throw_range].
  - apply bind_Throw_inv in H. destruct H as [H | (t & Ht & H)];
      [|discriminate].
    apply (mapOption_Throw_range _ u64_MAX) in H;
      [rewrite H; apply andb_false_r | exact u64Strict_Throw_range].
Qed.

(** [strictTerms] throws a conversion error for a field out of bounds, and
    the terms error for a product above the maximum of u128. *)
Lemma strictTerms_Throw_cases ts e :
  strictTerms ts = Throw e ->
  ((e = U64Overflow \/ e = U128Overflow) /\ termsInBounds ts = false)
  \/ (e = TermsOverflow
      /\ exists a c,
          t_amount ts = Some a /\ t_cap ts = Some c
          /\ 0 <= a <= u128_MAX /\ 0 <= c <= u128_MAX
          /\ u128_MAX < a * c).
Proof.
  intros H. pose proof (strictTerms_Throw ts e H) as Hkind.
  unfold strictTerms in H. unfold termsInBounds.
  apply bind_Throw_inv in H. destruct H as [H | (am & Ham & H)].
  { left. pose proof H as H'. apply mapOption_Throw in H'.
    destruct H' as (n & _ & H'). apply u128Strict_Throw in H'.
    split; [tauto|].
    apply (mapOption_Throw_range _ u128_MAX) in H;
      [now rewrite H | exact u128Strict_Throw_range]. }
  apply bind_Throw_inv in H. destruct H as [H | (cp & Hcp & H)].
  { left. pose proof H as H'. apply mapOption_Throw in H'.
    destruct H' as (n & _ & H'). apply u128Strict_Throw in H'.
    split; [tauto|].
    apply (mapOption_Throw_range _ u128_MAX) in H;
      [rewrite H; now rewrite andb_false_r | exact u128Strict_Throw_range]. }
  apply bind_Throw_inv in H. destruct H as [H | (hs & Hhs & H)].
  { left. pose proof (strictRange_Throw _ _ H). split; [tauto|].
    apply strictRange_Throw_range in H. rewrite H.
    now rewrite andb_false_r. }
  apply bind_Throw_inv in H. destruct H as [H | (os & Hos & H)].
  { left. pose proof (strictRange_Throw _ _ H). split; [tauto|].
    apply strictRange_Throw_range in H. rewrite H.
    apply andb_false_r. }
  right.
  apply (mapOption_strict_Ok _ u128_MAX) in Ham as [-> Ha];
    [|exact u128Strict_Ok].
  apply (mapOption_strict_Ok _ u128_MAX) in Hcp as [-> Hc];
    [|exact u128Strict_Ok].
  destruct (t_amount ts) as [a|]; [|discriminate].
  destruct (t_cap ts) as [c|]; [|discriminate].
  destruct (u128_MAX <? a * c) eqn:E; [|discriminate].
  injection H as <-. split; [reflexivity|]. exists a, c.
  simpl in Ha, Hc. apply inRange_true in Ha, Hc. apply Z.ltb_lt in E.
  repeat split; try reflexivity; lia.
Qed.

(** Where each error of the etching comes from. *)
Lemma strictEtching_Throw_cases es e :
  strictEtching es = Throw e ->
  (e = RuneNameError
   /\ exists u name,
       e_runeName es = Some (u :: name)
       /\ SpacedRune.fromString (u :: name) = None)
  \/ (e = SymbolNotOneCodePoint
      /\ exists u s,
          e_symbol es = Some (u :: s) /\ symbolAccepted (u :: s) = false)
  \/ ((e = U8Overflow \/ e = U64Overflow \/ e = U128Overflow)
      /\ etchingInBounds es = false)
  \/ (e = U32Overflow
      /\ exists u name sr,
          e_runeName es = Some (u :: name)
          /\ SpacedRune.fromString (u :: name) = Some sr
          /\ inRange u32_MAX (SpacedRune.spacers sr) = false)
  \/ (e = DivisibilityTooLarge
      /\ exists d, e_divisibility es = Some d /\ MAX_DIVISIBILITY < d <= u8_MAX)
  \/ (e = TermsOverflow
      /\ exists ts a c,
          e_terms es = Some ts
          /\ t_amount ts = Some a /\ t_cap ts = Some c
          /\ 0 <= a <= u128_MAX /\ 0 <= c <= u128_MAX
          /\ u128_MAX < a * c).
Proof.
  unfold strictEtching. intros H.
  apply bind_Throw_inv in H. destruct H as [H | (sr & Hsr & H)].
  { left. destruct (e_runeName es) as [[|u name]|]; try discriminate.
    simpl in H. destruct (SpacedRune.fromString (u :: name)) eqn:E;
      [discriminate|].
    injection H as <-. split; [reflexivity|]. exists u, name. now split. }
  apply bind_Throw_inv in H. destruct H as [H | (x & Hx & H)].
  { right. left. destruct (e_symbol es) as [[|u s]|]; try discriminate.
    simpl in H. destruct (symbolAccepted (u :: s)) eqn:E; [discriminate|].
    injection H as <-. split; [reflexivity|]. exists u, s. now split. }
  apply bind_Throw_inv in H. destruct H as [H | (d & Hd & H)].
  { right. right. left. unfold etchingInBounds.
    pose proof H as H'. apply mapOption_Throw in H'.
    destruct H' as (n & _ & H'). apply u8Strict_Throw in H'.
    split; [tauto|].
    apply (mapOption_Throw_range _ u8_MAX) in H;
      [now rewrite H | exact u8Strict_Throw_range]. }
  apply bind_Throw_inv in H. destruct H as [H | (p & Hp & H)].
  { right. right. left. unfold etchingInBounds.
    pose proof H as H'. apply mapOption_Throw in H'.
    destruct H' as (n & _ & H'). apply u128Strict_Throw in H'.
    split; [tauto|].
    apply (mapOption_Throw_range _ u128_MAX) in H;
      [rewrite H; now rewrite andb_false_r | exact u128Strict_Throw_range]. }
  apply bind_Throw_inv in H. destruct H as [H | (sp & Hsp & H)].
  { right. right. right. left.
    destruct sr as [sr|]; [|discriminate].
    destruct (negb (SpacedRune.spacers sr =? 0)); [|discriminate].
    apply bind_Throw_inv in H. destruct H as [H | (s0 & Hs0 & H)];
      [|discriminate].
    pose proof (u32Strict_Throw _ _ H) as ->.
    apply u32Strict_Throw_range in H. split; [reflexivity|].
    destruct (e_runeName es) as [[|u name]|]; try discriminate.
    simpl in Hsr.
    destruct (SpacedRune.fromString (u :: name)) as [sr'|] eqn:E;
      [|discriminate].
    injection Hsr as ->. exists u, name, sr. repeat split; assumption. }
  apply (mapOption_strict_Ok _ u8_MAX) in Hd as [-> Hd]; [|exact u8Strict_Ok].
  apply bind_Throw_inv in H. destruct H as [H | (y & Hy & H)].
  { right. right. right. right. left.
    destruct (e_divisibility es) as [dv|]; [|discriminate].
    destruct (MAX_DIVISIBILITY <? dv) eqn:E; [|discriminate].
    injection H as <-. split; [reflexivity|]. exists dv.
    simpl in Hd. apply inRange_true in Hd. apply Z.ltb_lt in E.
    split; [reflexivity | lia]. }
  apply bind_Throw_inv in H. destruct H as [H | (t & Ht & H)];
    [|discriminate].
  destruct (e_terms es) as [ts|] eqn:Ets; [|discriminate].
  apply bind_Throw_inv in H. destruct H as [H | (t & Ht & H)];
    [|discriminate].
  apply strictTerms_Throw_cases in H.
  destruct H as [[Hk H] | (-> & a & c & H)].
  - right. right. left. split; [tauto|].
    unfold etchingInBounds. rewrite Ets, H. apply andb_false_r.
  - right. right. right. right. right. split; [reflexivity|].
    exists ts, a, c. split; [reflexivity | exact H].
Qed.

(** Where each error of [encodeRunestone] comes from: a numeric field out
    of bounds, or one of the checks of the etching. *)
Lemma encodeRunestone_Throw_cases r e :
  encodeRunestone r = Throw e ->
  numericFieldsInBounds r = false
  \/ exists es,
      s_etching r = Some es /\ strictEtching es = Throw e
      /\ etchingInBounds es = true.
Proof.
  intros H. apply encodeRunestone_Throw_inv in H.
  unfold buildRunestone in H. unfold numericFieldsInBounds.
  apply bind_Throw_inv in H. destruct H as [H | (m & Hm & H)].
  { left. apply mapOption_Throw in H. destruct H as (x & -> & H).
    apply strictRuneId_Throw_range in H. now rewrite H. }
  apply bind_Throw_inv in H. destruct H as [H | (p & Hp & H)].
  { left. apply (mapOption_Throw_range _ u32_MAX) in H;
      [rewrite H; now rewrite andb_false_r | exact u32Strict_Throw_range]. }
  apply bind_Throw_inv in H. destruct H as [H | (es & Hes & H)].
  { left. apply mapResult_strictEdict_Throw_range in H. rewrite H.
    now rewrite andb_false_r. }
  apply bind_Throw_inv in H. destruct H as [H | ([et c] & Het & H)];
    [|discriminate].
  destruct (s_etching r) as [es0|]; [|discriminate].
  apply bind_Throw_inv in H. destruct H as [H | ([e1 c1] & He1 & H)];
    [|discriminate].
  destruct (etchingInBounds es0) eqn:Eb.
  - right. exists es0. repeat split; assumption.
  - left. apply andb_false_r.
Qed.

(** X5.  The conversions of the mint and of the pointer come first and
    decide the error: a mint block outside u64 gives "u64 overflow"
    whatever else is wrong with the spec, a mint tx outside u32 gives
    "u32 overflow" once the block is fine, and a pointer outside u32 gives
    "u32 overflow" once the mint is fine. *)
Theorem encodeRunestone_error_order r :
  (forall m,
      s_mint r = Some m -> inRange u64_MAX (id_block m) = false ->
      encodeRunestone r = Throw U64Overflow)
  /\ (forall m,
         s_mint r = Some m -> inRange u64_MAX (id_block m) = true ->
         inRange u32_MAX (id_tx m) = false ->
         encodeRunestone r = Throw U32Overflow)
  /\ (forall p,
         match s_mint r with Some m => runeIdInBounds m | None => true end
         = true ->
         s_pointer r = Some p -> inRange u32_MAX p = false ->
         encodeRunestone r = Throw U32Overflow).
Proof.
  assert (H64 : forall n, inRange u64_MAX n = false ->
                          u64Strict n = Throw U64Overflow).
  { intros n H. unfold u64Strict, inRange in *.
    replace ((n <? 0) || (u64_MAX <? n)) with true by lia. reflexivity. }
  assert (H64' : forall n, inRange u64_MAX n = true -> u64Strict n = Ok n).
  { intros n H. apply u64Strict_Ok. apply inRange_true in H. tauto. }
  assert (H32 : forall n, inRange u32_MAX n = false ->
                          u32Strict n = Throw U32Overflow).
  { intros n H. unfold u32Strict, inRange in *.
    replace ((n <? 0) || (u32_MAX <? n)) with true by lia. reflexivity. }
  assert (H32' : forall n, inRange u32_MAX n = true -> u32Strict n = Ok n).
  { intros n H. apply u32Strict_Ok. apply inRange_true in H. tauto. }
  unfold encodeRunestone, buildRunestone. split; [|split].
  - intros m Hm Hb. rewrite Hm. cbn [mapOption]. unfold strictRuneId.
    rewrite (H64 _ Hb). reflexivity.
  - intros m Hm Hb Ht. rewrite Hm. cbn [mapOption]. unfold strictRuneId.
    rewrite (H64' _ Hb). cbn [bind]. rewrite (H32 _ Ht). reflexivity.
  - intros p Hmint Hp Hr. rewrite Hp.
    assert (Hm : exists v, mapOption strictRuneId (s_mint r) = Ok v).
    { destruct (s_mint r) as [m|]; [|eexists; reflexivity].
      cbn [mapOption]. unfold strictRuneId.
      apply andb_true_iff in Hmint as [Hb Ht].
      rewrite (H64' _ Hb). cbn [bind]. rewrite (H32' _ Ht).
      eexists; reflexivity. }
    destruct Hm as (v & ->). cbn [bind mapOption].
    rewrite (H32 _ Hr). reflexivity.
Qed.

Lemma encodeRunestone_error_order_witness :
  encodeRunestone spec_bad_mint_block = Throw U64Overflow
  /\ encodeRunestone spec_bad_mint_tx = Throw U32Overflow
  /\ encodeRunestone spec_negative_pointer = Throw U32Overflow.
Proof.
  split; [|split].
  - apply (proj1 (encodeRunestone_error_order spec_bad_mint_block)
             (mkRuneIdSpec (2 ^ 64) 0)); reflexivity.
  - apply (proj1 (proj2 (encodeRunestone_error_order spec_bad_mint_tx))
             (mkRuneIdSpec 0 (2 ^ 32))); reflexivity.
  - apply (proj2 (proj2 (encodeRunestone_error_order spec_negative_pointer))
             (-1)); reflexivity.
Defined.

(** X6.  [encodeRunestone] throws whenever the terms give an amount and a
    cap whose product exceeds the maximum of u128, and the error "Terms
    overflow with amount times cap" is raised only for such terms, with
    amount and cap each within u128. *)
Theorem encodeRunestone_terms_overflow r :
  (forall es ts a c,
      s_etching r = Some es -> e_terms es = Some ts ->
      t_amount ts = Some a -> t_cap ts = Some c ->
      u128_MAX < a * c ->
      exists e, encodeRunestone r = Throw e)
  /\ (encodeRunestone r = Throw TermsOverflow ->
      exists es ts a c,
        s_etching r = Some es /\ e_terms es = Some ts
        /\ t_amount ts = Some a /\ t_cap ts = Some c
        /\ 0 <= a <= u128_MAX /\ 0 <= c <= u128_MAX
        /\ u128_MAX < a * c).
Proof.
  split.
  - intros es ts a c Hes Hts Ha Hc Hlt. apply encodeRunestone_Throw.
    intros R c0 Hb. apply buildRunestone_Ok in Hb.
    destruct Hb as (_ & _ & _ & _ & _ & _ & Het). rewrite Hes in Het.
    destruct Het as (e & Het & _). apply strictEtching_Ok in Het.
    destruct Het as (_ & _ & _ & _ & _ & _ & _ & Ht & _). rewrite Hts in Ht.
    destruct Ht as (t & Ht & _). apply strictTerms_Ok in Ht.
    destruct Ht as (_ & _ & _ & _ & _ & Hm). rewrite Ha, Hc in Hm.
    simpl in Hm. lia.
  - intros H. apply encodeRunestone_Throw_inv in H.
    apply buildRunestone_Throw in H.
    destruct H as [[H|[H|H]] | (es & Hes & H)]; try discriminate.
    apply strictEtching_Throw_cases in H.
    destruct H as [[H _] | [[H _] | [[H _] | [[H _] | [[H _] | [_ H]]]]]];
      try discriminate; try (destruct H as [H|[H|H]]; discriminate).
    destruct H as (ts & a & c & Hts & H). exists es, ts, a, c. tauto.
Qed.

Lemma encodeRunestone_terms_overflow_witness :
  (exists e, encodeRunestone spec_terms_overflow = Throw e)
  /\ exists es ts a c,
      s_etching spec_terms_overflow = Some es /\ e_terms es = Some ts
      /\ t_amount ts = Some a /\ t_cap ts = Some c
      /\ 0 <= a <= u128_MAX /\ 0 <= c <= u128_MAX
      /\ u128_MAX < a * c.
Proof.
  split.
  - apply (proj1 (encodeRunestone_terms_overflow spec_terms_overflow)
             etching_terms_overflow
             (mkTermsSpec (Some (2 ^ 64)) (Some (2 ^ 64)) None None)
             (2 ^ 64) (2 ^ 64)); try reflexivity.
  - apply (proj2 (encodeRunestone_terms_overflow spec_terms_overflow)).
    vm_compute. reflexivity.
Defined.

(** X7.  The error "Symbol must be one code point" is raised only for an
    etching whose symbol is a non-empty string that is not exactly one code
    point: a symbol of one code point is never rejected on that account. *)
Theorem encodeRunestone_symbol_error_only_then r :
  encodeRunestone r = Throw SymbolNotOneCodePoint ->
  exists es u s,
    s_etching r = Some es /\ e_symbol es = Some (u :: s)
    /\ symbolAccepted (u :: s) = false
    /\ (isString (u :: s) = true -> length (codePoints (u :: s)) <> 1%nat).
Proof.
  intros H. apply encodeRunestone_Throw_inv in H.
  apply buildRunestone_Throw in H.
  destruct H as [[H|[H|H]] | (es & Hes & H)]; try discriminate.
  apply strictEtching_Throw_cases in H.
  destruct H as [[H _] | [[_ H] | [[H _] | [[H _] | [[H _] | [H _]]]]]];
    try discriminate; try (destruct H as [H|[H|H]]; discriminate).
  destruct H as (u & s & Hs & Hacc). exists es, u, s.
  repeat split; try assumption.
  intros Hstr Hone.
  apply symbolAccepted_iff in Hone; [congruence | exact Hstr |].
  discriminate.
Qed.

Lemma encodeRunestone_symbol_error_only_then_witness :
  exists es u s,
    s_etching spec_symbol_AB = Some es /\ e_symbol es = Some (u :: s)
    /\ symbolAccepted (u :: s) = false
    /\ (isString (u :: s) = true -> length (codePoints (u :: s)) <> 1%nat).
Proof.
  apply (encodeRunestone_symbol_error_only_then spec_symbol_AB).
  reflexivity.
Defined.

(** X8.  The errors "u8 overflow", "u64 overflow" and "u128 overflow" are
    raised only when a numeric field of the spec lies outside its bounded
    unsigned domain. *)
Theorem encodeRunestone_overflow_error_only_then r e :
  encodeRunestone r = Throw e ->
  e = U8Overflow \/ e = U64Overflow \/ e = U128Overflow ->
  numericFieldsInBounds r = false.
Proof.
  intros H He. apply encodeRunestone_Throw_cases in H.
  destruct H as [H | (es & Hes & H & Hb)]; [exact H|].
  apply strictEtching_Throw_cases in H.
  destruct H as [[H _] | [[H _] | [[_ H] | [[H _] | [[H _] | [H _]]]]]];
    try (subst e; destruct He as [He|[He|He]]; discriminate).
  congruence.
Qed.

Lemma encodeRunestone_overflow_error_only_then_witness :
  numericFieldsInBounds spec_divisibility_256 = false.
Proof.
  apply (encodeRunestone_overflow_error_only_then spec_divisibility_256
           U8Overflow).
  - reflexivity.
  - left. reflexivity.
Defined.


(** The encoder does not tell a spec from its normal form. *)

Lemma strictRange_normalizeRange x :
  strictRange (normalizeRange x) = strictRange x.
Proof.
  destruct x as [[[s|] [e|]]|]; reflexivity.
Qed.

Lemma strictTerms_normalizeTerms t :
  strictTerms (normalizeTerms t) = strictTerms t.
Proof.
  unfold strictTerms, normalizeTerms. cbn [t_amount t_cap t_height t_offset].
  now rewrite !strictRange_normalizeRange.
Qed.

Lemma strictEtching_normalizeEtching e :
  strictEtching (normalizeEtching e) = strictEtching e.
Proof.
  unfold strictEtching, normalizeEtching.
  cbn [e_runeName e_divisibility e_premine e_symbol e_terms e_turbo].
  assert (Hterms :
            match option_map normalizeTerms (e_terms e) with
            | Some termsSpec => t <- strictTerms termsSpec ;; Ok (Some t)
            | None => Ok None
            end
            = match e_terms e with
              | Some termsSpec => t <- strictTerms termsSpec ;; Ok (Some t)
              | None => Ok None
              end).
  { destruct (e_terms e) as [t|]; [|reflexivity]. cbn [option_map].
    now rewrite strictTerms_normalizeTerms. }
  rewrite Hterms.
  destruct (e_runeName e) as [[|u name]|], (e_symbol e) as [[|v s]|],
    (e_turbo e) as [b|]; reflexivity.
Qed.

Lemma buildRunestone_normalizeSpec r :
  buildRunestone (normalizeSpec r) = buildRunestone r.
Proof.
  unfold buildRunestone, normalizeSpec.
  cbn [s_mint s_pointer s_etching s_edicts].
  assert (Hedicts :
            match match s_edicts r with Some [] => None | es => es end with
            | Some es => es
            | None => []
            end
            = match s_edicts r with Some es => es | None => [] end).
  { destruct (s_edicts r) as [[|e es]|]; reflexivity. }
  rewrite Hedicts.
  destruct (s_etching r) as [es|]; [|reflexivity].
  cbn [option_map]. now rewrite strictEtching_normalizeEtching.
Qed.

(** X10.  [encodeRunestone] gives the same result, encoding and commitment
    or error, for a spec and for its normal form: an empty [edicts] list,
    an empty rune name or symbol and a [height] or [offset] object without
    a bound are encoded as if absent, and a missing [turbo] as false. *)
Theorem encodeRunestone_normalizeSpec r :
  encodeRunestone (normalizeSpec r) = encodeRunestone r.
Proof.
  unfold encodeRunestone. now rewrite buildRunestone_normalizeSpec.
Qed.

Lemma canonicalRange_normalizeRange x :
  canonicalRange (normalizeRange x) = true.
Proof.
  destruct x as [[s e]|]; [|reflexivity]. unfold normalizeRange.
  cbn [r_start r_end].
  destruct (isSome s || isSome e) eqn:E; [exact E | reflexivity].
Qed.

Lemma canonical_normalizeSpec r :
  decodable r = true -> canonical (normalizeSpec r) = true.
Proof.
  unfold decodable, canonical, normalizeSpec.
  cbn [s_edicts s_etching]. rewrite !andb_true_iff.
  intros ((Hasc & Hvalid) & Het). split.
  - destruct (s_edicts r) as [[|e es]|]; try reflexivity.
    unfold canonicalEdicts. now rewrite Hasc, Hvalid.
  - destruct (s_etching r) as [e|]; [|reflexivity]. cbn [option_map].
    apply andb_true_iff in Het as [Hstr Hsupply].
    unfold canonicalEtching, normalizeEtching.
    cbn [e_runeName e_symbol e_terms e_turbo isSome].
    assert (Hn : forall o, nonEmpty (normalizeString o) = true)
      by (intros [[|u s]|]; reflexivity).
    rewrite !Hn. cbn [andb].
    assert (Hsym : match normalizeString (e_symbol e) with
                   | Some s => isString s
                   | None => true
                   end = true).
    { destruct (e_symbol e) as [[|u s]|]; try reflexivity. exact Hstr. }
    rewrite Hsym. cbn [andb].
    assert (Hranges : match option_map normalizeTerms (e_terms e) with
                      | Some t =>
                          canonicalRange (t_height t)
                          && canonicalRange (t_offset t)
                      | None => true
                      end = true).
    { destruct (e_terms e) as [t|]; [|reflexivity]. cbn [option_map].
      unfold normalizeTerms. cbn [t_height t_offset].
      now rewrite !canonicalRange_normalizeRange. }
    rewrite Hranges. cbn [andb].
    unfold specSupplyFits in *. cbn [e_premine e_terms].
    destruct (e_terms e) as [t|]; exact Hsupply.
Qed.

Lemma fitsOutputs_normalizeSpec numOutputs r :
  fitsOutputs numOutputs (normalizeSpec r) = fitsOutputs numOutputs r.
Proof.
  unfold fitsOutputs, normalizeSpec. cbn [s_pointer s_edicts].
  destruct (s_edicts r) as [[|e es]|]; reflexivity.
Qed.

(** X11.  With the codec of the library as modelled from the spec: for
    every spec that [encodeRunestone] accepts, whose edicts are in
    ascending order of valid ids, whose symbol is a string and whose supply
    fits 128 bits, and every transaction that carries the encoded script as
    its first [OP_RETURN OP_13] output and that the spec fits,
    [tryDecodeRunestone] returns the normal form of the spec. *)
Theorem decode_encode_normal_form r enc tx :
  encodeRunestone r = Ok enc ->
  decodable r = true ->
  carries tx (encodedRunestone enc) ->
  fitsOutputs (Z.of_nat (length tx)) r = true ->
  tryDecodeRunestone tx = Some (DecodedRunestone (normalizeSpec r)).
Proof.
  intros Henc Hdec (before & after & -> & Hbefore) Hfit.
  apply encodeRunestone_Ok in Henc. destruct Henc as (R & Hb & Hbytes).
  rewrite Hbytes in *. rewrite <- buildRunestone_normalizeSpec in Hb.
  rewrite <- fitsOutputs_normalizeSpec in Hfit.
  pose proof (canonical_normalizeSpec r Hdec) as Hcan.
  pose proof (buildRunestone_runestoneOk _ _ _ _ Hb Hcan Hfit) as HR.
  pose proof (decipher_encipher before after R Hbefore HR) as Hd.
  unfold tryDecodeRunestone. rewrite Hd. f_equal. f_equal.
  eapply buildRunestone_runestoneSpec; eassumption.
Qed.

Lemma decode_encode_normal_form_witness :
  tryDecodeRunestone [[106; 93; 5; 2; 1; 1; 2; 0]]
  = Some (DecodedRunestone (normalizeSpec spec_no_turbo)).
Proof.
  apply (decode_encode_normal_form spec_no_turbo
           (mkEncoded [106; 93; 5; 2; 1; 1; 2; 0] None)).
  - reflexivity.
  - reflexivity.
  - exists [], []. split; [reflexivity | constructor].
  - reflexivity.
Defined.

